(** * kvstore: a durable key-value store with TTLs and a transaction overlay

    A shallow embedding of [storage.py] (the append-only log), [engine.py]
    (the liveness engine) and the transaction handlers of [main.py],
    followed by the properties of the specification that were checked
    against them.

    Conventions of the embedding.
    - A Python [str] is a [string]; a character stands for the code point
      with the same number, so the texts covered are those over the code
      points 0..255.  Python compares strings code point by code point,
      which is [String.compare] here.
    - A Python [int] is a [Z].
    - A method that mutates [self] is a function from the state to an
      outcome and the next state.  An exception leaves the mutations made
      before it in place, as in Python, so the outcome and the state are
      returned side by side.
    - [KVEngine._now_ms()] reads the wall clock.  Every engine operation
      reads it at most once, first thing, so the value read is the argument
      [now] of the operation.  The command handlers take their readings
      from the clock of the [World]. *)

From Stdlib Require Import ZArith Lia Ascii String List DecimalString DecimalZ.
From stdpp Require Import base option gmap sets list strings sorting.

Local Open Scope string_scope.
Local Open Scope Z_scope.

(** ** Outcomes and the state-and-exception monad *)

Inductive exn : Type :=
| ValueError
| IndexError.

Inductive Res (A : Type) : Type :=
| Ok (a : A)
| Raise (e : exn).
Arguments Ok {A} a.
Arguments Raise {A} e.

Definition is_ok {A} (r : Res A) : bool :=
  match r with Ok _ => true | Raise _ => false end.

(** A computation over a state [S]: the state survives an exception. *)
Definition M (S A : Type) : Type := S → Res A * S.

Definition ret {S A} (a : A) : M S A := fun s => (Ok a, s).
Definition raise {S A} (e : exn) : M S A := fun s => (Raise e, s).
Definition bind {S A B} (m : M S A) (f : A → M S B) : M S B :=
  fun s => match m s with
           | (Ok a, s') => f a s'
           | (Raise e, s') => (Raise e, s')
           end.
Definition gets {S A} (f : S → A) : M S A := fun s => (Ok (f s), s).
Definition modify {S} (f : S → S) : M S unit := fun s => (Ok tt, f s).

(** Run a computation on a component [T] of the state [S]. *)
Definition zoom {S T A} (get : S → T) (put : T → S → S) (m : M T A) : M S A :=
  fun s => let '(r, t) := m (get s) in (r, put t s).

Declare Scope py_scope.
Delimit Scope py_scope with py.
Notation "'let*' x ':=' m 'in' k" := (bind m (fun x => k))
  (at level 10, x name, m at level 100, k at level 200) : py_scope.
Notation "'do' m 'then' k" := (bind m (fun _ => k))
  (at level 10, m at level 100, k at level 200) : py_scope.
Local Open Scope py_scope.

(** ** Python strings *)

Module Py.

Definition LF : ascii := "010"%char.
Definition CR : ascii := "013"%char.

Definition is_char (c d : ascii) : bool := Ascii.eqb c d.

(** [str.isspace] on one character, which is also [\s] of [re] on [str]
    patterns: the code points below 256 that Unicode counts as white
    space. *)
Definition is_space (c : ascii) : bool :=
  let n := N_of_ascii c in
  ((9 <=? n) && (n <=? 13) || (28 <=? n) && (n <=? 32)
   || (n =? 133) || (n =? 160))%N.

(** [c in s] *)
Fixpoint contains (c : ascii) (s : string) : bool :=
  match s with
  | "" => false
  | String d r => is_char d c || contains c r
  end.

Fixpoint all_chars (p : ascii → bool) (s : string) : bool :=
  match s with
  | "" => true
  | String c r => p c && all_chars p r
  end.

Definition is_empty (s : string) : bool :=
  match s with "" => true | _ => false end.

(** [s.lstrip(chars)] and [s.rstrip(chars)], the characters to drop given
    as a predicate. *)
Fixpoint lstrip_by (p : ascii → bool) (s : string) : string :=
  match s with
  | "" => ""
  | String c r => if p c then lstrip_by p r else s
  end.

Fixpoint rstrip_by (p : ascii → bool) (s : string) : string :=
  match s with
  | "" => ""
  | String c r =>
      let r' := rstrip_by p r in
      if is_empty r' && p c then "" else String c r'
  end.

(** White space as [int] skips it around a literal.  [int] first turns
    the Unicode white space above code point 127 (here 133 and 160) into
    spaces and then skips what C's [isspace] takes: the code points 9 to
    13 and the space.  The separators 28 to 31, which [str.isspace]
    counts as white space, are not skipped: [int] raises on them. *)
Definition is_int_space (c : ascii) : bool :=
  let n := N_of_ascii c in
  ((9 <=? n) && (n <=? 13) || (n =? 32) || (n =? 133) || (n =? 160))%N.

Definition int_strip (s : string) : string :=
  rstrip_by is_int_space (lstrip_by is_int_space s).

(** [sep.join(l)] *)
Fixpoint join (sep : string) (l : list string) : string :=
  match l with
  | [] => ""
  | [x] => x
  | x :: r => x ++ sep ++ join sep r
  end.

(** The first space of [s] cuts it in two. *)
Fixpoint cut_space (s : string) : option (string * string) :=
  match s with
  | "" => None
  | String c r =>
      if is_char c " " then Some ("", r)
      else match cut_space r with
           | Some (a, b) => Some (String c a, b)
           | None => None
           end
  end.

(** [s.split(" ", maxsplit)] *)
Fixpoint split_space (maxsplit : nat) (s : string) : list string :=
  match maxsplit with
  | O => [s]
  | S n =>
      match cut_space s with
      | Some (a, b) => a :: split_space n b
      | None => [s]
      end
  end.

Definition digit_val (c : ascii) : option Z :=
  let n := N_of_ascii c in
  if ((48 <=? n) && (n <=? 57))%N then Some (Z.of_N n - 48) else None.

(** The digits of a decimal literal: one underscore may sit between two
    digits.  [prev] says that the previous character was a digit. *)
Fixpoint digits_go (acc : Z) (prev : bool) (s : string) : option Z :=
  match s with
  | "" => if prev then Some acc else None
  | String c r =>
      if is_char c "_" then (if prev then digits_go acc false r else None)
      else match digit_val c with
           | Some d => digits_go (10 * acc + d) true r
           | None => None
           end
  end.

(** [int(s)] for a [str] in base ten; [None] is [ValueError].  The white
    space of [is_int_space] around the literal is dropped, one sign may
    lead. *)
Definition int (s : string) : option Z :=
  match int_strip s with
  | String c r =>
      if is_char c "-" then Z.opp <$> digits_go 0 false r
      else if is_char c "+" then digits_go 0 false r
      else digits_go 0 false (String c r)
  | "" => None
  end.

(** [str(n)] for an [int]. *)
Definition str (n : Z) : string := NilZero.string_of_int (Z.to_int n).

(** [s < t] and [s > t] on [str]. *)
Definition lt (s t : string) : bool := String.ltb s t.
Definition gt (s t : string) : bool := String.ltb t s.

End Py.


(** ** storage.py: the append-only log *)

Module Storage.

Definition nl : string := String Py.LF "".

(** A record as [replay] yields it: [(op, key, arg)]. *)
Definition record : Type := string * string * string.

(** The log object.  [file] is the text stored at [path], [None] while no
    file exists there.  Decoding and read errors are outside the model:
    the text is what a successful read returns. *)
Record AppendOnlyLog : Type := mkLog {
  file : option string;
  max_key_len : option nat;
  max_value_len : option nat;
  strict : bool
}.

(** [AppendOnlyLog(path)] with the defaults of the keyword arguments. *)
Definition __init__ (f : option string) : AppendOnlyLog :=
  mkLog f None None false.

Definition with_file (f : option string) (self : AppendOnlyLog) : AppendOnlyLog :=
  mkLog f (max_key_len self) (max_value_len self) (strict self).

(** What is left of [s] before a line feed that ends it: [$] of [re]
    matches at the end of the text and also just before such a line
    feed. *)
Fixpoint before_final_lf (s : string) : string :=
  match s with
  | "" => ""
  | String c r =>
      match r with
      | "" => if Py.is_char c Py.LF then "" else s
      | _ => String c (before_final_lf r)
      end
  end.

(** [_KEY_RE.match(key)] for [_KEY_RE = re.compile(r"^\S+$")]. *)
Definition _KEY_RE_match (key : string) : bool :=
  let body := before_final_lf key in
  negb (Py.is_empty body) && Py.all_chars (fun c => negb (Py.is_space c)) body.

Definition longer_than (s : string) (limit : option nat) : bool :=
  match limit with
  | Some n => (n <? String.length s)%nat
  | None => false
  end.

Definition _validate_key_value_or_raise (key value : string) : M AppendOnlyLog unit :=
  fun self =>
    if negb (_KEY_RE_match key) then raise ValueError self
    else if Py.contains Py.LF value then raise ValueError self
    else if longer_than key (max_key_len self) then raise ValueError self
    else if longer_than value (max_value_len self) then raise ValueError self
    else ret tt self.

(** [open(path, "a")] creates the file when there is none. *)
Definition _append_line (line : string) : M AppendOnlyLog unit :=
  modify (fun self => with_file (Some (default "" (file self) ++ line)) self).

Definition append_set (key value : string) : M AppendOnlyLog unit :=
  do _validate_key_value_or_raise key value then
  _append_line ("SET " ++ key ++ " " ++ value ++ nl).

Definition append_del (key : string) : M AppendOnlyLog unit :=
  if negb (_KEY_RE_match key) then raise ValueError
  else _append_line ("DEL " ++ key ++ nl).

Definition append_expireat (key : string) (absolute_ms : Z) : M AppendOnlyLog unit :=
  if negb (_KEY_RE_match key) then raise ValueError
  else _append_line ("EXPIREAT " ++ key ++ " " ++ Py.str absolute_ms ++ nl).

Definition append_persist (key : string) : M AppendOnlyLog unit :=
  if negb (_KEY_RE_match key) then raise ValueError
  else _append_line ("PERSIST " ++ key ++ nl).

Definition limit_str (limit : option nat) : string :=
  match limit with
  | Some n => Py.str (Z.of_nat n)
  | None => "None"
  end.

(** [(ok, op, key, arg, reason)] *)
Definition _parse_and_validate (self : AppendOnlyLog) (line : string)
  : bool * string * string * string * string :=
  let bad (reason : string) := (false, "", "", "", reason) in
  let parts := Py.split_space 2 line in
  match parts with
  | [] => bad "empty line"
  | op :: _ =>
      if String.eqb op "SET" then
        match parts with
        | [_; key; value] =>
            if negb (_KEY_RE_match key) then
              bad "invalid key (contains whitespace or empty)"
            else if longer_than key (max_key_len self) then
              bad ("key too long (> " ++ limit_str (max_key_len self) ++ ")")
            else if longer_than value (max_value_len self) then
              bad ("value too long (> " ++ limit_str (max_value_len self) ++ ")")
            else (true, "SET", key, value, "")
        | _ => bad "SET malformed (expected 3 tokens)"
        end
      else if String.eqb op "DEL" || String.eqb op "PERSIST" then
        match parts with
        | [_; key] =>
            if negb (_KEY_RE_match key) then
              bad "invalid key (contains whitespace or empty)"
            else if longer_than key (max_key_len self) then
              bad ("key too long (> " ++ limit_str (max_key_len self) ++ ")")
            else (true, op, key, "", "")
        | _ => bad (op ++ " malformed (expected 2 tokens)")
        end
      else if String.eqb op "EXPIREAT" then
        match parts with
        | [_; key; ms_str] =>
            if negb (_KEY_RE_match key) then
              bad "invalid key (contains whitespace or empty)"
            else match Py.int ms_str with
                 | None => bad "EXPIREAT ms is not an integer"
                 | Some _ => (true, "EXPIREAT", key, ms_str, "")
                 end
        | _ => bad "EXPIREAT malformed (expected 3 tokens)"
        end
      else bad ("unsupported command '" ++ op ++ "'")
  end.

(** Iterating a text file opened with [newline=""]: a line ends after
    LF, after CR LF or after a CR alone, and keeps its terminator; the
    text after the last terminator is a line as well. *)
Fixpoint readlines (s : string) : list string :=
  match s with
  | "" => []
  | String c r =>
      if Py.is_char c Py.LF then String c "" :: readlines r
      else if Py.is_char c Py.CR then
        match r with
        | String c' r' =>
            if Py.is_char c' Py.LF then String c (String c' "") :: readlines r'
            else String c "" :: readlines r
        | "" => [String c ""]
        end
      else match readlines r with
           | [] => [String c ""]
           | l :: ls => String c l :: ls
           end
  end.

Fixpoint last_char (s : string) : option ascii :=
  match s with
  | "" => None
  | String c r => match r with "" => Some c | _ => last_char r end
  end.

(** The peek at the last character of the file, whose only effect is a
    WARNING on standard error.  The peek seeks to the last byte: when the
    last character takes two bytes the read fails and the failure is
    swallowed, with no warning. *)
Definition warns_unterminated (text : string) : bool :=
  match last_char text with
  | None => false
  | Some c => (N_of_ascii c <? 128)%N && negb (Py.is_char c Py.LF)
  end.

(** The body of the [for lineno, raw in enumerate(fh, start=1)] loop:
    the records yielded, then how the generator ends. *)
Fixpoint replay_lines (self : AppendOnlyLog) (lines : list string)
  : list record * Res unit :=
  match lines with
  | [] => ([], Ok tt)
  | raw :: rest =>
      let line := Py.rstrip_by (fun c => Py.is_char c Py.LF) raw in
      if Py.is_empty line then replay_lines self rest
      else match _parse_and_validate self line with
           | (true, op, key, arg, _) =>
               let '(recs, r) := replay_lines self rest in
               ((op, key, arg) :: recs, r)
           | (false, _, _, _, _) =>
               if strict self then ([], Raise ValueError)
               else replay_lines self rest
           end
  end.

Record Replay : Type := mkReplay {
  yielded : list record;
  ending : Res unit;
  warned : bool
}.

Definition replay (self : AppendOnlyLog) : Replay :=
  match file self with
  | None => mkReplay [] (Ok tt) false
  | Some text =>
      let '(recs, r) := replay_lines self (readlines text) in
      mkReplay recs r (warns_unterminated text)
  end.

(** The loop of [compact] over the items; [tmp] is the text written to
    the temporary file so far. *)
Fixpoint compact_write (items : list (string * string)) (tmp : string)
  : M AppendOnlyLog string :=
  match items with
  | [] => ret tmp
  | (k, v) :: rest =>
      do _validate_key_value_or_raise k v then
      compact_write rest (tmp ++ "SET " ++ k ++ " " ++ v ++ nl)
  end.

(** [os.replace] puts the temporary file in the place of the log file.
    The temporary file is a file at another path and no part of the
    state: an exception of the loop leaves the log file as it was. *)
Definition compact (items : list (string * string)) : M AppendOnlyLog unit :=
  let* text := compact_write items "" in
  modify (with_file (Some text)).

End Storage.

(** ** index.py: the ordered index *)

(** Modelled from the spec: [index.py], which holds [BPlusTreeIndex], is not
    among the sources; the engine uses its [set], [get] and [items].  The
    specification gives the contract: [set(key, value)] replaces or inserts
    the entry, [get(key)] returns the current value or absent, and the
    iteration produces the [(key, value)] pairs in ascending order of the
    keys.  Any ordered map satisfies it, so the index is a finite map and
    its iteration the sorted list of its entries. *)
Module Index.

Abbreviation BPlusTreeIndex := (gmap string string).

Definition empty : BPlusTreeIndex := ∅.

Definition set (key value : string) (idx : BPlusTreeIndex) : BPlusTreeIndex :=
  <[key := value]> idx.

Definition get (key : string) (idx : BPlusTreeIndex) : option string :=
  idx !! key.

Definition entry_le (p q : string * string) : Prop := String.le p.1 q.1.

#[global] Instance entry_le_dec : RelDecision entry_le.
Proof. intros p q. unfold entry_le. apply _. Defined.

Definition items (idx : BPlusTreeIndex) : list (string * string) :=
  merge_sort entry_le (map_to_list idx).

End Index.

(** ** engine.py: the liveness engine *)

Module Engine.

Record KVEngine : Type := mkKV {
  _index : gmap string string;
  _log : Storage.AppendOnlyLog;
  _tombstones : gset string;
  _ttl : gmap string Z
}.

Definition with_index (i : gmap string string) (s : KVEngine) : KVEngine :=
  mkKV i (_log s) (_tombstones s) (_ttl s).
Definition with_log (l : Storage.AppendOnlyLog) (s : KVEngine) : KVEngine :=
  mkKV (_index s) l (_tombstones s) (_ttl s).
Definition with_tombstones (t : gset string) (s : KVEngine) : KVEngine :=
  mkKV (_index s) (_log s) t (_ttl s).
Definition with_ttl (t : gmap string Z) (s : KVEngine) : KVEngine :=
  mkKV (_index s) (_log s) (_tombstones s) t.

(** [self._tombstones.add(key)], [self._tombstones.discard(key)],
    [self._ttl.pop(key, None)] and [self._ttl[key] = v]. *)
Definition tombstones_add (key : string) (s : KVEngine) : KVEngine :=
  with_tombstones ({[key]} ∪ _tombstones s) s.
Definition tombstones_discard (key : string) (s : KVEngine) : KVEngine :=
  with_tombstones (_tombstones s ∖ {[key]}) s.
Definition ttl_pop (key : string) (s : KVEngine) : KVEngine :=
  with_ttl (base.delete key (_ttl s)) s.
Definition ttl_store (key : string) (v : Z) (s : KVEngine) : KVEngine :=
  with_ttl (<[key := v]> (_ttl s)) s.
Definition index_set (key value : string) (s : KVEngine) : KVEngine :=
  with_index (Index.set key value (_index s)) s.

Definition is_lower_hex (c : ascii) : bool :=
  let n := N_of_ascii c in
  ((48 <=? n) && (n <=? 57) || (97 <=? n) && (n <=? 102))%N.

(** [n] characters, all of them in [0-9a-f], then the rest. *)
Fixpoint hex_group (n : nat) (s : string) : option string :=
  match n with
  | O => Some s
  | S m =>
      match s with
      | String c r => if is_lower_hex c then hex_group m r else None
      | "" => None
      end
  end.

Definition dash (s : string) : option string :=
  match s with
  | String c r => if Py.is_char c "-" then Some r else None
  | "" => None
  end.

(** Groups of [0-9a-f] of the given widths, one dash between two
    groups, and nothing after the last. *)
Fixpoint hex_groups (widths : list nat) (s : string) : bool :=
  match widths with
  | [] => Py.is_empty s
  | n :: ws =>
      match hex_group n s with
      | None => false
      | Some r =>
          match ws with
          | [] => Py.is_empty r
          | _ => match dash r with
                 | Some r' => hex_groups ws r'
                 | None => false
                 end
          end
      end
  end.

(** [_UUID_RE.match(key)] for the pattern of the class,
    [^[0-9a-f]{8}-[0-9a-f]{4}-[0-9a-f]{4}-[0-9a-f]{4}-[0-9a-f]{12}$]. *)
Definition _UUID_RE_match (key : string) : bool :=
  hex_groups [8; 4; 4; 4; 12]%nat (Storage.before_final_lf key).

(** The body of the loop of [_load_from_log]. *)
Definition apply_record (s : KVEngine) (r : Storage.record) : KVEngine :=
  let '(op, key, arg) := r in
  if String.eqb op "SET" then
    tombstones_discard key (index_set key arg s)
  else if String.eqb op "DEL" then
    ttl_pop key (tombstones_add key s)
  else if String.eqb op "EXPIREAT" then
    match Py.int arg with
    | None => s
    | Some abs_ms => ttl_store key abs_ms s
    end
  else if String.eqb op "PERSIST" then
    ttl_pop key s
  else s.

(** The records are applied as the generator yields them; when it ends
    with an exception, the exception leaves [_load_from_log] after the
    records before it were applied. *)
Definition _load_from_log : M KVEngine unit :=
  fun s =>
    let s0 := with_ttl ∅ (with_tombstones ∅ (with_index Index.empty s)) in
    let r := Storage.replay (_log s0) in
    (Storage.ending r, fold_left apply_record (Storage.yielded r) s0).

(** [KVEngine(db_path)], for the text [f] found at [db_path]. *)
Definition __init__ (f : option string) : Res unit * KVEngine :=
  _load_from_log (mkKV Index.empty (Storage.__init__ f) ∅ ∅).

(** Every caller passes [now_ms], so the parameter is not optional here. *)
Definition _is_expired (key : string) (now_ms : Z) : M KVEngine bool :=
  let* exp := gets (fun s => _ttl s !! key) in
  match exp with
  | None => ret false
  | Some exp =>
      if now_ms <? exp then ret false
      else
        do modify (ttl_pop key) then
        do modify (tombstones_add key) then
        ret true
  end.

Definition _is_alive (key : string) (now_ms : Z) : M KVEngine bool :=
  let* dead := gets (fun s => bool_decide (key ∈ _tombstones s)) in
  if dead then ret false
  else
    let* val := gets (fun s => Index.get key (_index s)) in
    match val with
    | None => ret false
    | Some _ =>
        let* expired := _is_expired key now_ms in
        if expired then ret false else ret true
    end.

Definition set (key value : string) : M KVEngine unit :=
  do zoom _log with_log (Storage.append_set key value) then
  do modify (index_set key value) then
  let* dead := gets (fun s => bool_decide (key ∈ _tombstones s)) in
  if dead then modify (tombstones_discard key) else ret tt.

Definition get (now : Z) (key : string) : M KVEngine (option string) :=
  let* alive := _is_alive key now in
  if negb alive then ret None
  else gets (fun s => Index.get key (_index s)).

Definition delete (now : Z) (key : string) : M KVEngine bool :=
  let* alive := _is_alive key now in
  if negb alive then
    do modify (ttl_pop key) then
    ret false
  else
    do modify (tombstones_add key) then
    do modify (ttl_pop key) then
    do zoom _log with_log (Storage.append_del key) then
    ret true.

Definition exists_ (now : Z) (key : string) : M KVEngine bool :=
  _is_alive key now.

Definition expire (now : Z) (key : string) (ms : Z) : M KVEngine bool :=
  let* alive := _is_alive key now in
  if negb alive then ret false
  else
    let deadline := now + ms in
    do modify (ttl_store key deadline) then
    do zoom _log with_log (Storage.append_expireat key deadline) then
    ret true.

Definition ttl (now : Z) (key : string) : M KVEngine Z :=
  let* alive := _is_alive key now in
  if negb alive then ret (-2)
  else
    let* exp := gets (fun s => _ttl s !! key) in
    match exp with
    | None => ret (-1)
    | Some exp =>
        if exp <=? now then
          do modify (ttl_pop key) then
          do modify (tombstones_add key) then
          ret (-2)
        else ret (exp - now)
    end.

Definition persist (now : Z) (key : string) : M KVEngine bool :=
  let* alive := _is_alive key now in
  if negb alive then ret false
  else
    let* has := gets (fun s => bool_decide (is_Some (_ttl s !! key))) in
    if negb has then ret false
    else
      do modify (ttl_pop key) then
      do zoom _log with_log (Storage.append_persist key) then
      ret true.

(** The test of [range_keys] for keys that RANGE hides. *)
Definition hidden (k : string) : bool :=
  Py.contains "-" k && (16 <? String.length k)%nat.

(** The loop of [range_keys] over [self._index.items()], the generator
    run to its end; the keys come out in the order of the iteration. *)
Fixpoint range_loop (now : Z) (start end_ : string)
    (entries : list (string * string)) : M KVEngine (list string) :=
  match entries with
  | [] => ret []
  | (k, _) :: rest =>
      if hidden k then range_loop now start end_ rest
      else if negb (Py.is_empty start) && Py.lt k start then
        range_loop now start end_ rest
      else if negb (Py.is_empty end_) && Py.gt k end_ then
        range_loop now start end_ rest
      else
        let* alive := _is_alive k now in
        let* ks := range_loop now start end_ rest in
        ret (if alive then k :: ks else ks)
  end.

Definition range_keys (now : Z) (start end_ : string) : M KVEngine (list string) :=
  let* entries := gets (fun s => Index.items (_index s)) in
  range_loop now start end_ entries.

End Engine.

(** ** main.py: the transaction overlay and its command handlers *)

Module Main.
Import Engine.

Definition MSG_OK : string := "OK".
Definition ERR_USAGE_SET : string := "ERR usage: SET <key> <value>".
Definition ERR_USAGE_DEL : string := "ERR usage: DEL <key>".
Definition ERR_USAGE_EXPIRE : string := "ERR usage: EXPIRE <key> <milliseconds>".
Definition ERR_USAGE_PERSIST : string := "ERR usage: PERSIST <key>".
Definition ERR_TX_NESTED : string := "ERR transaction already in progress".
Definition ERR_NO_TX : string := "ERR no transaction".
Definition ERR_VALUE_SINGLELINE : string := "ERR value must be a single line".

(** The state a handler works on: the engine [kv], the three globals of
    the overlay, the lines written to standard output, and the wall
    clock, whose [ticks]-th reading is [clock ticks]. *)
Record World : Type := mkWorld {
  kv : KVEngine;
  in_tx : bool;
  tx_buffer : gmap string (option string);
  tx_ops : list (string * list string);
  stdout : list string;
  clock : nat → Z;
  ticks : nat
}.

Definition with_kv (e : KVEngine) (w : World) : World :=
  mkWorld e (in_tx w) (tx_buffer w) (tx_ops w) (stdout w) (clock w) (ticks w).
Definition with_in_tx (b : bool) (w : World) : World :=
  mkWorld (kv w) b (tx_buffer w) (tx_ops w) (stdout w) (clock w) (ticks w).
Definition with_tx_buffer (b : gmap string (option string)) (w : World) : World :=
  mkWorld (kv w) (in_tx w) b (tx_ops w) (stdout w) (clock w) (ticks w).
Definition with_tx_ops (o : list (string * list string)) (w : World) : World :=
  mkWorld (kv w) (in_tx w) (tx_buffer w) o (stdout w) (clock w) (ticks w).
Definition with_stdout (o : list string) (w : World) : World :=
  mkWorld (kv w) (in_tx w) (tx_buffer w) (tx_ops w) o (clock w) (ticks w).
Definition with_ticks (n : nat) (w : World) : World :=
  mkWorld (kv w) (in_tx w) (tx_buffer w) (tx_ops w) (stdout w) (clock w) n.

Definition _print (line : string) : M World unit :=
  modify (fun w => with_stdout (stdout w ++ [line]) w).

(** [KVEngine._now_ms()] *)
Definition _now_ms : M World Z :=
  fun w => (Ok (clock w (ticks w)), with_ticks (S (ticks w)) w).

(** The methods of [kv] as the handlers call them. *)
Definition kv_set (key value : string) : M World unit :=
  zoom kv with_kv (Engine.set key value).
Definition kv_get (key : string) : M World (option string) :=
  let* now := _now_ms in zoom kv with_kv (Engine.get now key).
Definition kv_delete (key : string) : M World bool :=
  let* now := _now_ms in zoom kv with_kv (Engine.delete now key).
Definition kv_expire (key : string) (ms : Z) : M World bool :=
  let* now := _now_ms in zoom kv with_kv (Engine.expire now key ms).
Definition kv_persist (key : string) : M World bool :=
  let* now := _now_ms in zoom kv with_kv (Engine.persist now key).

(** [tx_buffer[key] = v] and [tx_ops.append(e)] *)
Definition buffer_store (key : string) (v : option string) (w : World) : World :=
  with_tx_buffer (<[key := v]> (tx_buffer w)) w.
Definition ops_append (e : string * list string) (w : World) : World :=
  with_tx_ops (tx_ops w ++ [e]) w.

Definition _tx_get_view (key : string) : M World (option string) :=
  let* pending := gets (fun w => tx_buffer w !! key) in
  match pending with
  | Some v => ret v
  | None => kv_get key
  end.

Definition _tx_exists_view (key : string) : M World bool :=
  let* v := _tx_get_view key in
  ret (bool_decide (is_Some v)).

Definition handle_set (args : list string) : M World unit :=
  match args with
  | key :: ((_ :: _) as rest) =>
      let value := Py.join " " rest in
      if Py.contains Py.LF value || Py.contains Py.CR value then
        _print ERR_VALUE_SINGLELINE
      else
        let* tx := gets in_tx in
        do (if tx then
              do modify (buffer_store key (Some value)) then
              modify (ops_append ("SET", [key; value]))
            else kv_set key value) then
        _print MSG_OK
  | _ => _print ERR_USAGE_SET
  end.

Definition bit (b : bool) : string := if b then "1" else "0".

Definition handle_del (args : list string) : M World unit :=
  match args with
  | [key] =>
      let* tx := gets in_tx in
      if tx then
        let* existed := _tx_exists_view key in
        do (if existed then
              do modify (buffer_store key None) then
              modify (ops_append ("DEL", [key]))
            else ret tt) then
        _print (bit existed)
      else
        let* removed := kv_delete key in
        _print (bit removed)
  | _ => _print ERR_USAGE_DEL
  end.

Definition handle_expire (args : list string) : M World unit :=
  match args with
  | [key; ms_arg] =>
      match Py.int ms_arg with
      | None => _print ERR_USAGE_EXPIRE
      | Some ms =>
          let* tx := gets in_tx in
          if tx then
            let* visible := _tx_exists_view key in
            if negb visible then _print "0"
            else
              do modify (ops_append ("EXPIRE", [key; Py.str ms])) then
              _print "1"
          else
            let* ok := kv_expire key ms in
            _print (bit ok)
      end
  | _ => _print ERR_USAGE_EXPIRE
  end.

Definition handle_persist (args : list string) : M World unit :=
  match args with
  | [key] =>
      let* tx := gets in_tx in
      if tx then
        let* visible := _tx_exists_view key in
        if negb visible then _print "0"
        else
          do modify (ops_append ("PERSIST", [key])) then
          _print "1"
      else
        let* ok := kv_persist key in
        _print (bit ok)
  | _ => _print ERR_USAGE_PERSIST
  end.

Definition handle_begin (args : list string) : M World unit :=
  let* tx := gets in_tx in
  if tx then _print ERR_TX_NESTED
  else
    do modify (with_in_tx true) then
    do modify (with_tx_buffer ∅) then
    do modify (with_tx_ops []) then
    _print MSG_OK.

(** The body of the loop of [handle_commit].  Unpacking a list of the
    wrong length raises [ValueError], indexing an empty one
    [IndexError]. *)
Definition commit_op (e : string * list string) : M World unit :=
  let '(op, op_args) := e in
  if String.eqb op "SET" then
    match op_args with
    | [key; value] => kv_set key value
    | _ => raise ValueError
    end
  else if String.eqb op "DEL" then
    match op_args with
    | key :: _ => do kv_delete key then ret tt
    | [] => raise IndexError
    end
  else if String.eqb op "EXPIRE" then
    match op_args with
    | [key; ms_str] =>
        match Py.int ms_str with
        | None => ret tt
        | Some ms => do kv_expire key ms then ret tt
        end
    | _ => raise ValueError
    end
  else if String.eqb op "PERSIST" then
    match op_args with
    | key :: _ => do kv_persist key then ret tt
    | [] => raise IndexError
    end
  else ret tt.

Fixpoint commit_loop (ops : list (string * list string)) : M World unit :=
  match ops with
  | [] => ret tt
  | e :: rest => do commit_op e then commit_loop rest
  end.

Definition handle_commit (args : list string) : M World unit :=
  let* tx := gets in_tx in
  if negb tx then _print ERR_NO_TX
  else
    let* ops := gets tx_ops in
    do commit_loop ops then
    do modify (with_in_tx false) then
    do modify (with_tx_buffer ∅) then
    do modify (with_tx_ops []) then
    _print MSG_OK.

Definition handle_abort (args : list string) : M World unit :=
  let* tx := gets in_tx in
  if negb tx then _print ERR_NO_TX
  else
    do modify (with_in_tx false) then
    do modify (with_tx_buffer ∅) then
    do modify (with_tx_ops []) then
    _print MSG_OK.

(** *** The read handlers, MSET and RANGE *)

Definition ERR_USAGE_GET : string := "ERR usage: GET <key>".
Definition ERR_USAGE_EXISTS : string := "ERR usage: EXISTS <key>".
Definition ERR_USAGE_MSET : string := "ERR usage: MSET <k1> <v1> [<k2> <v2> ...]".
Definition ERR_USAGE_MGET : string := "ERR usage: MGET <k1> [<k2> ...]".
Definition ERR_USAGE_TTL : string := "ERR usage: TTL <key>".
Definition ERR_USAGE_RANGE : string := "ERR usage: RANGE <start> <end>".

Definition kv_exists (key : string) : M World bool :=
  let* now := _now_ms in zoom kv with_kv (Engine.exists_ now key).
Definition kv_ttl (key : string) : M World Z :=
  let* now := _now_ms in zoom kv with_kv (Engine.ttl now key).
Definition kv_range_keys (start end_ : string) : M World (list string) :=
  let* now := _now_ms in zoom kv with_kv (Engine.range_keys now start end_).

(** ["nil" if val is None else val] *)
Definition shown_value (val : option string) : string :=
  match val with
  | None => "nil"
  | Some v => v
  end.

Definition handle_get (args : list string) : M World unit :=
  match args with
  | [key] =>
      let* tx := gets in_tx in
      let* val := (if tx then _tx_get_view key else kv_get key) in
      _print (shown_value val)
  | _ => _print ERR_USAGE_GET
  end.

Definition handle_exists (args : list string) : M World unit :=
  match args with
  | [key] =>
      let* tx := gets in_tx in
      let* present := (if tx then _tx_exists_view key else kv_exists key) in
      _print (bit present)
  | _ => _print ERR_USAGE_EXISTS
  end.

(** The loop of [handle_mset] over the pairs; [false] when it returned
    from the handler on a value of several lines. *)
Fixpoint mset_loop (args : list string) : M World bool :=
  match args with
  | key :: value :: rest =>
      if Py.contains Py.LF value || Py.contains Py.CR value then
        do _print ERR_VALUE_SINGLELINE then
        ret false
      else
        let* tx := gets in_tx in
        do (if tx then
              do modify (buffer_store key (Some value)) then
              modify (ops_append ("SET", [key; value]))
            else kv_set key value) then
        mset_loop rest
  | _ => ret true
  end.

Definition handle_mset (args : list string) : M World unit :=
  if (length args <? 2)%nat || negb (Nat.even (length args)) then
    _print ERR_USAGE_MSET
  else
    let* finished := mset_loop args in
    if finished then _print MSG_OK else ret tt.

Fixpoint mget_loop (args : list string) : M World unit :=
  match args with
  | [] => ret tt
  | key :: rest =>
      let* tx := gets in_tx in
      let* val := (if tx then _tx_get_view key else kv_get key) in
      do _print (shown_value val) then
      mget_loop rest
  end.

Definition handle_mget (args : list string) : M World unit :=
  match args with
  | [] => _print ERR_USAGE_MGET
  | _ => mget_loop args
  end.

Definition handle_ttl (args : list string) : M World unit :=
  match args with
  | [key] =>
      let* val := kv_ttl key in
      _print (Py.str val)
  | _ => _print ERR_USAGE_TTL
  end.

Fixpoint print_all (lines : list string) : M World unit :=
  match lines with
  | [] => ret tt
  | l :: rest => do _print l then print_all rest
  end.

(** [in_range] of [handle_range] *)
Definition in_range (start end_ k : string) : bool :=
  if negb (Py.is_empty start) && Py.lt k start then false
  else if negb (Py.is_empty end_) && Py.gt k end_ then false
  else true.

(** The body of the loop over [tx_buffer.items()]. *)
Definition overlay_entry (start end_ : string) (keys_set : gset string)
    (e : string * option string) : gset string :=
  match e.2 with
  | None => keys_set ∖ {[e.1]}
  | Some _ => if in_range start end_ e.1 then {[e.1]} ∪ keys_set else keys_set
  end.

(** [sorted(keys_set)] *)
Definition sorted (keys_set : gset string) : list string :=
  merge_sort String.le (elements keys_set).

(** The dictionary is iterated in some order of its entries; the set the
    loop builds does not depend on it, no key occurring twice. *)
Definition handle_range (args : list string) : M World unit :=
  match args with
  | [start; end_] =>
      let* tx := gets in_tx in
      if negb tx then
        let* ks := kv_range_keys start end_ in
        do print_all ks then
        _print "END"
      else
        let* base_keys := kv_range_keys start end_ in
        let* pending := gets (fun w => map_to_list (tx_buffer w)) in
        let keys_set :=
          fold_left (overlay_entry start end_) pending (list_to_set base_keys) in
        do print_all (sorted keys_set) then
        _print "END"
  | _ => _print ERR_USAGE_RANGE
  end.

(** *** The dispatch table and the loop of [main] *)

Definition ERR_UNKNOWN_CMD : string := "ERR unknown command".
Definition ERR_INTERNAL : string := "ERR internal".

Definition Handler : Type := list string → M World (option string).

Definition handle_exit : Handler := fun _ => ret (Some "EXIT").

(** A handler that ends without a [return] value gives [None]. *)
Definition returns_none (h : list string → M World unit) : Handler :=
  fun args => do h args then ret None.

Definition DISPATCH : list (string * Handler) :=
  [ ("SET", returns_none handle_set);
    ("GET", returns_none handle_get);
    ("DEL", returns_none handle_del);
    ("EXISTS", returns_none handle_exists);
    ("MSET", returns_none handle_mset);
    ("MGET", returns_none handle_mget);
    ("EXPIRE", returns_none handle_expire);
    ("TTL", returns_none handle_ttl);
    ("PERSIST", returns_none handle_persist);
    ("RANGE", returns_none handle_range);
    ("BEGIN", returns_none handle_begin);
    ("COMMIT", returns_none handle_commit);
    ("ABORT", returns_none handle_abort);
    ("EXIT", handle_exit) ].

(** [DISPATCH.get(cmd)] *)
Fixpoint DISPATCH_get (table : list (string * Handler)) (cmd : string)
  : option Handler :=
  match table with
  | [] => None
  | (name, h) :: rest => if String.eqb cmd name then Some h else DISPATCH_get rest cmd
  end.

(** One turn of the loop of [main], from the lookup in [DISPATCH] on:
    [cmd] is the upper-cased first token of the line and [args] are the
    other tokens.  The answer is [true] when [main] returns.  Both
    exceptions of [exn] are caught by [except Exception]. *)
Definition main_turn (cmd : string) (args : list string) : M World bool :=
  fun w =>
    match DISPATCH_get DISPATCH cmd with
    | None => (do _print ERR_UNKNOWN_CMD then ret false) w
    | Some handler =>
        match handler args w with
        | (Ok result, w') => (Ok (bool_decide (result = Some "EXIT")), w')
        | (Raise _, w') => (do _print ERR_INTERNAL then ret false) w'
        end
    end.

End Main.

(** * Properties *)

(** ** Auxiliary definitions of the statements *)

Module Spec.
Import Engine.

(** The liveness predicate of the specification: not tombstoned, held by
    the index, and any deadline strictly after [now]. *)
Definition live (now : Z) (key : string) (s : KVEngine) : Prop :=
  (key ∉ _tombstones s)
  ∧ is_Some (_index s !! key)
  ∧ (∀ e, _ttl s !! key = Some e → now < e).

#[global] Instance live_dec now key s : Decision (live now key s).
Proof.
  unfold live.
  destruct (decide (key ∈ _tombstones s)) as [Ht|Ht]; [right; tauto|].
  destruct (_index s !! key) as [v|];
    [|right; intros (_ & [? ?] & _); discriminate].
  destruct (_ttl s !! key) as [e|].
  - destruct (decide (now < e)) as [Hl|Hl].
    + left. split; [done|]. split; [eauto|]. intros ? [= <-]. done.
    + right. intros (_ & _ & H). apply Hl, H. done.
  - left. split; [done|]. split; [eauto|]. intros ? [=].
Defined.

(** The state after [key] was found expired: its deadline dropped and the
    key tombstoned. *)
Definition expired_state (key : string) (s : KVEngine) : KVEngine :=
  mkKV (_index s) (_log s) ({[key]} ∪ _tombstones s) (base.delete key (_ttl s)).

(** Recovery from the records [recs] of the log [lg], as
    [_load_from_log] runs it. *)
Definition recover (lg : Storage.AppendOnlyLog) (recs : list Storage.record) : KVEngine :=
  fold_left apply_record recs (mkKV ∅ lg ∅ ∅).

(** What the engine holds for one key: its entry in the index, whether it
    is tombstoned, and its deadline. *)
Definition key_state (k : string) (s : KVEngine) : option string * bool * option Z :=
  (_index s !! k, bool_decide (k ∈ _tombstones s), _ttl s !! k).

Definition for_key (k : string) (r : Storage.record) : Prop := r.1.2 = k.

#[global] Instance for_key_dec k r : Decision (for_key k r).
Proof. unfold for_key. apply _. Defined.

(** The checks of [_validate_key_value_or_raise] all pass. *)
Definition valid_set (lg : Storage.AppendOnlyLog) (key value : string) : bool :=
  Storage._KEY_RE_match key
  && negb (Py.contains Py.LF value)
  && negb (Storage.longer_than key (Storage.max_key_len lg))
  && negb (Storage.longer_than value (Storage.max_value_len lg)).

(** The log of the engine has no length limits, as [KVEngine.__init__]
    builds it. *)
Definition default_log (s : KVEngine) : Prop :=
  Storage.max_key_len (_log s) = None ∧ Storage.max_value_len (_log s) = None.

(** The scenario of the specification for SET after DEL, the deletion at
    the time [now]. *)
Definition set_set_delete_set (now : Z) : M KVEngine bool :=
  do set "a" "1" then
  do set "a" "2" then
  let* removed := delete now "a" in
  do set "a" "3" then
  ret removed.

(** The scenario of the specification for a deadline in the past. *)
Definition set_expire (now : Z) : M KVEngine bool :=
  do set "a" "1" then
  expire now "a" (-5).

(** The claim that [delete] on a key that is not live changes nothing
    beyond what the liveness check itself changes. *)
Definition dead_delete_is_noop (now : Z) (key : string) (s : KVEngine) : Prop :=
  ¬ live now key s →
  delete now key s = (Ok false, snd (_is_alive key now s)).

(** No deadline is held for a key that is tombstoned or that the index
    does not hold. *)
Definition ttl_consistent (s : KVEngine) : Prop :=
  ∀ k, is_Some (_ttl s !! k) → (k ∉ _tombstones s) ∧ is_Some (_index s !! k).

(** An engine recovered from a log that holds a deadline for a key never
    set. *)
Definition ghost_engine : KVEngine :=
  snd (__init__ (Some ("EXPIREAT ghost 5" ++ Storage.nl))).

(** A log whose last line was cut before its terminator. *)
Definition torn_log : Storage.AppendOnlyLog :=
  Storage.__init__ (Some ("SET a 1" ++ Storage.nl ++ "SET b 2")).

(** An engine that holds one key, which has dashes and more than sixteen
    characters and is no UUID. *)
Definition dashed_engine : KVEngine :=
  snd (set "user-profile-settings" "x" (snd (__init__ None))).

(** A call of a public operation of the engine. *)
Inductive Call : Type :=
| CallSet (key value : string)
| CallGet (key : string)
| CallDelete (key : string)
| CallExists (key : string)
| CallExpire (key : string) (ms : Z)
| CallTtl (key : string)
| CallPersist (key : string)
| CallRange (start end_ : string).

(** The state a call leaves, the clock reading [now]; an exception leaves
    the state it was raised in. *)
Definition after (now : Z) (c : Call) (s : KVEngine) : KVEngine :=
  match c with
  | CallSet key value => snd (set key value s)
  | CallGet key => snd (get now key s)
  | CallDelete key => snd (delete now key s)
  | CallExists key => snd (exists_ now key s)
  | CallExpire key ms => snd (expire now key ms s)
  | CallTtl key => snd (ttl now key s)
  | CallPersist key => snd (persist now key s)
  | CallRange start end_ => snd (range_keys now start end_ s)
  end.

(** The states reached from an engine that holds nothing, over any log
    object, by calls at any times. *)
Inductive reachable : KVEngine → Prop :=
| reach_empty (lg : Storage.AppendOnlyLog) : reachable (mkKV ∅ lg ∅ ∅)
| reach_call (s : KVEngine) (now : Z) (c : Call) :
    reachable s → reachable (after now c s).

Definition nonspace (c : ascii) : bool := negb (Py.is_space c).

(** The engine of a fresh store after four calls. *)
Definition four_calls : KVEngine :=
  after 9 (CallGet "b")
    (after 2 (CallExpire "a" 50)
       (after 1 (CallSet "b" "2")
          (after 0 (CallSet "a" "1") (mkKV ∅ (Storage.__init__ None) ∅ ∅)))).

(** Within the bounds of a RANGE, the empty string standing for no
    bound. *)
Definition in_bounds (start end_ k : string) : Prop :=
  (start = "" ∨ String.le start k) ∧ (end_ = "" ∨ String.le k end_).

(** The three tests of the loop of [range_keys] that come before the
    liveness check all let the key through. *)
Definition shown (start end_ k : string) : bool :=
  negb (hidden k)
  && negb (negb (Py.is_empty start) && Py.lt k start)
  && negb (negb (Py.is_empty end_) && Py.gt k end_).

End Spec.

Module TxSpec.
Import Engine Main Spec.

(** A write-like operation as a client issues it. *)
Inductive TxOp : Type :=
| TxSet (key value : string)
| TxDel (key : string)
| TxExpire (key : string) (ms : Z)
| TxPersist (key : string).

Definition tx_key (o : TxOp) : string :=
  match o with
  | TxSet key _ | TxDel key | TxExpire key _ | TxPersist key => key
  end.

(** The command line of an operation, handed to its handler. *)
Definition issue (o : TxOp) : M World unit :=
  match o with
  | TxSet key value => handle_set [key; value]
  | TxDel key => handle_del [key]
  | TxExpire key ms => handle_expire [key; Py.str ms]
  | TxPersist key => handle_persist [key]
  end.

Fixpoint issue_all (ops : list TxOp) : M World unit :=
  match ops with
  | [] => ret tt
  | o :: rest => do issue o then issue_all rest
  end.

(** The entry of [tx_ops] that stands for an operation. *)
Definition encode (o : TxOp) : string * list string :=
  match o with
  | TxSet key value => ("SET", [key; value])
  | TxDel key => ("DEL", [key])
  | TxExpire key ms => ("EXPIRE", [key; Py.str ms])
  | TxPersist key => ("PERSIST", [key])
  end.

(** What the specification asks of [commit]: each operation is handed to
    the method of the engine that the handlers call outside a
    transaction, one after the other. *)
Definition apply_op (o : TxOp) : M World unit :=
  match o with
  | TxSet key value => kv_set key value
  | TxDel key => do kv_delete key then ret tt
  | TxExpire key ms => do kv_expire key ms then ret tt
  | TxPersist key => do kv_persist key then ret tt
  end.

Fixpoint apply_in_order (ops : list TxOp) : M World unit :=
  match ops with
  | [] => ret tt
  | o :: rest => do apply_op o then apply_in_order rest
  end.

(** Back to Idle: the buffer and the op-log emptied, [line] printed. *)
Definition idle_after (line : string) (w : World) : World :=
  mkWorld (kv w) false ∅ [] (stdout w ++ [line]) (clock w) (ticks w).

Definition printed (line : string) (w : World) : World :=
  with_stdout (stdout w ++ [line]) w.

Definition key_ok (o : TxOp) : Prop :=
  Storage._KEY_RE_match (tx_key o) = true.

Definition value_ok (o : TxOp) : Prop :=
  match o with
  | TxSet _ value => Py.contains Py.LF value = false
  | _ => True
  end.

(** The transaction view holds a value for [key] in the state [w]: a
    pending value, or no pending entry and a key that is live in the
    engine at the next reading of the clock. *)
Definition visible (key : string) (w : World) : bool :=
  match tx_buffer w !! key with
  | Some pending => bool_decide (is_Some pending)
  | None => bool_decide (live (clock w (ticks w)) key (kv w))
  end.

(** Which operations a transaction buffers: a SET whose value has no
    line feed and no carriage return, and a DEL, EXPIRE or PERSIST of a
    key for which the transaction view holds a value. *)
Definition recorded (o : TxOp) (w : World) : bool :=
  match o with
  | TxSet _ value => negb (Py.contains Py.LF value || Py.contains Py.CR value)
  | TxDel key | TxExpire key _ | TxPersist key => visible key w
  end.

(** The operations of [cmds] that are buffered when they are issued one
    after the other from the state [w], in the order of issuance. *)
Fixpoint op_log (cmds : list TxOp) (w : World) : list TxOp :=
  match cmds with
  | [] => []
  | o :: rest =>
      (if recorded o w then [o] else []) ++ op_log rest (snd (issue o w))
  end.

(** The line a write-like operation answers inside a transaction. *)
Definition answer (o : TxOp) (w : World) : string :=
  match o with
  | TxSet _ _ => if recorded o w then MSG_OK else ERR_VALUE_SINGLELINE
  | _ => bit (recorded o w)
  end.

End TxSpec.

Module LogSpec.
Import Storage.

(** A character that ends no line. *)
Definition inline (c : ascii) : bool :=
  negb (Py.is_char c Py.LF) && negb (Py.is_char c Py.CR).

(** A text without line feed and carriage return. *)
Definition one_line (s : string) : bool := Py.all_chars inline s.

(** A key as the log format wants it: not empty and free of white
    space. *)
Definition clean_key (key : string) : bool :=
  negb (Py.is_empty key) && Py.all_chars Spec.nonspace key.

(** The file is absent, empty, or ends with a line feed. *)
Definition complete (f : option string) : Prop :=
  match f with
  | None => True
  | Some text => text = "" ∨ last_char text = Some Py.LF
  end.

(** The line of a record, without its terminator. *)
Definition line_of (r : record) : string :=
  let '(op, key, arg) := r in
  if String.eqb op "SET" then "SET " ++ key ++ " " ++ arg
  else if String.eqb op "EXPIREAT" then "EXPIREAT " ++ key ++ " " ++ arg
  else op ++ " " ++ key.

(** A record as one of the four appends writes it. *)
Inductive written : record → Prop :=
| written_set key value :
    clean_key key = true → one_line value = true →
    written ("SET", key, value)
| written_del key :
    clean_key key = true → written ("DEL", key, "")
| written_expireat key abs_ms :
    clean_key key = true → written ("EXPIREAT", key, Py.str abs_ms)
| written_persist key :
    clean_key key = true → written ("PERSIST", key, "").

(** The log has no length limits. *)
Definition unlimited (self : AppendOnlyLog) : Prop :=
  max_key_len self = None ∧ max_value_len self = None.

(** The append [m] succeeds on [lg], and a replay of the log it leaves
    yields the records of [lg] and then [r], ends without exception and
    without warning, and the file is left complete. *)
Definition reads_back (lg : AppendOnlyLog) (m : M AppendOnlyLog unit)
    (r : record) : Prop :=
  fst (m lg) = Ok tt
  ∧ replay (snd (m lg)) = mkReplay (yielded (replay lg) ++ [r]) (Ok tt) false
  ∧ complete (file (snd (m lg))).

(** What [_parse_and_validate] lets through. *)
Definition well_formed (r : record) : Prop :=
  let '(op, key, arg) := r in
  _KEY_RE_match key = true
  ∧ (op = "SET"
     ∨ (op = "DEL" ∧ arg = "")
     ∨ (op = "EXPIREAT" ∧ is_Some (Py.int arg))
     ∨ (op = "PERSIST" ∧ arg = "")).

(** An item that [compact] accepts when the log has no length limits. *)
Definition item_ok (p : string * string) : Prop :=
  clean_key p.1 = true ∧ one_line p.2 = true.

(** The SET records of the items, in their order. *)
Definition set_records (items : list (string * string)) : list record :=
  (λ p, ("SET", p.1, p.2)) <$> items.

End LogSpec.

Module EngineSpec.
Import Engine Spec LogSpec.

(** The calls that only read. *)
Definition is_read (c : Call) : bool :=
  match c with
  | CallGet _ | CallExists _ | CallTtl _ | CallRange _ _ => true
  | _ => false
  end.

(** The call is no [set] of [key]. *)
Definition no_set_of (key : string) (c : Call) : Prop :=
  match c with
  | CallSet k _ => k ≠ key
  | _ => True
  end.

(** The text of the log file, empty while there is no file. *)
Definition log_text (s : KVEngine) : string :=
  default "" (Storage.file (_log s)).

(** From [s] to [s'] the log file has kept its text and gained text at
    its end, if anything, and the log has kept its configuration. *)
Definition log_grown (s s' : KVEngine) : Prop :=
  (∃ added, log_text s' = log_text s ++ added)
  ∧ Storage.max_key_len (_log s') = Storage.max_key_len (_log s)
  ∧ Storage.max_value_len (_log s') = Storage.max_value_len (_log s)
  ∧ Storage.strict (_log s') = Storage.strict (_log s).

(** No deadline of the TTL table has elapsed at [now]. *)
Definition no_elapsed (now : Z) (s : KVEngine) : Prop :=
  ∀ k e, _ttl s !! k = Some e → now < e.

(** Loading the engine again from its log gives the state it is in. *)
Definition synced (s : KVEngine) : Prop :=
  _load_from_log s = (Ok tt, s).

(** The arguments of the call fit the log format: the key is not empty
    and free of white space, the value of a [set] free of line feed and
    carriage return. *)
Definition call_clean (c : Call) : Prop :=
  match c with
  | CallSet key value => clean_key key = true ∧ one_line value = true
  | CallGet key | CallDelete key | CallExists key | CallTtl key
  | CallPersist key | CallExpire key _ => clean_key key = true
  | CallRange _ _ => True
  end.

(** The engine that a restart builds from the log file of [s]. *)
Definition restarted (s : KVEngine) : KVEngine :=
  snd (__init__ (Storage.file (_log s))).

(** Set, give a deadline, read once the deadline has passed, set again. *)
Definition set_expire_get_set (key value value' : string) (now1 ms now2 : Z)
  : M KVEngine unit :=
  do set key value then
  do expire now1 key ms then
  do get now2 key then
  set key value'.

End EngineSpec.

Module OverlaySpec.
Import Engine Main Spec LogSpec EngineSpec TxSpec.

(** [begin(); set(key, value); commit()] *)
Definition begin_set_commit (key value : string) : M World unit :=
  do handle_begin [] then
  do handle_set [key; value] then
  handle_commit [].

(** The arguments of an MSET of the pairs. *)
Fixpoint mset_args (pairs : list (string * string)) : list string :=
  match pairs with
  | [] => []
  | (key, value) :: rest => key :: value :: mset_args rest
  end.

(** [kv.set] on each pair in turn. *)
Fixpoint set_each (pairs : list (string * string)) : M World unit :=
  match pairs with
  | [] => ret tt
  | (key, value) :: rest => do kv_set key value then set_each rest
  end.

(** A pair that [kv.set] accepts when the log has no length limits. *)
Definition pair_ok (p : string * string) : Prop :=
  Storage._KEY_RE_match p.1 = true ∧ one_line p.2 = true.

(** What RANGE lists for [k] inside a transaction: a key with a pending
    value within the bounds, or a key that the engine lists and that has
    no pending deletion. *)
Definition listed_in_tx (w : World) (start end_ k : string) : Prop :=
  ((∃ v, tx_buffer w !! k = Some (Some v)) ∧ in_bounds start end_ k)
  ∨ (tx_buffer w !! k ≠ Some None
     ∧ live (clock w (ticks w)) k (kv w)
     ∧ in_bounds start end_ k
     ∧ hidden k = false).

(** From [w] to [w'] the engine has kept its log and its index, and the
    transaction is open in both or in neither. *)
Definition tx_frame (w w' : World) : Prop :=
  _log (kv w') = _log (kv w)
  ∧ _index (kv w') = _index (kv w)
  ∧ in_tx w' = in_tx w.

(** Run inside a transaction, [m] keeps the frame. *)
Definition quiet {A} (m : M World A) : Prop :=
  ∀ w, in_tx w = true → tx_frame w (snd (m w)).

End OverlaySpec.

(** ** Tactics *)

Ltac unfold_m :=
  unfold bind, ret, raise, gets, modify, zoom in *.

Ltac unfold_engine :=
  unfold Engine._is_alive, Engine._is_expired, Engine.tombstones_add,
    Engine.tombstones_discard, Engine.ttl_pop, Engine.ttl_store,
    Engine.index_set, Engine.with_index, Engine.with_log,
    Engine.with_tombstones, Engine.with_ttl, Index.get, Index.set in *.

(** ** The liveness check *)

Section liveness.
Import Engine Spec.

Lemma _is_expired_eq key now s :
  _is_expired key now s =
    match _ttl s !! key with
    | Some e => if now <? e then (Ok false, s) else (Ok true, expired_state key s)
    | None => (Ok false, s)
    end.
Proof.
  unfold _is_expired, expired_state. unfold_m.
  destruct (_ttl s !! key) as [e|]; [|done].
  destruct (now <? e); done.
Qed.

Lemma _is_alive_eq key now s :
  _is_alive key now s =
    if bool_decide (key ∈ _tombstones s) then (Ok false, s)
    else match _index s !! key with
         | None => (Ok false, s)
         | Some _ =>
             match _ttl s !! key with
             | Some e => if now <? e then (Ok true, s) else (Ok false, expired_state key s)
             | None => (Ok true, s)
             end
         end.
Proof.
  unfold _is_alive. unfold_m. unfold Index.get.
  destruct (bool_decide (key ∈ _tombstones s)); [done|].
  destruct (_index s !! key); [|done].
  pose proof (_is_expired_eq key now s) as E. unfold_m. rewrite E.
  destruct (_ttl s !! key) as [e|]; [|done].
  destruct (now <? e); done.
Qed.

Lemma _is_alive_live key now s :
  live now key s → _is_alive key now s = (Ok true, s).
Proof.
  intros (Ht & [v Hv] & He). rewrite _is_alive_eq.
  rewrite bool_decide_eq_false_2 by done. rewrite Hv.
  destruct (_ttl s !! key) as [e|] eqn:E; [|done].
  specialize (He e eq_refl). apply Z.ltb_lt in He. by rewrite He.
Qed.

Lemma _is_alive_dead key now s :
  ¬ live now key s →
  _is_alive key now s =
    (Ok false,
     if bool_decide ((key ∉ _tombstones s) ∧ is_Some (_index s !! key)
                     ∧ is_Some (_ttl s !! key))
     then expired_state key s else s).
Proof.
  intros Hd. rewrite _is_alive_eq.
  destruct (decide (key ∈ _tombstones s)) as [Ht|Ht].
  { rewrite bool_decide_eq_true_2 by done.
    rewrite bool_decide_eq_false_2; [done|]. tauto. }
  rewrite bool_decide_eq_false_2 by done.
  destruct (_index s !! key) as [v|] eqn:Ei.
  2:{ rewrite bool_decide_eq_false_2; [done|]. intros (_ & [? ?] & _). done. }
  destruct (_ttl s !! key) as [e|] eqn:Et.
  - rewrite bool_decide_eq_true_2 by eauto.
    destruct (now <? e) eqn:El; [|done].
    exfalso. apply Hd. split; [done|]. split; [eauto|].
    intros e' ?. simplify_eq. by apply Z.ltb_lt.
  - exfalso. apply Hd. split; [done|]. split; [eauto|]. intros ? ?. simplify_eq.
Qed.

(** C1.  The liveness check never fails and answers true exactly for
    the keys that are not tombstoned, that the index holds and whose
    deadline, if they have one, lies strictly after the current time.
    Whenever the check comes upon a deadline at or before the current
    time, it drops the deadline, tombstones the key and answers false;
    in every other case it leaves the engine as it was. *)
Theorem liveness_check (key : string) (now : Z) (s : KVEngine) :
  (∃ b, fst (_is_alive key now s) = Ok b ∧ (b = true ↔ live now key s))
  ∧ (∀ e, _ttl s !! key = Some e → e ≤ now →
       fst (_is_expired key now s) = Ok true
       ∧ _ttl (snd (_is_expired key now s)) = base.delete key (_ttl s)
       ∧ _tombstones (snd (_is_expired key now s)) = {[key]} ∪ _tombstones s
       ∧ _index (snd (_is_expired key now s)) = _index s
       ∧ _log (snd (_is_expired key now s)) = _log s)
  ∧ (∀ e, (key ∉ _tombstones s) → is_Some (_index s !! key) →
       _ttl s !! key = Some e → e ≤ now →
       fst (_is_alive key now s) = Ok false
       ∧ _ttl (snd (_is_alive key now s)) = base.delete key (_ttl s)
       ∧ _tombstones (snd (_is_alive key now s)) = {[key]} ∪ _tombstones s
       ∧ _index (snd (_is_alive key now s)) = _index s
       ∧ _log (snd (_is_alive key now s)) = _log s)
  ∧ (¬ ((key ∉ _tombstones s) ∧ is_Some (_index s !! key)
        ∧ (∃ e, _ttl s !! key = Some e ∧ e ≤ now)) →
     snd (_is_alive key now s) = s)
  ∧ exists_ now key s = _is_alive key now s.
Proof.
  split; [|split; [|split; [|split]]].
  - destruct (decide (live now key s)) as [Hl|Hd].
    + exists true. rewrite _is_alive_live by done. done.
    + exists false. rewrite _is_alive_dead by done. split; [done|].
      split; [discriminate|done].
  - intros e He Hle. rewrite _is_expired_eq, He.
    assert ((now <? e) = false) as -> by (apply Z.ltb_ge; lia). done.
  - intros e Ht [v Hv] He Hle. rewrite _is_alive_eq.
    rewrite bool_decide_eq_false_2 by done. rewrite Hv, He.
    assert ((now <? e) = false) as -> by (apply Z.ltb_ge; lia). done.
  - intros Hn. rewrite _is_alive_eq.
    destruct (decide (key ∈ _tombstones s)) as [Ht|Ht].
    { by rewrite bool_decide_eq_true_2. }
    rewrite bool_decide_eq_false_2 by done.
    destruct (_index s !! key) as [v|] eqn:Ei; [|done].
    destruct (_ttl s !! key) as [e|] eqn:Et; [|done].
    destruct (now <? e) eqn:El; [done|].
    exfalso. apply Hn. split; [done|]. split; [eauto|].
    exists e. split; [done|]. by apply Z.ltb_ge.
  - done.
Qed.

End liveness.

(** ** [int]: what it reads, and that it reads back what [str] writes *)

Section int_str.
Import Spec.

Lemma int_space_is_space c : Py.is_int_space c = true → Py.is_space c = true.
Proof.
  unfold Py.is_int_space, Py.is_space. generalize (N_of_ascii c). intros n.
  rewrite !orb_true_iff, !andb_true_iff, !N.leb_le, !N.eqb_eq. lia.
Qed.

Lemma nonspace_not_int_space c : nonspace c = true → Py.is_int_space c = false.
Proof.
  unfold nonspace. intros H%negb_true_iff.
  destruct (Py.is_int_space c) eqn:E; [|done].
  apply int_space_is_space in E. congruence.
Qed.

Lemma rstrip_nonspace s :
  Py.all_chars nonspace s = true → Py.rstrip_by Py.is_int_space s = s.
Proof.
  induction s as [|c r IH]; [done|]. cbn. intros [Hc Hr]%andb_true_iff.
  rewrite IH by done. rewrite nonspace_not_int_space by done.
  by rewrite andb_false_r.
Qed.

Lemma strip_nonspace s :
  Py.all_chars nonspace s = true → Py.int_strip s = s.
Proof.
  intros H. unfold Py.int_strip.
  assert (Py.lstrip_by Py.is_int_space s = s) as ->.
  { destruct s as [|c r]; [done|]. cbn in *.
    apply andb_true_iff in H as [Hc _].
    by rewrite nonspace_not_int_space. }
  by apply rstrip_nonspace.
Qed.

Lemma digits_nonspace d :
  Py.all_chars nonspace (NilEmpty.string_of_uint d) = true.
Proof. induction d; cbn; done. Qed.

Lemma digits_go_acc d p :
  Py.digits_go (Z.pos p) true (NilEmpty.string_of_uint d)
  = Some (Z.pos (Pos.of_uint_acc d p)).
Proof.
  revert p. induction d; intros p; [done|..];
    cbn [NilEmpty.string_of_uint Py.digits_go Pos.of_uint_acc];
    change (Py.is_char _ "_") with false; cbn match;
    match goal with
    | |- context [Py.digit_val ?c] =>
        let v := eval vm_compute in (Py.digit_val c) in
        change (Py.digit_val c) with v
    end; cbn match;
    match goal with
    | |- Py.digits_go ?a true _ = Some (Z.pos (Pos.of_uint_acc _ ?q)) =>
        replace a with (Z.pos q) by lia
    end; apply IHd.
Qed.

Lemma digits_go_zero d prev :
  prev = true ∨ d ≠ Decimal.Nil →
  Py.digits_go 0 prev (NilEmpty.string_of_uint d) = Some (Z.of_uint d).
Proof.
  revert prev. induction d; intros prev Hp;
    [destruct Hp as [-> | ?]; done|..];
    cbn [NilEmpty.string_of_uint Py.digits_go];
    change (Py.is_char _ "_") with false; cbn match;
    match goal with
    | |- context [Py.digit_val ?c] =>
        let v := eval vm_compute in (Py.digit_val c) in
        change (Py.digit_val c) with v
    end; cbn match.
  1: { change (10 * 0 + 0) with 0. rewrite IHd by (by left). done. }
  all: change (10 * 0 + ?k) with k; apply digits_go_acc.
Qed.

Lemma int_digits d :
  d ≠ Decimal.Nil → Py.int (NilEmpty.string_of_uint d) = Some (Z.of_uint d).
Proof.
  intros Hd. unfold Py.int. rewrite strip_nonspace by apply digits_nonspace.
  rewrite <- (digits_go_zero d false) by (by right).
  destruct d; done.
Qed.

Lemma int_neg_digits d :
  d ≠ Decimal.Nil →
  Py.int (String "-" (NilEmpty.string_of_uint d)) = Some (- Z.of_uint d).
Proof.
  intros Hd. unfold Py.int. rewrite strip_nonspace.
  - change (Py.is_char "-" "-") with true. cbn match.
    by rewrite digits_go_zero by (by right).
  - cbn. apply digits_nonspace.
Qed.

Lemma to_uint_not_nil p : Pos.to_uint p ≠ Decimal.Nil.
Proof.
  intros H. pose proof (DecimalPos.Unsigned.of_to p) as E.
  rewrite H in E. done.
Qed.

Lemma nilzero_string d :
  d ≠ Decimal.Nil → NilZero.string_of_uint d = NilEmpty.string_of_uint d.
Proof. by destruct d. Qed.

Lemma int_str (n : Z) : Py.int (Py.str n) = Some n.
Proof.
  pose proof (DecimalZ.of_to n) as E. unfold Py.str.
  destruct n as [|p|p]; [done|..]; cbn [Z.to_int NilZero.string_of_int] in *;
    rewrite nilzero_string by apply to_uint_not_nil.
  - rewrite int_digits by apply to_uint_not_nil. by f_equal.
  - rewrite int_neg_digits by apply to_uint_not_nil. by f_equal.
Qed.

Lemma rstrip_head p c r :
  p c = false → Py.rstrip_by p (String c r) = String c (Py.rstrip_by p r).
Proof. intros H. cbn. by rewrite H, andb_false_r. Qed.

Lemma space_no_literal c :
  Py.is_space c = true →
  Py.is_char c "-" = false ∧ Py.is_char c "+" = false
  ∧ Py.is_char c "_" = false ∧ Py.digit_val c = None.
Proof.
  destruct c as [[] [] [] [] [] [] [] []]; vm_compute; intros H;
    first [discriminate H | done].
Qed.

(** [int] raises on a text that starts with one of the separators that
    [str.isspace] takes and [int] does not skip. *)
Lemma int_separator c r :
  Py.is_space c = true → Py.is_int_space c = false →
  Py.int (String c r) = None.
Proof.
  intros Hs Hi. unfold Py.int, Py.int_strip. cbn [Py.lstrip_by]. rewrite Hi.
  rewrite rstrip_head by done.
  destruct (space_no_literal c Hs) as (-> & -> & H1 & H2).
  cbn [Py.digits_go]. by rewrite H1, H2.
Qed.

End int_str.

(** ** Recovery *)

Section recovery.
Import Engine Spec.

Lemma key_state_tombstone (k : string) (t t' : gset string) :
  (k ∈ t ↔ k ∈ t') → bool_decide (k ∈ t) = bool_decide (k ∈ t').
Proof. intros H. apply bool_decide_ext, H. Qed.

Lemma key_state_tombstone_inv (k : string) (t t' : gset string) :
  bool_decide (k ∈ t) = bool_decide (k ∈ t') → (k ∈ t ↔ k ∈ t').
Proof.
  intros H. split; intros Hk; apply (bool_decide_eq_true _).
  - rewrite <- H. by apply bool_decide_eq_true.
  - rewrite H. by apply bool_decide_eq_true.
Qed.

Lemma apply_record_other k s op key arg :
  key ≠ k → key_state k (apply_record s (op, key, arg)) = key_state k s.
Proof.
  intros Hne. unfold apply_record, key_state.
  repeat case_match; unfold_engine; simpl;
    rewrite ?lookup_insert_ne, ?lookup_delete_ne by done;
    repeat f_equal; apply key_state_tombstone; set_solver.
Qed.

Lemma apply_record_agree k s s' r :
  key_state k s = key_state k s' →
  key_state k (apply_record s r) = key_state k (apply_record s' r).
Proof.
  destruct r as [[op key] arg]. intros H.
  destruct (decide (key = k)) as [->|Hne];
    [|by rewrite !apply_record_other].
  unfold key_state in H. injection H as Hi Ht Hl.
  apply key_state_tombstone_inv in Ht.
  unfold apply_record, key_state.
  repeat case_match; unfold_engine; simpl;
    rewrite ?lookup_insert_eq, ?lookup_delete_eq, ?Hi, ?Hl;
    repeat f_equal; apply key_state_tombstone; set_solver.
Qed.

Lemma replay_per_key k recs s s' :
  key_state k s = key_state k s' →
  key_state k (fold_left apply_record recs s) =
  key_state k (fold_left apply_record (filter (for_key k) recs) s').
Proof.
  revert s s'. induction recs as [|r recs IH]; intros s s' H; [done|].
  cbn [fold_left]. destruct r as [[op key] arg].
  destruct (decide (key = k)) as [->|Hne].
  - rewrite filter_cons_True by done. cbn [fold_left].
    apply IH. by apply apply_record_agree.
  - rewrite filter_cons_False by (unfold for_key; simpl; congruence).
    apply IH. by rewrite apply_record_other.
Qed.

(** C2.  Recovery starts from the empty index, tombstone set and TTL
    table and applies the records in order; SET stores the value and
    lifts the tombstone, leaving the TTL table alone; DEL tombstones the
    key and drops its deadline; EXPIREAT stores the integer its argument
    denotes and is skipped when the argument denotes none; PERSIST drops
    the deadline; and what recovery leaves for a key is what the records
    of that key alone leave for it.  The integers are those of [int]: the
    text that [str] writes for an integer denotes that integer, and a
    text that starts with one of the separators 28 to 31 denotes none,
    though [str.strip] would drop them; the log with the lines
    [SET k v] and [EXPIREAT k] followed by the separator 28 and [5]
    recovers the value of [k] and no deadline. *)
Theorem recovery_last_write_wins (lg : Storage.AppendOnlyLog) (recs : list Storage.record) :
  (∀ s, _load_from_log s =
        (Storage.ending (Storage.replay (_log s)),
         recover (_log s) (Storage.yielded (Storage.replay (_log s)))))
  ∧ recover lg [] = mkKV ∅ lg ∅ ∅
  ∧ (∀ r, recover lg (recs ++ [r]) = apply_record (recover lg recs) r)
  ∧ (∀ s k v, apply_record s ("SET", k, v) =
              mkKV (<[k := v]> (_index s)) (_log s) (_tombstones s ∖ {[k]}) (_ttl s))
  ∧ (∀ s k arg, apply_record s ("DEL", k, arg) =
                mkKV (_index s) (_log s) ({[k]} ∪ _tombstones s) (base.delete k (_ttl s)))
  ∧ (∀ s k arg, apply_record s ("EXPIREAT", k, arg) =
                match Py.int arg with
                | Some abs_ms => mkKV (_index s) (_log s) (_tombstones s) (<[k := abs_ms]> (_ttl s))
                | None => s
                end)
  ∧ (∀ s k arg, apply_record s ("PERSIST", k, arg) =
                mkKV (_index s) (_log s) (_tombstones s) (base.delete k (_ttl s)))
  ∧ (∀ k, key_state k (recover lg recs) =
          key_state k (recover lg (filter (for_key k) recs)))
  ∧ (∀ s k n, apply_record s ("EXPIREAT", k, Py.str n) =
              mkKV (_index s) (_log s) (_tombstones s) (<[k := n]> (_ttl s)))
  ∧ (∀ s k c r, Py.is_space c = true → Py.is_int_space c = false →
                apply_record s ("EXPIREAT", k, String c r) = s)
  ∧ snd (__init__ (Some ("SET k v" ++ Storage.nl ++ "EXPIREAT k "
                         ++ String "028" "5" ++ Storage.nl)))
    = mkKV {["k" := "v"]}
        (Storage.__init__ (Some ("SET k v" ++ Storage.nl ++ "EXPIREAT k "
                                 ++ String "028" "5" ++ Storage.nl)))
        ∅ ∅.
Proof.
  split; [|split; [|split; [|split; [|split; [|split; [|split;
    [|split; [|split; [|split]]]]]]]]].
  - intros s. reflexivity.
  - reflexivity.
  - intros r. unfold recover. by rewrite fold_left_app.
  - intros s k v. reflexivity.
  - intros s k arg. reflexivity.
  - intros s k arg. cbn. by destruct (Py.int arg).
  - intros s k arg. reflexivity.
  - intros k. by apply replay_per_key.
  - intros s k n. cbn [apply_record String.eqb Ascii.eqb Bool.eqb].
    by rewrite int_str.
  - intros s k c r Hs Hi. cbn [apply_record String.eqb Ascii.eqb Bool.eqb].
    by rewrite int_separator.
  - reflexivity.
Qed.

End recovery.

(** ** The engine operations as equations *)

Section engine_equations.
Import Engine Spec.

Lemma discard_absent (key : string) (t : gset string) :
  key ∉ t → t ∖ {[key]} = t.
Proof. set_solver. Qed.

Lemma append_set_eq key value lg :
  Storage.append_set key value lg =
    if valid_set lg key value
    then (Ok tt, Storage.with_file
                   (Some (default "" (Storage.file lg)
                          ++ "SET " ++ key ++ " " ++ value ++ Storage.nl)) lg)
    else (Raise ValueError, lg).
Proof.
  unfold Storage.append_set, Storage._validate_key_value_or_raise, valid_set,
    Storage._append_line.
  unfold_m.
  destruct (Storage._KEY_RE_match key); [|done].
  destruct (Py.contains Py.LF value); [done|].
  destruct (Storage.longer_than key (Storage.max_key_len lg)); [done|].
  destruct (Storage.longer_than value (Storage.max_value_len lg)); done.
Qed.

Lemma set_eq key value s :
  set key value s =
    if valid_set (_log s) key value
    then (Ok tt,
          mkKV (<[key := value]> (_index s))
               (Storage.with_file
                  (Some (default "" (Storage.file (_log s))
                         ++ "SET " ++ key ++ " " ++ value ++ Storage.nl)) (_log s))
               (_tombstones s ∖ {[key]}) (_ttl s))
    else (Raise ValueError, s).
Proof.
  unfold set. unfold_m. rewrite append_set_eq.
  destruct (valid_set (_log s) key value); [|by destruct s].
  unfold_engine. cbn.
  destruct (decide (key ∈ _tombstones s)) as [Hin|Hout].
  - by rewrite bool_decide_eq_true_2.
  - rewrite bool_decide_eq_false_2 by done. by rewrite discard_absent.
Qed.

Lemma get_eq now key s :
  get now key s =
    (Ok (if decide (live now key s) then _index s !! key else None),
     snd (_is_alive key now s)).
Proof.
  unfold get. unfold_m.
  destruct (decide (live now key s)) as [Hl|Hd].
  - by rewrite _is_alive_live.
  - by rewrite _is_alive_dead.
Qed.

Lemma delete_dead now key s :
  ¬ live now key s →
  delete now key s = (Ok false, ttl_pop key (snd (_is_alive key now s))).
Proof.
  intros Hd. unfold delete. unfold_m. by rewrite _is_alive_dead.
Qed.

Lemma delete_live now key s :
  live now key s →
  delete now key s =
    if Storage._KEY_RE_match key
    then (Ok true,
          mkKV (_index s)
               (Storage.with_file
                  (Some (default "" (Storage.file (_log s))
                         ++ "DEL " ++ key ++ Storage.nl)) (_log s))
               ({[key]} ∪ _tombstones s) (base.delete key (_ttl s)))
    else (Raise ValueError,
          mkKV (_index s) (_log s) ({[key]} ∪ _tombstones s)
               (base.delete key (_ttl s))).
Proof.
  intros Hl. unfold delete. unfold_m. rewrite _is_alive_live by done.
  cbn. unfold Storage.append_del, Storage._append_line. unfold_m. cbn.
  destruct (Storage._KEY_RE_match key); done.
Qed.

Lemma expire_dead now key ms s :
  ¬ live now key s →
  expire now key ms s = (Ok false, snd (_is_alive key now s)).
Proof.
  intros Hd. unfold expire. unfold_m. by rewrite _is_alive_dead.
Qed.

Lemma expire_live now key ms s :
  live now key s →
  expire now key ms s =
    if Storage._KEY_RE_match key
    then (Ok true,
          mkKV (_index s)
               (Storage.with_file
                  (Some (default "" (Storage.file (_log s))
                         ++ "EXPIREAT " ++ key ++ " " ++ Py.str (now + ms)
                         ++ Storage.nl)) (_log s))
               (_tombstones s) (<[key := now + ms]> (_ttl s)))
    else (Raise ValueError,
          mkKV (_index s) (_log s) (_tombstones s) (<[key := now + ms]> (_ttl s))).
Proof.
  intros Hl. unfold expire. unfold_m. rewrite _is_alive_live by done.
  cbn. unfold Storage.append_expireat, Storage._append_line. unfold_m. cbn.
  destruct (Storage._KEY_RE_match key); done.
Qed.

Lemma ttl_dead now key s :
  ¬ live now key s → ttl now key s = (Ok (-2), snd (_is_alive key now s)).
Proof.
  intros Hd. unfold ttl. unfold_m. by rewrite _is_alive_dead.
Qed.

Lemma ttl_live now key s :
  live now key s →
  ttl now key s =
    (Ok (match _ttl s !! key with Some e => e - now | None => -1 end), s).
Proof.
  intros Hl. unfold ttl. unfold_m. rewrite _is_alive_live by done. cbn.
  destruct Hl as (_ & _ & He).
  destruct (_ttl s !! key) as [e|]; [|done].
  specialize (He e eq_refl).
  assert ((e <=? now) = false) as -> by (apply Z.leb_gt; lia). done.
Qed.

Lemma persist_dead now key s :
  ¬ live now key s →
  persist now key s = (Ok false, snd (_is_alive key now s)).
Proof.
  intros Hd. unfold persist. unfold_m. by rewrite _is_alive_dead.
Qed.

Lemma persist_live now key s :
  live now key s →
  persist now key s =
    match _ttl s !! key with
    | None => (Ok false, s)
    | Some _ =>
        if Storage._KEY_RE_match key
        then (Ok true,
              mkKV (_index s)
                   (Storage.with_file
                      (Some (default "" (Storage.file (_log s))
                             ++ "PERSIST " ++ key ++ Storage.nl)) (_log s))
                   (_tombstones s) (base.delete key (_ttl s)))
        else (Raise ValueError,
              mkKV (_index s) (_log s) (_tombstones s) (base.delete key (_ttl s)))
    end.
Proof.
  intros Hl. unfold persist. unfold_m. rewrite _is_alive_live by done. cbn.
  destruct (_ttl s !! key) as [e|] eqn:E.
  - rewrite bool_decide_eq_true_2 by eauto. cbn.
    unfold Storage.append_persist, Storage._append_line. unfold_m. cbn.
    destruct (Storage._KEY_RE_match key); done.
  - rewrite bool_decide_eq_false_2; [by destruct s|]. by intros [? ?].
Qed.

End engine_equations.

(** ** SET, DEL and the TTL table *)

Section set_delete_ttl.
Import Engine Spec.

Lemma valid_set_default s key value :
  default_log s →
  valid_set (_log s) key value =
    Storage._KEY_RE_match key && negb (Py.contains Py.LF value).
Proof.
  intros [Hk Hv]. unfold valid_set. rewrite Hk, Hv. cbn.
  by rewrite !andb_true_r.
Qed.

Lemma set_default_log key value s :
  default_log s → default_log (snd (set key value s)).
Proof.
  intros H. rewrite set_eq. by destruct (valid_set (_log s) key value).
Qed.

Lemma _is_alive_state key now s :
  snd (_is_alive key now s) = s
  ∨ snd (_is_alive key now s) = expired_state key s.
Proof.
  rewrite _is_alive_eq.
  destruct (bool_decide (key ∈ _tombstones s)); [by left|].
  destruct (_index s !! key); [|by left].
  destruct (_ttl s !! key) as [e|]; [|by left].
  destruct (now <? e); [by left|by right].
Qed.

Lemma _is_alive_index key now s :
  _index (snd (_is_alive key now s)) = _index s.
Proof. by destruct (_is_alive_state key now s) as [-> | ->]. Qed.

Lemma _is_alive_log key now s :
  _log (snd (_is_alive key now s)) = _log s.
Proof. by destruct (_is_alive_state key now s) as [-> | ->]. Qed.

Lemma set_ok key value s :
  default_log s →
  Storage._KEY_RE_match key = true →
  Py.contains Py.LF value = false →
  set key value s =
    (Ok tt,
     mkKV (<[key := value]> (_index s))
          (Storage.with_file
             (Some (default "" (Storage.file (_log s))
                    ++ "SET " ++ key ++ " " ++ value ++ Storage.nl)) (_log s))
          (_tombstones s ∖ {[key]}) (_ttl s)).
Proof.
  intros Hcfg Hk Hv. rewrite set_eq, valid_set_default by done.
  by rewrite Hk, Hv.
Qed.

Lemma delete_clears_ttl now key s :
  _ttl (snd (delete now key s)) !! key = None.
Proof.
  destruct (decide (live now key s)) as [Hl|Hd].
  - rewrite delete_live by done.
    destruct (Storage._KEY_RE_match key); cbn; apply lookup_delete_eq.
  - rewrite delete_dead by done. cbn. apply lookup_delete_eq.
Qed.

Lemma delete_ok now key s :
  Storage._KEY_RE_match key = true → is_ok (fst (delete now key s)) = true.
Proof.
  intros Hk. destruct (decide (live now key s)) as [Hl|Hd].
  - rewrite delete_live by done. by rewrite Hk.
  - by rewrite delete_dead.
Qed.

Lemma delete_index now key s :
  _index (snd (delete now key s)) = _index s.
Proof.
  destruct (decide (live now key s)) as [Hl|Hd].
  - rewrite delete_live by done. by destruct (Storage._KEY_RE_match key).
  - rewrite delete_dead by done. unfold ttl_pop, with_ttl.
    cbn [fst snd _index]. apply _is_alive_index.
Qed.

Lemma delete_default_log now key s :
  default_log s → default_log (snd (delete now key s)).
Proof.
  intros Hcfg. destruct (decide (live now key s)) as [Hl|Hd].
  - rewrite delete_live by done. by destruct (Storage._KEY_RE_match key).
  - rewrite delete_dead by done.
    unfold default_log, ttl_pop, with_ttl. cbn [fst snd _log].
    by rewrite _is_alive_log.
Qed.

(** C7.  [set] never touches the TTL table, whatever its outcome, and when
    it succeeds the key is stored and no longer tombstoned.  With no
    length limits on the log it succeeds exactly on a key that [_KEY_RE]
    matches and a value without line feed.  Consequently, from any state
    of such an engine and for a deletion at any time, after
    [set("a","1"); set("a","2"); delete("a"); set("a","3")] the key "a" is
    live at every time, reads "3" and has no deadline. *)
Theorem set_preserves_ttl (s : KVEngine) (key value : string) (now later : Z)
    (Hcfg : default_log s) :
  _ttl (snd (set key value s)) = _ttl s
  ∧ (fst (set key value s) = Ok tt ↔
     Storage._KEY_RE_match key && negb (Py.contains Py.LF value) = true)
  ∧ (fst (set key value s) = Ok tt →
     _index (snd (set key value s)) = <[key := value]> (_index s)
     ∧ _tombstones (snd (set key value s)) = _tombstones s ∖ {[key]}
     ∧ (key ∉ _tombstones (snd (set key value s))))
  ∧ (let s' := snd (set_set_delete_set now s) in
     is_ok (fst (set_set_delete_set now s)) = true
     ∧ live later "a" s'
     ∧ _ttl s' !! "a" = None
     ∧ get later "a" s' = (Ok (Some "3"), s')
     ∧ ttl later "a" s' = (Ok (-1), s')).
Proof.
  split; [|split; [|split]].
  - rewrite set_eq. by destruct (valid_set (_log s) key value).
  - rewrite set_eq, valid_set_default by done.
    by destruct (Storage._KEY_RE_match key && negb (Py.contains Py.LF value)).
  - rewrite set_eq. destruct (valid_set (_log s) key value); [|done].
    intros _. cbn. split; [done|]. split; [done|]. set_solver.
  - unfold set_set_delete_set. unfold_m.
    rewrite (set_ok "a" "1") by done. cbn beta iota.
    rewrite (set_ok "a" "2") by done. cbn beta iota.
    match goal with |- context [delete now "a" ?s2] =>
      pose proof (delete_clears_ttl now "a" s2) as Httl;
      pose proof (delete_ok now "a" s2 eq_refl) as Hok;
      pose proof (delete_index now "a" s2) as Hidx;
      pose proof (delete_default_log now "a" s2 Hcfg) as Hcfg3;
      destruct (delete now "a" s2) as [[removed|e] s3]
    end; [|done].
    cbn [fst snd] in *.
    rewrite (set_ok "a" "3") by done. cbn beta iota zeta. cbn [fst snd].
    match goal with |- context [live later "a" ?s4] =>
      assert (live later "a" s4) as Hlive
    end.
    { split; [cbn; set_solver|]. split.
      - cbn. rewrite lookup_insert_eq. eauto.
      - cbn. intros e He. rewrite Httl in He. done. }
    split; [done|]. split; [done|]. split; [done|]. split.
    + rewrite get_eq. rewrite decide_True by done.
      rewrite _is_alive_live by done. cbn. by rewrite lookup_insert_eq.
    + rewrite ttl_live by done. cbn. by rewrite Httl.
Qed.

(** The scenario of C7 on the engine of a store with no log file. *)
Lemma set_preserves_ttl_witness :
  default_log (snd (__init__ None))
  ∧ get 7 "a" (snd (set_set_delete_set 3 (snd (__init__ None))))
    = (Ok (Some "3"), snd (set_set_delete_set 3 (snd (__init__ None)))).
Proof.
  assert (default_log (snd (__init__ None))) as H by (split; reflexivity).
  split; [exact H|].
  exact (proj1 (proj2 (proj2 (proj2 (proj2 (proj2 (proj2
    (set_preserves_ttl (snd (__init__ None)) "a" "1" 3 7 H)))))))).
Defined.

End set_delete_ttl.

(** ** The TTL query *)

Section ttl_query.
Import Engine Spec.

(** C8.  [ttl] answers the time left, which is strictly positive, for a
    live key with a deadline, -1 for a live key without one and -2 for a
    key that is not live.  In an engine without length limits on the log
    and where "a" holds no deadline already elapsed at [now1],
    [set("a","1")] followed by [expire("a",-5)] at [now1] succeeds and
    stores the deadline [now1 - 5], which has elapsed; a [get] at any time
    [now2] not before that deadline finds the key absent, and a [ttl] after
    it answers -2. *)
Theorem ttl_sentinels (s : KVEngine) (now1 now2 now3 : Z)
    (Hcfg : default_log s)
    (Hfresh : ∀ e, _ttl s !! "a" = Some e → now1 < e)
    (Hclock : now1 - 5 ≤ now2) :
  (∀ now key s0 e, live now key s0 → _ttl s0 !! key = Some e →
     fst (ttl now key s0) = Ok (e - now) ∧ 0 < e - now)
  ∧ (∀ now key s0, live now key s0 → _ttl s0 !! key = None →
       fst (ttl now key s0) = Ok (-1))
  ∧ (∀ now key s0, ¬ live now key s0 → fst (ttl now key s0) = Ok (-2))
  ∧ (let s1 := snd (set_expire now1 s) in
     let s2 := snd (get now2 "a" s1) in
     fst (set_expire now1 s) = Ok true
     ∧ _ttl s1 !! "a" = Some (now1 - 5)
     ∧ now1 - 5 ≤ now1
     ∧ fst (get now2 "a" s1) = Ok None
     ∧ fst (ttl now3 "a" s2) = Ok (-2)).
Proof.
  split; [|split; [|split]].
  - intros now key s0 e Hl He. rewrite ttl_live by done. rewrite He.
    split; [done|]. destruct Hl as (_ & _ & H). specialize (H e He). lia.
  - intros now key s0 Hl He. rewrite ttl_live by done. by rewrite He.
  - intros now key s0 Hd. by rewrite ttl_dead.
  - unfold set_expire. unfold_m.
    rewrite (set_ok "a" "1") by done. cbn beta iota.
    match goal with |- context [expire now1 "a" (-5) ?s1] =>
      assert (live now1 "a" s1) as Hl1
    end.
    { split; [cbn; set_solver|]. split.
      - cbn. rewrite lookup_insert_eq. eauto.
      - cbn. exact Hfresh. }
    rewrite expire_live by done.
    change (Storage._KEY_RE_match "a") with true. cbn beta iota zeta.
    cbn [fst snd _ttl _index _log _tombstones].
    match goal with |- context [get now2 "a" ?s1] =>
      assert (¬ live now2 "a" s1) as Hd2
    end.
    { intros (_ & _ & H). specialize (H (now1 + -5)).
      cbn in H. rewrite lookup_insert_eq in H. specialize (H eq_refl). lia. }
    split; [done|]. split; [by rewrite lookup_insert_eq|]. split; [lia|].
    rewrite get_eq. rewrite decide_False by done. split; [done|].
    cbn [fst snd].
    rewrite ttl_dead; [done|].
    rewrite _is_alive_dead by done. cbn [snd].
    rewrite bool_decide_eq_true_2.
    + intros (Ht & _). apply Ht. cbn. set_solver.
    + split; [cbn; set_solver|].
      cbn. rewrite !lookup_insert_eq. eauto.
Qed.

(** The scenario of C8 on the engine of a store with no log file, the
    clock reading 100, 100 and 101. *)
Lemma ttl_sentinels_witness :
  fst (ttl 101 "a" (snd (get 100 "a" (snd (set_expire 100 (snd (__init__ None)))))))
  = Ok (-2).
Proof.
  refine (proj2 (proj2 (proj2 (proj2 (proj2 (proj2 (proj2
    (ttl_sentinels (snd (__init__ None)) 100 100 101 _ _ _))))))));
    [split; reflexivity | intros e He; vm_compute in He; discriminate | lia].
Defined.

End ttl_query.

(** ** Deleting a key that is not live *)

Section delete_dead_key.
Import Engine Spec.

Lemma ghost_engine_eq :
  ghost_engine =
    mkKV ∅ (Storage.__init__ (Some ("EXPIREAT ghost 5" ++ Storage.nl)))
         ∅ {["ghost" := 5]}.
Proof. reflexivity. Qed.

(** C9, as stated, fails.  The engine recovered from the one-line log
    [EXPIREAT ghost 5] holds a deadline for "ghost" and no entry for it.
    The key is not live and the liveness check changes nothing, yet
    [delete] drops the deadline. *)
Lemma delete_dead_key_drops_deadline :
  ¬ dead_delete_is_noop 0 "ghost" ghost_engine.
Proof.
  intros H.
  assert (¬ live 0 "ghost" ghost_engine) as Hd.
  { intros (_ & [v Hv] & _). rewrite ghost_engine_eq in Hv. cbn in Hv.
    by rewrite lookup_empty in Hv. }
  specialize (H Hd).
  assert (_ttl (snd (delete 0 "ghost" ghost_engine)) !! "ghost"
          = _ttl (snd (_is_alive "ghost" 0 ghost_engine)) !! "ghost") as E
    by (by rewrite H).
  rewrite delete_clears_ttl in E.
  rewrite _is_alive_eq, ghost_engine_eq in E. cbn in E.
  rewrite bool_decide_eq_false_2 in E by set_solver.
  rewrite lookup_empty in E. cbn in E.
  by rewrite lookup_singleton_eq in E.
Qed.

(** C9, amended.  On a key that is not live, [delete] answers false,
    leaves the log and the index alone, leaves the tombstone set as the
    liveness check left it, and removes the deadline of the key when the
    check left one; every other deadline is as the check left it.  When no
    deadline is held for a tombstoned or unindexed key, this is the state
    the check left.  On a live key that [_KEY_RE] matches, [delete]
    tombstones the key, drops its deadline, appends the DEL record and
    answers true; and it answers true on live keys only. *)
Theorem delete_dead_key (now : Z) (key : string) (s : KVEngine) :
  (¬ live now key s →
     fst (delete now key s) = Ok false
     ∧ _log (snd (delete now key s)) = _log s
     ∧ _index (snd (delete now key s)) = _index s
     ∧ _tombstones (snd (delete now key s))
       = _tombstones (snd (_is_alive key now s))
     ∧ _ttl (snd (delete now key s))
       = base.delete key (_ttl (snd (_is_alive key now s)))
     ∧ (ttl_consistent s → snd (delete now key s) = snd (_is_alive key now s)))
  ∧ (live now key s → Storage._KEY_RE_match key = true →
     delete now key s =
       (Ok true,
        mkKV (_index s)
             (Storage.with_file
                (Some (default "" (Storage.file (_log s))
                       ++ "DEL " ++ key ++ Storage.nl)) (_log s))
             ({[key]} ∪ _tombstones s) (base.delete key (_ttl s))))
  ∧ (fst (delete now key s) = Ok true → live now key s).
Proof.
  split; [|split].
  - intros Hd. rewrite delete_dead by done.
    unfold ttl_pop, with_ttl. cbn [fst snd _log _index _tombstones _ttl].
    split; [done|]. split; [apply _is_alive_log|].
    split; [apply _is_alive_index|]. split; [done|]. split; [done|].
    intros Hc.
    assert (_ttl (snd (_is_alive key now s)) !! key = None) as Hnone.
    { rewrite _is_alive_dead by done. cbn [snd]. case_bool_decide as Hb.
      - cbn. apply lookup_delete_eq.
      - destruct (_ttl s !! key) as [e|] eqn:Ee; [|done].
        exfalso. apply Hb. destruct (Hc key) as [? ?]; eauto. }
    rewrite delete_id by done.
    by destruct (snd (_is_alive key now s)).
  - intros Hl Hk. rewrite delete_live by done. by rewrite Hk.
  - intros Hok. destruct (decide (live now key s)) as [Hl|Hd]; [done|].
    rewrite delete_dead in Hok by done. discriminate.
Qed.

End delete_dead_key.

(** ** Replay of a log with an unterminated last line *)

Section torn_tail.
Import Storage Spec.

(** C3 (not met by the code).  The log [SET a 1] LF [SET b 2] ends without
    a line terminator.  [replay] notices it, which is the warning, and then
    iterates over every line of the file all the same: the record of the
    unterminated line is yielded after the one before it. *)
Theorem replay_keeps_unterminated_tail :
  readlines ("SET a 1" ++ nl ++ "SET b 2") = ["SET a 1" ++ nl; "SET b 2"]
  ∧ replay torn_log
    = mkReplay [("SET", "a", "1"); ("SET", "b", "2")] (Ok tt) true.
Proof. split; reflexivity. Qed.

End torn_tail.

(** ** RANGE *)

Section range.
Import Engine Spec.

(** C6 (not met by the code).  The key "user-profile-settings" is live, lies
    within the open bounds and does not match [_UUID_RE], and yet
    [range_keys] leaves it out: the loop does not consult [_UUID_RE] but
    skips every key that has a dash and more than sixteen characters. *)
Theorem range_hides_dashed_key :
  fst (get 0 "user-profile-settings" dashed_engine) = Ok (Some "x")
  ∧ _UUID_RE_match "user-profile-settings" = false
  ∧ hidden "user-profile-settings" = true
  ∧ fst (range_keys 0 "" "" dashed_engine) = Ok [].
Proof. repeat split; vm_compute; reflexivity. Qed.

End range.

(** ** The tombstone set, the TTL table and the index stay consistent *)

Section consistency.
Import Engine Spec.

Lemma consistent_pop k s lg :
  ttl_consistent s →
  ttl_consistent (mkKV (_index s) lg (_tombstones s) (base.delete k (_ttl s))).
Proof.
  intros H j. cbn. destruct (decide (j = k)) as [->|Hne].
  - rewrite lookup_delete_eq. by intros [? ?].
  - rewrite lookup_delete_ne by done. apply H.
Qed.

Lemma consistent_kill k s lg :
  ttl_consistent s →
  ttl_consistent (mkKV (_index s) lg ({[k]} ∪ _tombstones s)
                       (base.delete k (_ttl s))).
Proof.
  intros H j. cbn. destruct (decide (j = k)) as [->|Hne].
  - rewrite lookup_delete_eq. by intros [? ?].
  - rewrite lookup_delete_ne by done. intros Hj.
    destruct (H j Hj) as [Ht Hi]. split; [set_solver|done].
Qed.

Lemma consistent_store k v s lg :
  ttl_consistent s → k ∉ _tombstones s → is_Some (_index s !! k) →
  ttl_consistent (mkKV (_index s) lg (_tombstones s) (<[k := v]> (_ttl s))).
Proof.
  intros H Ht Hi j. cbn. destruct (decide (j = k)) as [->|Hne].
  - done.
  - rewrite lookup_insert_ne by done. apply H.
Qed.

Lemma consistent_set k v s lg :
  ttl_consistent s →
  ttl_consistent (mkKV (<[k := v]> (_index s)) lg (_tombstones s ∖ {[k]}) (_ttl s)).
Proof.
  intros H j Hj. cbn in *. destruct (H j Hj) as [Ht Hi]. split; [set_solver|].
  destruct (decide (j = k)) as [->|Hne].
  - rewrite lookup_insert_eq. eauto.
  - by rewrite lookup_insert_ne.
Qed.

Lemma consistent_is_alive key now s :
  ttl_consistent s → ttl_consistent (snd (_is_alive key now s)).
Proof.
  intros H. destruct (_is_alive_state key now s) as [-> | ->]; [done|].
  by apply consistent_kill.
Qed.

Lemma consistent_range_loop now start end_ entries s :
  ttl_consistent s →
  ttl_consistent (snd (range_loop now start end_ entries s)).
Proof.
  revert s. induction entries as [|[k v] rest IH]; intros s H; [done|].
  cbn [range_loop].
  destruct (hidden k); [by apply IH|].
  destruct (negb (Py.is_empty start) && Py.lt k start); [by apply IH|].
  destruct (negb (Py.is_empty end_) && Py.gt k end_); [by apply IH|].
  unfold_m.
  pose proof (consistent_is_alive k now s H) as H1.
  destruct (_is_alive k now s) as [[alive|e] s1]; [|done].
  cbn [snd] in H1. specialize (IH s1 H1).
  by destruct (range_loop now start end_ rest s1) as [[ks|e] s2].
Qed.

Lemma consistent_after now c s :
  ttl_consistent s → ttl_consistent (after now c s).
Proof.
  intros H. destruct c as [k v|k|k|k|k ms|k|k|a b]; cbn [after].
  - rewrite set_eq. destruct (valid_set (_log s) k v); [|done].
    by apply consistent_set.
  - rewrite get_eq. by apply consistent_is_alive.
  - destruct (decide (live now k s)) as [Hl|Hd].
    + rewrite delete_live by done.
      destruct (Storage._KEY_RE_match k); by apply consistent_kill.
    + rewrite delete_dead by done.
      by apply (consistent_pop k _ _), consistent_is_alive.
  - by apply consistent_is_alive.
  - destruct (decide (live now k s)) as [Hl|Hd].
    + rewrite expire_live by done. destruct Hl as (Ht & Hi & _).
      destruct (Storage._KEY_RE_match k); by apply consistent_store.
    + rewrite expire_dead by done. by apply consistent_is_alive.
  - destruct (decide (live now k s)) as [Hl|Hd].
    + by rewrite ttl_live.
    + rewrite ttl_dead by done. by apply consistent_is_alive.
  - destruct (decide (live now k s)) as [Hl|Hd].
    + rewrite persist_live by done. destruct (_ttl s !! k); [|done].
      destruct (Storage._KEY_RE_match k); by apply consistent_pop.
    + rewrite persist_dead by done. by apply consistent_is_alive.
  - unfold range_keys. unfold_m. by apply consistent_range_loop.
Qed.

(** C10.  In every state reached from an engine that holds nothing by
    calls of set, get, delete, exists, expire, ttl, persist and range, at
    any times and whether or not a call raised, no key is both tombstoned
    and in the TTL table, and every key of the TTL table has an entry in
    the index. *)
Theorem reachable_consistent (s : KVEngine) (Hreach : reachable s) :
  (∀ k, ¬ (k ∈ _tombstones s ∧ is_Some (_ttl s !! k)))
  ∧ (∀ k, is_Some (_ttl s !! k) → is_Some (_index s !! k)).
Proof.
  assert (ttl_consistent s) as H.
  { induction Hreach as [lg|s now c _ IH].
    - intros k. cbn. rewrite lookup_empty. by intros [? ?].
    - by apply consistent_after. }
  split.
  - intros k [Ht Hk]. by destruct (H k Hk).
  - intros k Hk. by destruct (H k Hk).
Qed.

(** A state reached by four calls, one of them an [expire]. *)
Lemma reachable_consistent_witness :
  reachable four_calls
  ∧ (∀ k, ¬ (k ∈ _tombstones four_calls ∧ is_Some (_ttl four_calls !! k)))
  ∧ (∀ k, is_Some (_ttl four_calls !! k) → is_Some (_index four_calls !! k)).
Proof.
  assert (reachable four_calls) as H by (repeat constructor).
  split; [exact H|]. exact (reachable_consistent four_calls H).
Defined.

End consistency.

Ltac unfold_main :=
  unfold Main._print, Main.buffer_store, Main.ops_append, Main.with_kv,
    Main.with_in_tx, Main.with_tx_buffer, Main.with_tx_ops, Main.with_stdout,
    Main.with_ticks in *.

(** ** The transaction overlay: what a write-like operation buffers *)

Section overlay_writes.
Import Engine Main Spec TxSpec.

Lemma tx_exists_view_eq key w :
  _tx_exists_view key w
  = (Ok (visible key w),
     match tx_buffer w !! key with
     | Some _ => w
     | None =>
         with_kv (snd (_is_alive key (clock w (ticks w)) (kv w)))
           (with_ticks (S (ticks w)) w)
     end).
Proof.
  unfold _tx_exists_view, _tx_get_view, visible. unfold_m.
  destruct (tx_buffer w !! key) as [pending|]; [done|].
  unfold kv_get, _now_ms. unfold_m. cbn [kv with_ticks]. rewrite get_eq.
  destruct (decide (live (clock w (ticks w)) key (kv w))) as [Hl|Hd].
  - rewrite bool_decide_eq_true_2 by (by destruct Hl as (_ & ? & _)).
    by rewrite bool_decide_eq_true_2.
  - rewrite bool_decide_eq_false_2 by (by intros [? ?]).
    by rewrite (bool_decide_eq_false_2 _ Hd).
Qed.

Lemma visible_keeps_engine key w :
  visible key w = true →
  match tx_buffer w !! key with
  | Some _ => kv w
  | None => snd (_is_alive key (clock w (ticks w)) (kv w))
  end = kv w.
Proof.
  unfold visible. destruct (tx_buffer w !! key) as [pending|]; [done|].
  intros Hl%bool_decide_eq_true. by rewrite _is_alive_live.
Qed.

Lemma issue_records o w :
  in_tx w = true →
  ∃ w', issue o w = (Ok tt, w')
    ∧ in_tx w' = true
    ∧ tx_ops w' = (tx_ops w ++ (if recorded o w then [encode o] else []))%list
    ∧ stdout w' = (stdout w ++ [answer o w])%list
    ∧ (recorded o w = true → kv w' = kv w)
    ∧ (recorded o w = false → tx_buffer w' = tx_buffer w)
    ∧ (kv w' = kv w
       ∨ kv w' = snd (_is_alive (tx_key o) (clock w (ticks w)) (kv w))).
Proof.
  intros Htx.
  assert (∀ k (m : bool → M World unit),
    (∀ w0, kv (snd (m false w0)) = kv w0 ∧ in_tx (snd (m false w0)) = in_tx w0
           ∧ tx_ops (snd (m false w0)) = tx_ops w0
           ∧ tx_buffer (snd (m false w0)) = tx_buffer w0
           ∧ stdout (snd (m false w0)) = (stdout w0 ++ ["0"])%list
           ∧ fst (m false w0) = Ok tt) →
    ∀ e, (∀ w0, kv (snd (m true w0)) = kv w0 ∧ in_tx (snd (m true w0)) = in_tx w0
           ∧ tx_ops (snd (m true w0)) = (tx_ops w0 ++ [e])%list
           ∧ stdout (snd (m true w0)) = (stdout w0 ++ ["1"])%list
           ∧ fst (m true w0) = Ok tt) →
    ∃ w', (let* seen := _tx_exists_view k in m seen) w = (Ok tt, w')
      ∧ in_tx w' = true
      ∧ tx_ops w' = (tx_ops w ++ (if visible k w then [e] else []))%list
      ∧ stdout w' = (stdout w ++ [bit (visible k w)])%list
      ∧ (visible k w = true → kv w' = kv w)
      ∧ (visible k w = false → tx_buffer w' = tx_buffer w)
      ∧ (kv w' = kv w
         ∨ kv w' = snd (_is_alive k (clock w (ticks w)) (kv w)))) as Hview.
  { intros k m Hno e Hyes. unfold bind. rewrite tx_exists_view_eq.
    pose proof (visible_keeps_engine k w) as Hkeep.
    set (w1 := match tx_buffer w !! k with Some _ => w | None => _ end).
    assert (in_tx w1 = true ∧ tx_ops w1 = tx_ops w ∧ stdout w1 = stdout w
            ∧ tx_buffer w1 = tx_buffer w
            ∧ kv w1 = match tx_buffer w !! k with
                      | Some _ => kv w
                      | None => snd (_is_alive k (clock w (ticks w)) (kv w))
                      end) as (Ht1 & Ho1 & Hs1 & Hb1 & Hk1).
    { unfold w1. by destruct (tx_buffer w !! k). }
    destruct (visible k w) eqn:Ev.
    - destruct (Hyes w1) as (H1 & H2 & H3 & H4 & H5).
      destruct (m true w1) as [r w2]. cbn [fst snd] in *. subst r.
      exists w2. cbn [bit]. split; [done|]. split; [congruence|].
      split; [congruence|]. split; [congruence|].
      rewrite H1, Hk1, Hkeep by done.
      split; [done|]. split; [done|]. by left.
    - destruct (Hno w1) as (H1 & H2 & H3 & H4 & H5 & H6).
      destruct (m false w1) as [r w2]. cbn [fst snd] in *. subst r.
      exists w2. cbn [bit]. split; [done|]. split; [congruence|].
      rewrite List.app_nil_r. split; [congruence|]. split; [congruence|].
      split; [done|]. split; [congruence|]. rewrite H1, Hk1.
      destruct (tx_buffer w !! k); [by left|by right]. }
  destruct o as [k v|k|k ms|k]; cbn [issue recorded answer tx_key encode].
  - unfold handle_set. cbn [Py.join].
    destruct (Py.contains Py.LF v || Py.contains Py.CR v); cbn [negb].
    + eexists. split; [done|]. cbn. rewrite List.app_nil_r.
      do 5 (split; [done|]). by left.
    + unfold_m. rewrite Htx. eexists. split; [done|]. cbn.
      do 5 (split; [done|]). by left.
  - unfold handle_del. unfold bind at 1. unfold gets at 1. rewrite Htx.
    apply (Hview k (λ existed,
             do (if existed
                 then do modify (buffer_store k None) then
                      modify (ops_append ("DEL", [k]))
                 else ret tt) then _print (bit existed))); done.
  - unfold handle_expire. rewrite int_str.
    unfold bind at 1. unfold gets at 1. rewrite Htx.
    apply (Hview k (λ seen,
             if negb seen then _print "0"
             else do modify (ops_append ("EXPIRE", [k; Py.str ms])) then
                  _print "1")); done.
  - unfold handle_persist.
    unfold bind at 1. unfold gets at 1. rewrite Htx.
    apply (Hview k (λ seen,
             if negb seen then _print "0"
             else do modify (ops_append ("PERSIST", [k])) then _print "1"));
      done.
Qed.

Lemma op_log_sublist cmds w : op_log cmds w `sublist_of` cmds.
Proof.
  revert w. induction cmds as [|o rest IH]; intros w; [done|].
  cbn [op_log]. destruct (recorded o w); cbn [app].
  - apply sublist_skip, IH.
  - apply sublist_cons, IH.
Qed.

Lemma op_log_Forall (P : TxOp → Prop) cmds w :
  Forall P cmds → Forall P (op_log cmds w).
Proof.
  intros H. revert w. induction H as [|o rest Ho Hrest IH]; intros w; [done|].
  cbn [op_log]. destruct (recorded o w); cbn [app]; [constructor|]; auto.
Qed.

Lemma op_log_value_ok cmds w : Forall value_ok (op_log cmds w).
Proof.
  revert w. induction cmds as [|o rest IH]; intros w; [done|].
  cbn [op_log]. destruct (recorded o w) eqn:E; cbn [app]; [|apply IH].
  constructor; [|apply IH]. destruct o as [k v| | |]; [|done..].
  cbn in *. apply negb_true_iff, orb_false_iff in E. tauto.
Qed.

Lemma op_log_all o rest w :
  op_log (o :: rest) w = o :: rest →
  recorded o w = true ∧ op_log rest (snd (issue o w)) = rest.
Proof.
  cbn [op_log]. destruct (recorded o w); cbn [app].
  - intros [= E]. done.
  - intros E. pose proof (op_log_sublist rest (snd (issue o w))) as Hs.
    apply sublist_length in Hs. rewrite E in Hs. cbn in Hs. lia.
Qed.

Lemma op_log_sets cmds w :
  Forall (λ o, ∃ k v, o = TxSet k v ∧ Py.contains Py.LF v = false
                      ∧ Py.contains Py.CR v = false) cmds →
  op_log cmds w = cmds.
Proof.
  intros H. revert w.
  induction H as [|o rest (k & v & -> & Hlf & Hcr) Hrest IH]; intros w; [done|].
  cbn [op_log recorded]. rewrite Hlf, Hcr. cbn [orb negb app].
  by rewrite IH.
Qed.

Lemma issue_all_records cmds w :
  in_tx w = true →
  ∃ w', issue_all cmds w = (Ok tt, w')
    ∧ in_tx w' = true
    ∧ tx_ops w' = (tx_ops w ++ (encode <$> op_log cmds w))%list
    ∧ _log (kv w') = _log (kv w)
    ∧ _index (kv w') = _index (kv w)
    ∧ (op_log cmds w = cmds → kv w' = kv w).
Proof.
  revert w. induction cmds as [|o rest IH]; intros w Htx.
  { exists w. cbn. rewrite List.app_nil_r. done. }
  destruct (issue_records o w Htx) as (w1 & E1 & Htx1 & Hops1 & _ & Hrec & _ & Hkv).
  destruct (IH w1 Htx1) as (w' & E' & Htx' & Hops' & Hlog' & Hidx' & Hall').
  exists w'. cbn [issue_all op_log]. unfold bind. rewrite E1. cbn [snd].
  split; [done|]. split; [done|].
  assert (_log (kv w1) = _log (kv w) ∧ _index (kv w1) = _index (kv w))
    as [Hlog1 Hidx1].
  { destruct Hkv as [->| ->]; [done|].
    by rewrite _is_alive_log, _is_alive_index. }
  split; [|split; [congruence|split; [congruence|]]].
  - rewrite Hops', Hops1, fmap_app, <- app_assoc.
    by destruct (recorded o w).
  - intros Hall. pose proof (op_log_all o rest w) as Hhead.
    cbn [op_log] in Hhead. rewrite E1 in Hhead. cbn [snd] in Hhead.
    destruct (Hhead Hall) as [Hr Hrest].
    rewrite (Hall' Hrest). by apply Hrec.
Qed.

End overlay_writes.

(** ** The transaction overlay: abort *)

Section abort.
Import Engine Main Spec TxSpec.

Lemma handle_set_in_tx args w :
  in_tx w = true → kv (snd (handle_set args w)) = kv w.
Proof.
  intros Htx. unfold handle_set.
  destruct args as [|key [|v rest]]; [done..|].
  destruct (Py.contains Py.LF (Py.join " " (v :: rest))
            || Py.contains Py.CR (Py.join " " (v :: rest))); [done|].
  unfold_m. rewrite Htx. done.
Qed.

Lemma handle_abort_kv args w : kv (snd (handle_abort args w)) = kv w.
Proof. unfold handle_abort. unfold_m. by destruct (in_tx w). Qed.

Lemma handle_begin_kv args w : kv (snd (handle_begin args w)) = kv w.
Proof. unfold handle_begin. unfold_m. by destruct (in_tx w). Qed.

Lemma handle_begin_starts args w :
  fst (handle_begin args w) = Ok tt ∧ in_tx (snd (handle_begin args w)) = true.
Proof. unfold handle_begin. unfold_m. by destruct (in_tx w) eqn:E. Qed.

Lemma handle_set_keeps_tx args w :
  fst (handle_set args w) = Ok tt ∨ in_tx w = false.
Proof.
  unfold handle_set. destruct args as [|key [|v rest]]; [by left..|].
  destruct (Py.contains Py.LF (Py.join " " (v :: rest))
            || Py.contains Py.CR (Py.join " " (v :: rest))); [by left|].
  unfold_m. destruct (in_tx w); [by left|by right].
Qed.

(** C5.  Whatever the state before, [begin(); set(k, v); abort()] ends
    without an exception, in the Idle state with the buffer and the op-log
    empty, and with the engine, its log included, exactly as it was before
    [begin()].  A SET issued inside a transaction leaves the engine alone,
    [abort] leaves the engine alone in every state, and [abort] while Idle
    prints the "no transaction" error and changes nothing else.  Every
    write-like operation that a transaction buffers (a SET of a value of
    one line; a DEL, EXPIRE or PERSIST of a key the transaction view
    holds) leaves the engine exactly as it was and adds its own entry to
    the op-log.  An operation that is refused is not buffered and leaves
    the buffer, the op-log, the log file and the index as they were; the
    engine then is as it was or as the liveness check of the key left it.
    So [begin()], any write-like operations and [abort()] end in Idle with
    the buffer and the op-log empty and the log file and the index as
    they were, and with the whole engine as it was when every operation
    was buffered.  A refused DEL of a key whose deadline has elapsed does
    tombstone the key, as any read of it would: the last clause is that
    run. *)
Theorem abort_discards (w : World) (k v : string) :
  (let r := (do handle_begin [] then do handle_set [k; v] then handle_abort []) w in
   fst r = Ok tt
   ∧ kv (snd r) = kv w
   ∧ in_tx (snd r) = false
   ∧ tx_buffer (snd r) = ∅
   ∧ tx_ops (snd r) = []
   ∧ ticks (snd r) = ticks w)
  ∧ (∀ args w0, in_tx w0 = true → kv (snd (handle_set args w0)) = kv w0)
  ∧ (∀ args w0, kv (snd (handle_abort args w0)) = kv w0)
  ∧ (∀ args w0, in_tx w0 = false →
       handle_abort args w0 = (Ok tt, printed ERR_NO_TX w0))
  ∧ (∀ o w0, in_tx w0 = true → recorded o w0 = true →
       fst (issue o w0) = Ok tt
       ∧ kv (snd (issue o w0)) = kv w0
       ∧ tx_ops (snd (issue o w0)) = (tx_ops w0 ++ [encode o])%list)
  ∧ (∀ o w0, in_tx w0 = true → recorded o w0 = false →
       fst (issue o w0) = Ok tt
       ∧ tx_ops (snd (issue o w0)) = tx_ops w0
       ∧ tx_buffer (snd (issue o w0)) = tx_buffer w0
       ∧ _log (kv (snd (issue o w0))) = _log (kv w0)
       ∧ _index (kv (snd (issue o w0))) = _index (kv w0)
       ∧ (kv (snd (issue o w0)) = kv w0
          ∨ kv (snd (issue o w0))
            = snd (_is_alive (tx_key o) (clock w0 (ticks w0)) (kv w0))))
  ∧ (∀ cmds,
       let r := (do handle_begin [] then do issue_all cmds then handle_abort []) w in
       fst r = Ok tt
       ∧ in_tx (snd r) = false
       ∧ tx_buffer (snd r) = ∅
       ∧ tx_ops (snd r) = []
       ∧ _log (kv (snd r)) = _log (kv w)
       ∧ _index (kv (snd r)) = _index (kv w)
       ∧ (op_log cmds (snd (handle_begin [] w)) = cmds → kv (snd r) = kv w))
  ∧ (let w0 := mkWorld (mkKV {["a" := "1"]} (Storage.__init__ None) ∅ {["a" := 5]})
                       false ∅ [] [] (fun _ => 10) 0 in
     let r := (do handle_begin [] then do handle_del ["a"] then handle_abort []) w0 in
     stdout (snd r) = ["OK"; "0"; "OK"]
     ∧ kv (snd r) = expired_state "a" (kv w0)
     ∧ kv (snd r) ≠ kv w0).
Proof.
  split; [|split; [|split; [|split; [|split; [|split; [|split]]]]]].
  - unfold handle_begin, handle_set, handle_abort. unfold_m.
    destruct w as [e tx b o out c t].
    destruct (Py.contains Py.LF (Py.join " " [v])
              || Py.contains Py.CR (Py.join " " [v]));
      destruct tx; cbn; repeat split.
  - apply handle_set_in_tx.
  - apply handle_abort_kv.
  - intros args w0 E. unfold handle_abort. unfold_m. by rewrite E.
  - intros o w0 Htx Hrec.
    destruct (issue_records o w0 Htx) as (w' & -> & _ & Hops & _ & Hkv & _).
    rewrite Hrec in Hops. cbn [fst snd]. split; [done|]. split; [by apply Hkv|done].
  - intros o w0 Htx Hrec.
    destruct (issue_records o w0 Htx) as (w' & -> & _ & Hops & _ & _ & Hb & Hkv).
    rewrite Hrec, List.app_nil_r in Hops. cbn [fst snd].
    split; [done|]. split; [done|]. split; [by apply Hb|].
    split; [|split; [|done]].
    + destruct Hkv as [->| ->]; [done|by rewrite _is_alive_log].
    + destruct Hkv as [->| ->]; [done|by rewrite _is_alive_index].
  - intros cmds. cbv zeta.
    destruct (handle_begin_starts [] w) as [Hb1 Hb2].
    pose proof (handle_begin_kv [] w) as Hb3.
    destruct (handle_begin [] w) as [r0 w0] eqn:E0. cbn [fst snd] in *. subst r0.
    destruct (issue_all_records cmds w0 Hb2)
      as (w1 & E1 & Htx1 & _ & Hlog & Hidx & Hall).
    assert ((do handle_begin [] then do issue_all cmds then handle_abort []) w
            = (Ok tt, printed MSG_OK
                        (with_tx_ops [] (with_tx_buffer ∅ (with_in_tx false w1)))))
      as ->.
    { unfold bind. rewrite E0, E1. unfold handle_abort. unfold_m.
      by rewrite Htx1. }
    cbn. rewrite Hlog, Hidx, Hb3. do 6 (split; [done|]).
    intros Hrec. by rewrite Hall.
  - cbv zeta. split; [reflexivity|]. split; [reflexivity|].
    intros E. apply (f_equal _tombstones) in E. cbn in E.
    assert ("a" ∈ (∅ : gset string)) as Hin by (rewrite <- E; set_solver).
    set_solver.
Qed.

End abort.

(** ** The transaction overlay: commit *)

Section commit.
Import Engine Main Spec TxSpec.

Lemma get_default_log now key s :
  default_log s → default_log (snd (get now key s)).
Proof.
  intros H. rewrite get_eq. unfold default_log. cbn [snd].
  by rewrite _is_alive_log.
Qed.

Lemma expire_ok now key ms s :
  Storage._KEY_RE_match key = true → is_ok (fst (expire now key ms s)) = true.
Proof.
  intros Hk. destruct (decide (live now key s)) as [Hl|Hd].
  - rewrite expire_live by done. by rewrite Hk.
  - by rewrite expire_dead.
Qed.

Lemma expire_default_log now key ms s :
  default_log s → default_log (snd (expire now key ms s)).
Proof.
  intros Hcfg. destruct (decide (live now key s)) as [Hl|Hd].
  - rewrite expire_live by done. by destruct (Storage._KEY_RE_match key).
  - rewrite expire_dead by done. unfold default_log. cbn [snd].
    by rewrite _is_alive_log.
Qed.

Lemma persist_ok now key s :
  Storage._KEY_RE_match key = true → is_ok (fst (persist now key s)) = true.
Proof.
  intros Hk. destruct (decide (live now key s)) as [Hl|Hd].
  - rewrite persist_live by done. destruct (_ttl s !! key); [|done].
    by rewrite Hk.
  - by rewrite persist_dead.
Qed.

Lemma persist_default_log now key s :
  default_log s → default_log (snd (persist now key s)).
Proof.
  intros Hcfg. destruct (decide (live now key s)) as [Hl|Hd].
  - rewrite persist_live by done. destruct (_ttl s !! key); [|done].
    by destruct (Storage._KEY_RE_match key).
  - rewrite persist_dead by done. unfold default_log. cbn [snd].
    by rewrite _is_alive_log.
Qed.

Lemma apply_op_ok o w :
  default_log (kv w) → key_ok o → value_ok o →
  ∃ w', apply_op o w = (Ok tt, w') ∧ default_log (kv w').
Proof.
  intros Hcfg Hk Hv. destruct o as [k v|k|k ms|k]; cbn in Hk, Hv;
    unfold key_ok in Hk; cbn in Hk; cbn [apply_op].
  - unfold kv_set. unfold_m. rewrite set_ok by done. eexists. split; [done|].
    done.
  - unfold kv_delete, _now_ms. unfold_m. cbn.
    pose proof (delete_ok (clock w (ticks w)) k (kv w) Hk) as Hok.
    pose proof (delete_default_log (clock w (ticks w)) k (kv w) Hcfg) as Hc.
    destruct (delete (clock w (ticks w)) k (kv w)) as [[b|e] s']; [|done].
    eexists. split; [done|]. done.
  - unfold kv_expire, _now_ms. unfold_m. cbn.
    pose proof (expire_ok (clock w (ticks w)) k ms (kv w) Hk) as Hok.
    pose proof (expire_default_log (clock w (ticks w)) k ms (kv w) Hcfg) as Hc.
    destruct (expire (clock w (ticks w)) k ms (kv w)) as [[b|e] s']; [|done].
    eexists. split; [done|]. done.
  - unfold kv_persist, _now_ms. unfold_m. cbn.
    pose proof (persist_ok (clock w (ticks w)) k (kv w) Hk) as Hok.
    pose proof (persist_default_log (clock w (ticks w)) k (kv w) Hcfg) as Hc.
    destruct (persist (clock w (ticks w)) k (kv w)) as [[b|e] s']; [|done].
    eexists. split; [done|]. done.
Qed.

Lemma apply_in_order_ok ops w :
  default_log (kv w) → Forall key_ok ops → Forall value_ok ops →
  fst (apply_in_order ops w) = Ok tt.
Proof.
  revert w. induction ops as [|o ops IH]; intros w Hcfg Hk Hv; [done|].
  apply Forall_cons in Hk as [Hk Hks]. apply Forall_cons in Hv as [Hv Hvs].
  cbn [apply_in_order]. unfold bind.
  destruct (apply_op_ok o w Hcfg Hk Hv) as (w' & -> & Hcfg').
  by apply IH.
Qed.

Lemma commit_op_encode o w : commit_op (encode o) w = apply_op o w.
Proof.
  destruct o as [k v|k|k ms|k]; cbn; [done..| |done].
  by rewrite int_str.
Qed.

Lemma commit_loop_encode ops w :
  commit_loop (encode <$> ops) w = apply_in_order ops w.
Proof.
  revert w. induction ops as [|o ops IH]; intros w; [done|].
  cbn [fmap list_fmap commit_loop apply_in_order]. unfold bind.
  rewrite commit_op_encode.
  destruct (apply_op o w) as [[[]|e] w']; [apply IH|done].
Qed.

(** C4.  From the Idle state of an engine without length limits on its
    log, [begin()] and then write-like operations, whose keys [_KEY_RE]
    matches, open a transaction and buffer exactly the operations [ops]
    that [op_log] names, in the order they were issued: every SET of a
    value without line feed and carriage return, and every DEL, EXPIRE
    and PERSIST of a key for which the transaction view holds a value at
    the time it is issued; the others are refused and answered with 0 or
    the single-line error.  [commit()] then hands each operation of
    [ops], in that order, to the method of the engine that the handlers
    call outside a transaction, none of which raises, empties the buffer
    and the op-log, returns to Idle and prints OK.  When all operations
    are SETs of one-line values, all of them are applied.  [commit()] in
    the Idle state prints the "no transaction" error and changes nothing
    else. *)
Theorem commit_replays_in_order (w : World) (cmds : list TxOp)
    (Hidle : in_tx w = false)
    (Hcfg : default_log (kv w))
    (Hkeys : Forall key_ok cmds) :
  handle_commit [] w = (Ok tt, printed ERR_NO_TX w)
  ∧ (∃ w1 ops,
      (do handle_begin [] then issue_all cmds) w = (Ok tt, w1)
      ∧ in_tx w1 = true
      ∧ ops = op_log cmds (snd (handle_begin [] w))
      ∧ ops `sublist_of` cmds
      ∧ tx_ops w1 = encode <$> ops
      ∧ fst (apply_in_order ops w1) = Ok tt
      ∧ handle_commit [] w1
        = (Ok tt, idle_after MSG_OK (snd (apply_in_order ops w1))))
  ∧ (∀ o w0, in_tx w0 = true →
       fst (issue o w0) = Ok tt
       ∧ tx_ops (snd (issue o w0))
         = (tx_ops w0 ++ (if recorded o w0 then [encode o] else []))%list
       ∧ stdout (snd (issue o w0)) = (stdout w0 ++ [answer o w0])%list)
  ∧ (∀ w0, Forall (λ o, ∃ k v, o = TxSet k v
                         ∧ Py.contains Py.LF v = false
                         ∧ Py.contains Py.CR v = false) cmds →
           op_log cmds w0 = cmds).
Proof.
  split; [|split; [|split]].
  { unfold handle_commit. unfold_m. by rewrite Hidle. }
  - assert (handle_begin [] w
            = (Ok tt, printed MSG_OK
                        (with_tx_ops [] (with_tx_buffer ∅ (with_in_tx true w)))))
      as E0.
    { unfold handle_begin. unfold_m. by rewrite Hidle. }
    rewrite E0. cbn [snd]. set (w0 := printed MSG_OK _).
    destruct (issue_all_records cmds w0 eq_refl)
      as (w1 & E1 & Htx1 & Hops & Hlog & _ & _).
    cbn [tx_ops w0 printed with_stdout with_tx_ops app] in Hops.
    exists w1, (op_log cmds w0).
    split; [unfold bind; by rewrite E0|]. split; [done|]. split; [done|].
    split; [apply op_log_sublist|]. split; [done|].
    assert (default_log (kv w1)) as Hcfg1.
    { unfold default_log. by rewrite Hlog. }
    pose proof (apply_in_order_ok (op_log cmds w0) w1 Hcfg1
                  (op_log_Forall _ _ _ Hkeys) (op_log_value_ok _ _)) as Hok.
    split; [done|].
    unfold handle_commit. unfold_m. rewrite Htx1. cbn [negb].
    rewrite Hops, commit_loop_encode.
    destruct (apply_in_order (op_log cmds w0) w1) as [[[]|e] w2]; [|done].
    done.
  - intros o w0 Htx.
    destruct (issue_records o w0 Htx) as (w' & -> & _ & Hops & Hout & _).
    done.
  - intros w0. apply op_log_sets.
Qed.

(** A transaction of four operations from the Idle state of a fresh
    store: the deletion of a key that is not there is refused, the other
    three are buffered and committed in their order. *)
Lemma commit_replays_in_order_witness :
  ∃ w1,
    (do handle_begin [] then
     issue_all [TxSet "b" "x"; TxDel "zz"; TxExpire "b" 10; TxPersist "b"])
      (mkWorld (snd (__init__ None)) false ∅ [] [] (fun n => Z.of_nat n) 0)
    = (Ok tt, w1)
    ∧ tx_ops w1 = encode <$> [TxSet "b" "x"; TxExpire "b" 10; TxPersist "b"]
    ∧ handle_commit [] w1
      = (Ok tt, idle_after MSG_OK
                  (snd (apply_in_order
                          [TxSet "b" "x"; TxExpire "b" 10; TxPersist "b"] w1))).
Proof.
  destruct (proj1 (proj2 (commit_replays_in_order
    (mkWorld (snd (__init__ None)) false ∅ [] [] (fun n => Z.of_nat n) 0)
    [TxSet "b" "x"; TxDel "zz"; TxExpire "b" 10; TxPersist "b"]
    eq_refl (conj eq_refl eq_refl)
    ltac:(repeat constructor))))
    as (w1 & ops & Hrun & _ & Hops & _ & Hlog & _ & Hcommit).
  assert (ops = [TxSet "b" "x"; TxExpire "b" 10; TxPersist "b"]) as ->
    by (rewrite Hops; vm_compute; reflexivity).
  exists w1. split; [exact Hrun|]. split; [exact Hlog|exact Hcommit].
Defined.

End commit.

(** ** What RANGE yields *)

Section range_yield.
Import Engine Spec.

Lemma entry_le_trans : Transitive Index.entry_le.
Proof. intros x y z. unfold Index.entry_le. apply transitivity. Qed.

Lemma entry_le_total : Total Index.entry_le.
Proof. intros x y. unfold Index.entry_le. apply total, _. Qed.

Lemma items_elem idx k v : (k, v) ∈ Index.items idx ↔ idx !! k = Some v.
Proof.
  unfold Index.items. rewrite merge_sort_Permutation.
  apply elem_of_map_to_list.
Qed.

Lemma items_keys_NoDup idx : NoDup (Index.items idx).*1.
Proof.
  unfold Index.items. rewrite merge_sort_Permutation.
  apply NoDup_fst_map_to_list.
Qed.

Lemma items_keys_sorted idx : StronglySorted String.le (Index.items idx).*1.
Proof.
  apply (StronglySorted_fmap fst Index.entry_le); [done|].
  pose proof entry_le_trans. pose proof entry_le_total.
  apply StronglySorted_merge_sort; apply _.
Qed.

Lemma ltb_false_le a b : String.ltb a b = false ↔ String.le b a.
Proof.
  unfold String.le, String.ltb, String.leb.
  rewrite (String.compare_antisym b a).
  destruct (String.compare a b); cbn; split; done.
Qed.

Lemma is_empty_eq s : Py.is_empty s = true ↔ s = "".
Proof. destruct s; cbn; split; done. Qed.

Lemma shown_spec start end_ k :
  shown start end_ k = true ↔ hidden k = false ∧ in_bounds start end_ k.
Proof.
  unfold shown, in_bounds, Py.lt, Py.gt.
  rewrite !andb_true_iff, !negb_true_iff, !andb_false_iff, !negb_false_iff.
  rewrite !is_empty_eq, !ltb_false_le. tauto.
Qed.

Lemma filter_ext_elem {A} (P Q : A → Prop)
    `{!∀ x, Decision (P x), !∀ x, Decision (Q x)} (l : list A) :
  (∀ x, x ∈ l → (P x ↔ Q x)) → filter P l = filter Q l.
Proof.
  induction l as [|a l IH]; intros Hext; [done|].
  assert (filter P l = filter Q l) as E.
  { apply IH. intros x Hx. apply Hext. by right. }
  destruct (decide (P a)) as [Hp|Hp].
  - rewrite !filter_cons_True; [by rewrite E|by apply Hext; [left|]|done].
  - rewrite !filter_cons_False; [done| |done].
    intros Hq. apply Hp, Hext; [left|done].
Qed.

Lemma StronglySorted_filter_keep {A} (R : relation A) (P : A → Prop)
    `{!∀ x, Decision (P x)} (l : list A) :
  StronglySorted R l → StronglySorted R (filter P l).
Proof.
  induction 1 as [|x l Hl IH Hx]; [constructor|].
  destruct (decide (P x)).
  - rewrite filter_cons_True by done. constructor; [done|].
    apply Forall_forall. intros y Hy%list_elem_of_filter.
    rewrite Forall_forall in Hx. apply Hx. tauto.
  - by rewrite filter_cons_False.
Qed.

Lemma live_expired_other k k' now s :
  k' ≠ k → live now k' (expired_state k s) ↔ live now k' s.
Proof.
  intros Hne. unfold live, expired_state. cbn.
  rewrite lookup_delete_ne by done.
  assert (k' ∉ {[k]} ∪ _tombstones s ↔ k' ∉ _tombstones s) as -> by set_solver.
  done.
Qed.

Lemma range_loop_yield now start end_ entries s :
  NoDup entries.*1 →
  ∃ s', range_loop now start end_ entries s
        = (Ok (filter (λ k, shown start end_ k = true ∧ live now k s) entries.*1),
           s').
Proof.
  revert s. induction entries as [|[k v] rest IH]; intros s Hnd.
  { by exists s. }
  rewrite fmap_cons in Hnd. cbn [fst] in Hnd.
  apply NoDup_cons in Hnd as [Hk Hrest].
  rewrite fmap_cons. cbn [fst range_loop].
  assert (shown start end_ k = false →
          ∃ s', range_loop now start end_ rest s
                = (Ok (filter (λ k0, shown start end_ k0 = true ∧ live now k0 s)
                         (k :: rest.*1)), s')) as Hskip.
  { intros Hs. rewrite filter_cons_False by (intros [? _]; congruence).
    by apply IH. }
  unfold shown in Hskip.
  destruct (hidden k) eqn:Eh; [by apply Hskip|].
  destruct (negb (Py.is_empty start) && Py.lt k start) eqn:Es;
    [by apply Hskip|].
  destruct (negb (Py.is_empty end_) && Py.gt k end_) eqn:Ee;
    [by apply Hskip|].
  clear Hskip.
  assert (shown start end_ k = true) as Hshown
    by (unfold shown; by rewrite Eh, Es, Ee).
  unfold_m. destruct (decide (live now k s)) as [Hl|Hd].
  - rewrite _is_alive_live by done.
    destruct (IH s Hrest) as [s' ->]. exists s'.
    by rewrite filter_cons_True.
  - rewrite _is_alive_dead by done.
    match goal with |- context [range_loop now start end_ rest ?s1] =>
      destruct (IH s1 Hrest) as [s' ->];
      assert (∀ k', k' ∈ rest.*1 → (live now k' s1 ↔ live now k' s)) as Hsame
    end.
    { intros k' Hk'. assert (k' ≠ k) as Hne by (intros ->; done).
      case_bool_decide; [by apply live_expired_other|done]. }
    exists s'. rewrite filter_cons_False by tauto.
    do 2 f_equal. apply filter_ext_elem. intros k' Hk'.
    by rewrite (Hsame k' Hk').
Qed.

(** X1.  What [range_keys] yields, the generator run to its end: the keys in
    ascending order, none twice, and exactly those that are live at the
    time of the call, within the bounds and not hidden by the test on
    dashes and length. *)
Theorem range_keys_yield now start end_ s :
  ∃ ks s', range_keys now start end_ s = (Ok ks, s')
    ∧ StronglySorted String.le ks
    ∧ NoDup ks
    ∧ ∀ k, k ∈ ks ↔ live now k s ∧ in_bounds start end_ k ∧ hidden k = false.
Proof.
  unfold range_keys. unfold_m.
  destruct (range_loop_yield now start end_ (Index.items (_index s)) s
              (items_keys_NoDup _)) as [s' ->].
  eexists _, s'. split; [done|]. split; [|split].
  - apply StronglySorted_filter_keep, items_keys_sorted.
  - apply NoDup_filter, items_keys_NoDup.
  - intros k. rewrite list_elem_of_filter, shown_spec. split.
    + tauto.
    + intros (Hl & Hb & Hh). split; [tauto|].
      destruct Hl as (_ & [v Hv] & _).
      apply list_elem_of_fmap. exists (k, v). split; [done|].
      by apply items_elem.
Qed.

End range_yield.

(** ** Lines of the log *)

Section log_lines.
Import Storage LogSpec Spec.

Lemma sapp_cons c r s : String c r ++ s = String c (r ++ s).
Proof. reflexivity. Qed.

Lemma sapp_nil_r s : s ++ "" = s.
Proof. induction s as [|c r IH]; [done|]. by rewrite sapp_cons, IH. Qed.

Lemma sapp_assoc a b c : (a ++ b) ++ c = a ++ (b ++ c).
Proof. induction a as [|x a IH]; [done|]. by rewrite !sapp_cons, IH. Qed.

Lemma last_char_cons c r :
  r ≠ "" → last_char (String c r) = last_char r.
Proof. by destruct r. Qed.

Lemma last_char_app_nl s : last_char (s ++ nl) = Some Py.LF.
Proof.
  induction s as [|c r IH]; [done|]. rewrite sapp_cons, last_char_cons; [done|].
  by destruct r.
Qed.

Lemma readlines_nil s : readlines s = [] → s = "".
Proof.
  destruct s as [|c r]; [done|]. cbn [readlines].
  destruct (Py.is_char c Py.LF); [done|].
  destruct (Py.is_char c Py.CR).
  - destruct r as [|c' r']; [done|]. by destruct (Py.is_char c' Py.LF).
  - by destruct (readlines r).
Qed.

Lemma inline_chars c :
  inline c = true → Py.is_char c Py.LF = false ∧ Py.is_char c Py.CR = false.
Proof.
  unfold inline. intros [H1 H2]%andb_true_iff.
  by apply negb_true_iff in H1, H2.
Qed.

Lemma readlines_one_line l :
  one_line l = true → l ≠ "" → readlines l = [l].
Proof.
  induction l as [|c r IH]; [done|]. intros [Hc Hr]%andb_true_iff _.
  apply inline_chars in Hc as [Hlf Hcr]. cbn [readlines]. rewrite Hlf, Hcr.
  destruct r as [|c' r']; [done|]. by rewrite IH.
Qed.

Lemma readlines_terminated l :
  one_line l = true → readlines (l ++ nl) = [l ++ nl].
Proof.
  induction l as [|c r IH]; [done|]. intros [Hc Hr]%andb_true_iff.
  apply inline_chars in Hc as [Hlf Hcr].
  rewrite sapp_cons. cbn [readlines]. rewrite Hlf, Hcr. by rewrite IH.
Qed.

Lemma readlines_app_len n t u :
  (String.length t ≤ n)%nat → last_char t = Some Py.LF →
  readlines (t ++ u) = (readlines t ++ readlines u)%list.
Proof.
  revert t. induction n as [|n IH]; intros t Hn Hl.
  { destruct t; [done|]. cbn in Hn. lia. }
  destruct t as [|c r]; [done|]. cbn [String.length] in Hn.
  assert (r ≠ "" → readlines (r ++ u) = (readlines r ++ readlines u)%list) as IHr.
  { intros Hr. apply IH; [lia|]. by rewrite <- (last_char_cons c). }
  rewrite sapp_cons. cbn [readlines].
  destruct (Py.is_char c Py.LF) eqn:Hlf.
  { destruct r as [|c' r']; [done|]. by rewrite IHr. }
  destruct (Py.is_char c Py.CR) eqn:Hcr.
  - destruct r as [|c' r'].
    { cbn in Hl. injection Hl as ->. done. }
    rewrite sapp_cons. destruct (Py.is_char c' Py.LF) eqn:Hlf'.
    + destruct r' as [|c'' r'']; [done|].
      rewrite IH; [done|cbn in *; lia|].
      by rewrite <- (last_char_cons c'), <- (last_char_cons c).
    + rewrite <- sapp_cons. by rewrite IHr.
  - destruct r as [|c' r'].
    { cbn in Hl. injection Hl as ->. done. }
    rewrite IHr by done.
    destruct (readlines (String c' r')) as [|l0 ls] eqn:E; [|done].
    by apply readlines_nil in E.
Qed.

Lemma readlines_app t u :
  last_char t = Some Py.LF →
  readlines (t ++ u) = (readlines t ++ readlines u)%list.
Proof. by apply (readlines_app_len (String.length t)). Qed.

Lemma rstrip_app_keep p l s :
  Py.all_chars (λ c, negb (p c)) l = true →
  Py.rstrip_by p (l ++ s) = l ++ Py.rstrip_by p s.
Proof.
  induction l as [|c r IH]; [done|]. intros [Hc Hr]%andb_true_iff.
  rewrite !sapp_cons. cbn [Py.rstrip_by]. rewrite IH by done.
  apply negb_true_iff in Hc. by rewrite Hc, andb_false_r.
Qed.

Lemma one_line_no_lf l :
  one_line l = true → Py.all_chars (λ c, negb (Py.is_char c Py.LF)) l = true.
Proof.
  induction l as [|c r IH]; [done|]. intros [Hc Hr]%andb_true_iff.
  apply inline_chars in Hc as [Hlf _]. cbn. by rewrite Hlf, IH.
Qed.

Lemma rstrip_terminated l :
  one_line l = true → Py.rstrip_by (λ c, Py.is_char c Py.LF) (l ++ nl) = l.
Proof.
  intros H. rewrite rstrip_app_keep by by apply one_line_no_lf.
  cbn. apply sapp_nil_r.
Qed.

Lemma rstrip_one_line l :
  one_line l = true → Py.rstrip_by (λ c, Py.is_char c Py.LF) l = l.
Proof.
  intros H. rewrite <- (sapp_nil_r l) at 1.
  rewrite rstrip_app_keep by by apply one_line_no_lf.
  cbn. apply sapp_nil_r.
Qed.

End log_lines.

(** ** Writing a record and reading it back *)

Section log_round_trip.
Import Storage LogSpec Spec.

Lemma cut_space_app a b :
  Py.contains " " a = false → Py.cut_space (a ++ " " ++ b) = Some (a, b).
Proof.
  induction a as [|c r IH]; [done|]. cbn [Py.contains].
  intros [Hc Hr]%orb_false_iff. rewrite sapp_cons. cbn [Py.cut_space].
  rewrite Hc. by rewrite IH.
Qed.

Lemma cut_space_none a :
  Py.contains " " a = false → Py.cut_space a = None.
Proof.
  induction a as [|c r IH]; [done|]. cbn [Py.contains].
  intros [Hc Hr]%orb_false_iff. cbn [Py.cut_space]. rewrite Hc. by rewrite IH.
Qed.

Lemma nonspace_no_blank key :
  Py.all_chars nonspace key = true → Py.contains " " key = false.
Proof.
  induction key as [|c r IH]; [done|]. intros [Hc Hr]%andb_true_iff.
  cbn [Py.contains]. rewrite IH by done. rewrite orb_false_r.
  unfold nonspace in Hc. apply negb_true_iff in Hc.
  unfold Py.is_char. destruct (Ascii.eqb_spec c " ") as [->|]; [done|done].
Qed.

Lemma nonspace_before_final_lf key :
  Py.all_chars nonspace key = true → before_final_lf key = key.
Proof.
  induction key as [|c r IH]; [done|]. intros [Hc Hr]%andb_true_iff.
  cbn [before_final_lf]. destruct r as [|c' r'].
  - unfold nonspace in Hc. apply negb_true_iff in Hc.
    unfold Py.is_char. destruct (Ascii.eqb_spec c Py.LF) as [->|]; [done|done].
  - by rewrite IH.
Qed.

Lemma clean_key_matches key :
  clean_key key = true → _KEY_RE_match key = true.
Proof.
  unfold clean_key, _KEY_RE_match. intros [Hne Hns]%andb_true_iff.
  rewrite nonspace_before_final_lf by done. by rewrite Hne.
Qed.

Lemma clean_key_no_blank key :
  clean_key key = true → Py.contains " " key = false.
Proof.
  unfold clean_key. intros [_ Hns]%andb_true_iff. by apply nonspace_no_blank.
Qed.

Lemma split_three op key arg :
  Py.contains " " op = false → Py.contains " " key = false →
  Py.split_space 2 (op ++ " " ++ key ++ " " ++ arg) = [op; key; arg].
Proof.
  intros Ho Hk. cbn [Py.split_space].
  rewrite cut_space_app by done. by rewrite cut_space_app.
Qed.

Lemma split_two op key :
  Py.contains " " op = false → Py.contains " " key = false →
  Py.split_space 2 (op ++ " " ++ key) = [op; key].
Proof.
  intros Ho Hk. cbn [Py.split_space].
  rewrite cut_space_app by done. by rewrite cut_space_none.
Qed.

Lemma parse_written self r :
  unlimited self → written r →
  _parse_and_validate self (line_of r) = (true, r.1.1, r.1.2, r.2, "").
Proof.
  intros [Hkl Hvl] Hw. unfold _parse_and_validate.
  destruct Hw as [key value Hk Hv|key Hk|key abs_ms Hk|key Hk];
    pose proof (clean_key_matches key Hk) as Hm;
    pose proof (clean_key_no_blank key Hk) as Hb;
    cbn [line_of String.eqb Ascii.eqb Bool.eqb fst snd].
  - change ("SET " ++ key ++ " " ++ value)
      with ("SET" ++ " " ++ key ++ " " ++ value).
    rewrite split_three by done.
    cbn. rewrite Hm, Hkl, Hvl. done.
  - change ("DEL " ++ key) with ("DEL" ++ " " ++ key).
    rewrite split_two by done.
    cbn. rewrite Hm, Hkl. done.
  - change ("EXPIREAT " ++ key ++ " " ++ Py.str abs_ms)
      with ("EXPIREAT" ++ " " ++ key ++ " " ++ Py.str abs_ms).
    rewrite split_three by done.
    cbn. rewrite Hm, int_str. done.
  - change ("PERSIST " ++ key) with ("PERSIST" ++ " " ++ key).
    rewrite split_two by done.
    cbn. rewrite Hm, Hkl. done.
Qed.

Lemma all_chars_impl (p q : ascii → bool) s :
  (∀ c, p c = true → q c = true) →
  Py.all_chars p s = true → Py.all_chars q s = true.
Proof.
  intros Hpq. induction s as [|c r IH]; [done|].
  intros [Hc Hr]%andb_true_iff. cbn. by rewrite (Hpq c Hc), IH.
Qed.

Lemma all_chars_app p a b :
  Py.all_chars p (a ++ b) = Py.all_chars p a && Py.all_chars p b.
Proof.
  induction a as [|c r IH]; [done|]. rewrite sapp_cons. cbn.
  by rewrite IH, andb_assoc.
Qed.

Lemma nonspace_inline c : nonspace c = true → inline c = true.
Proof.
  unfold nonspace, inline, Py.is_char. intros H.
  destruct (Ascii.eqb_spec c Py.LF) as [->|]; [done|].
  destruct (Ascii.eqb_spec c Py.CR) as [->|]; done.
Qed.

Lemma str_nonspace n : Py.all_chars nonspace (Py.str n) = true.
Proof.
  unfold Py.str. destruct n as [|p|p]; [done|..];
    cbn [Z.to_int NilZero.string_of_int];
    rewrite nilzero_string by apply to_uint_not_nil.
  - apply digits_nonspace.
  - cbn. apply digits_nonspace.
Qed.

Lemma clean_key_one_line key : clean_key key = true → one_line key = true.
Proof.
  unfold clean_key. intros [_ H]%andb_true_iff.
  apply (all_chars_impl nonspace inline); [apply nonspace_inline|exact H].
Qed.

Lemma written_one_line r : written r → one_line (line_of r) = true.
Proof.
  intros [key value Hk Hv|key Hk|key abs_ms Hk|key Hk];
    apply clean_key_one_line in Hk;
    cbn [line_of String.eqb Ascii.eqb Bool.eqb]; unfold one_line in *;
    rewrite ?all_chars_app, ?Hk, ?Hv; try done.
  cbn. apply (all_chars_impl nonspace inline);
    [apply nonspace_inline|apply str_nonspace].
Qed.

Lemma written_not_empty r : written r → Py.is_empty (line_of r) = false.
Proof. by intros [key value Hk Hv|key Hk|key abs_ms Hk|key Hk]. Qed.

Lemma replay_lines_app self a b :
  replay_lines self (a ++ b) =
    match replay_lines self a with
    | (ra, Ok _) =>
        ((ra ++ (replay_lines self b).1)%list, (replay_lines self b).2)
    | (ra, Raise e) => (ra, Raise e)
    end.
Proof.
  induction a as [|raw a IH].
  { cbn. by destruct (replay_lines self b). }
  rewrite <- app_comm_cons. cbn [replay_lines].
  destruct (Py.is_empty _); [done|].
  destruct (_parse_and_validate self _) as [[[[[] op] key] arg] reason].
  - rewrite IH. by destruct (replay_lines self a) as [ra [[]|e]].
  - by destruct (strict self).
Qed.

Lemma replay_lines_written self r :
  unlimited self → written r →
  replay_lines self [line_of r ++ nl] = ([r], Ok tt)
  ∧ replay_lines self [line_of r] = ([r], Ok tt).
Proof.
  intros Hu Hw. cbn [replay_lines].
  rewrite rstrip_terminated, rstrip_one_line by by apply written_one_line.
  rewrite written_not_empty by done. rewrite parse_written by done.
  by destruct r as [[op key] arg].
Qed.

Lemma replay_appended lg r :
  complete (file lg) → unlimited lg → written r →
  ending (replay lg) = Ok tt →
  replay (with_file (Some (default "" (file lg) ++ line_of r ++ nl)) lg)
  = mkReplay (yielded (replay lg) ++ [r]) (Ok tt) false.
Proof.
  intros Hc Hu Hw Hend.
  assert (unlimited (with_file (Some (default "" (file lg) ++ line_of r ++ nl)) lg))
    as Hu' by done.
  destruct (replay_lines_written _ r Hu' Hw) as [Hline _].
  assert (warns_unterminated (default "" (file lg) ++ line_of r ++ nl) = false)
    as Hwarn.
  { unfold warns_unterminated.
    by rewrite <- sapp_assoc, last_char_app_nl. }
  unfold replay in *. cbn [file with_file]. rewrite Hwarn.
  destruct (file lg) as [text|] eqn:Ef; cbn [default from_option id] in *.
  - destruct Hc as [->|Hl].
    + change ("" ++ line_of r ++ nl) with (line_of r ++ nl) in *.
      rewrite readlines_terminated by by apply written_one_line.
      by rewrite Hline.
    + rewrite readlines_app by done.
      rewrite readlines_terminated by by apply written_one_line.
      rewrite replay_lines_app.
      assert (∀ l, replay_lines (with_file (Some (text ++ line_of r ++ nl)) lg) l
                   = replay_lines lg l) as Hsame.
      { intros l. induction l as [|raw l IH]; [done|]. cbn [replay_lines].
        rewrite IH. done. }
      rewrite Hline, Hsame.
      destruct (replay_lines lg (readlines text)) as [ra [[]|e]]; [done|].
      cbn in Hend. done.
  - change ("" ++ line_of r ++ nl) with (line_of r ++ nl) in *.
    rewrite readlines_terminated by by apply written_one_line.
    by rewrite Hline.
Qed.

Lemma one_line_contains_lf value :
  one_line value = true → Py.contains Py.LF value = false.
Proof.
  induction value as [|c r IH]; [done|]. intros [Hc Hr]%andb_true_iff.
  apply inline_chars in Hc as [Hlf _]. cbn. by rewrite Hlf, IH.
Qed.

Lemma append_line_reads_back lg r :
  complete (file lg) → unlimited lg → ending (replay lg) = Ok tt →
  written r → reads_back lg (_append_line (line_of r ++ nl)) r.
Proof.
  intros Hc Hu Hend Hw. unfold reads_back, _append_line. unfold_m.
  cbn [fst snd].
  split; [done|]. rewrite replay_appended by done. split; [done|].
  cbn [file with_file complete]. right.
  by rewrite <- sapp_assoc, last_char_app_nl.
Qed.

(** X2.  A record written by one of the four appends is the record that
    [replay] reads back, after those the log held: for a log without
    length limits whose file is absent, empty or ends with a line feed and
    whose replay ends without exception, a key without white space and a
    value without line feed and carriage return. *)
Theorem append_then_replay (lg : AppendOnlyLog) (key value : string) (abs_ms : Z)
    (Hc : complete (file lg)) (Hu : unlimited lg)
    (Hend : ending (replay lg) = Ok tt)
    (Hk : clean_key key = true) (Hv : one_line value = true) :
  reads_back lg (append_set key value) ("SET", key, value)
  ∧ reads_back lg (append_del key) ("DEL", key, "")
  ∧ reads_back lg (append_expireat key abs_ms) ("EXPIREAT", key, Py.str abs_ms)
  ∧ reads_back lg (append_persist key) ("PERSIST", key, "").
Proof.
  pose proof (clean_key_matches key Hk) as Hm.
  pose proof (λ r, append_line_reads_back lg r Hc Hu Hend) as Happ.
  split; [|split; [|split]].
  - destruct (Happ ("SET", key, value)) as (H1 & H2 & H3);
      [by constructor|].
    unfold reads_back. rewrite append_set_eq. unfold valid_set.
    destruct Hu as [-> ->]. rewrite Hm, one_line_contains_lf by done.
    cbn [negb andb Storage.longer_than fst snd].
    unfold _append_line in *. unfold_m.
    cbn [fst snd line_of String.eqb Ascii.eqb Bool.eqb] in *.
    rewrite !sapp_assoc in H2, H3. done.
  - destruct (Happ ("DEL", key, "")) as (H1 & H2 & H3); [by constructor|].
    unfold reads_back, append_del. rewrite Hm. cbn [negb]. done.
  - destruct (Happ ("EXPIREAT", key, Py.str abs_ms)) as (H1 & H2 & H3);
      [by constructor|].
    unfold reads_back, append_expireat. rewrite Hm. cbn [negb].
    unfold _append_line in *. unfold_m.
    cbn [fst snd line_of String.eqb Ascii.eqb Bool.eqb] in *.
    rewrite !sapp_assoc in H2, H3. done.
  - destruct (Happ ("PERSIST", key, "")) as (H1 & H2 & H3); [by constructor|].
    unfold reads_back, append_persist. rewrite Hm. cbn [negb]. done.
Qed.

(** The round trip on a store with no file yet, for a value with a
    space. *)
Lemma append_then_replay_witness :
  reads_back (__init__ None) (append_set "k" "v w") ("SET", "k", "v w").
Proof.
  refine (proj1 (append_then_replay (__init__ None) "k" "v w" 0 _ _ _ _ _));
    first [exact I | split; reflexivity | reflexivity].
Defined.

End log_round_trip.

(** ** What replay lets through *)

Section replay_records.
Import Storage LogSpec Spec.

Lemma parse_well_formed self line op key arg reason :
  _parse_and_validate self line = (true, op, key, arg, reason) →
  well_formed (op, key, arg).
Proof.
  unfold _parse_and_validate, well_formed.
  destruct (Py.split_space 2 line) as [|op0 rest]; [done|].
  destruct (String.eqb_spec op0 "SET") as [->|_].
  { destruct rest as [|k [|v [|? ?]]]; try done.
    destruct (_KEY_RE_match k) eqn:Hm; [|done]. cbn [negb].
    destruct (longer_than k (max_key_len self)); [done|].
    destruct (longer_than v (max_value_len self)); [done|].
    intros [= <- <- <- <-]. auto. }
  destruct (String.eqb_spec op0 "DEL") as [->|_].
  { cbn [orb]. destruct rest as [|k [|? ?]]; try done.
    destruct (_KEY_RE_match k) eqn:Hm; [|done]. cbn [negb].
    destruct (longer_than k (max_key_len self)); [done|].
    intros [= <- <- <- <-]. auto. }
  destruct (String.eqb_spec op0 "PERSIST") as [->|_].
  { cbn [orb]. destruct rest as [|k [|? ?]]; try done.
    destruct (_KEY_RE_match k) eqn:Hm; [|done]. cbn [negb].
    destruct (longer_than k (max_key_len self)); [done|].
    intros [= <- <- <- <-]. auto 6. }
  cbn [orb].
  destruct (String.eqb_spec op0 "EXPIREAT") as [->|_]; [|done].
  destruct rest as [|k [|v [|? ?]]]; try done.
  destruct (_KEY_RE_match k) eqn:Hm; [|done]. cbn [negb].
  destruct (Py.int v) as [n|] eqn:Hi; [|done].
  intros [= <- <- <- <-]. rewrite Hi. eauto 6.
Qed.

Lemma replay_lines_well_formed self lines :
  Forall well_formed (replay_lines self lines).1.
Proof.
  induction lines as [|raw lines IH]; [constructor|]. cbn [replay_lines].
  destruct (Py.is_empty _); [done|].
  destruct (_parse_and_validate self _) as [[[[[] op] key] arg] reason] eqn:E.
  - destruct (replay_lines self lines) as [recs r]. cbn [fst] in *.
    constructor; [|done]. by eapply parse_well_formed.
  - destruct (strict self); [constructor|done].
Qed.

(** X3.  Every record that [replay] yields, for any file and any
    configuration of the log, has a key that [_KEY_RE] matches and is a
    SET, a DEL or PERSIST with an empty argument, or an EXPIREAT whose
    argument [int] accepts; and [_load_from_log] therefore stores a
    deadline for every EXPIREAT record it is given.  [int] skips the
    white space of C and the Unicode white space above code point 127,
    not the separators 28 to 31: no EXPIREAT record whose argument starts
    with one of them is yielded, and of the file with the lines [SET k v]
    and [EXPIREAT k] followed by the separator 28 and [5] only the SET
    record is. *)
Theorem replay_yields_well_formed (lg : AppendOnlyLog) :
  Forall well_formed (yielded (replay lg))
  ∧ (∀ s key arg, ("EXPIREAT", key, arg) ∈ yielded (replay lg) →
       ∃ abs_ms, Py.int arg = Some abs_ms
         ∧ Engine._ttl (Engine.apply_record s ("EXPIREAT", key, arg)) !! key
           = Some abs_ms)
  ∧ (∀ key c r, Py.is_space c = true → Py.is_int_space c = false →
       ("EXPIREAT", key, String c r) ∉ yielded (replay lg))
  ∧ yielded (replay (__init__ (Some ("SET k v" ++ nl ++ "EXPIREAT k "
                                     ++ String "028" "5" ++ nl))))
    = [("SET", "k", "v")].
Proof.
  assert (Forall well_formed (yielded (replay lg))) as H.
  { unfold replay. destruct (file lg) as [text|]; [|constructor].
    pose proof (replay_lines_well_formed lg (readlines text)) as H.
    by destruct (replay_lines lg (readlines text)). }
  assert (∀ key arg, ("EXPIREAT", key, arg) ∈ yielded (replay lg) →
                     is_Some (Py.int arg)) as Hint.
  { intros key arg Hin. rewrite Forall_forall in H.
    destruct (H _ Hin) as [_ Hop].
    by destruct Hop as [?|[[? _]|[[_ ?]|[? _]]]]. }
  split; [done|]. split; [|split; [|reflexivity]].
  - intros s key arg Hin. destruct (Hint key arg Hin) as [n Hn].
    exists n. split; [done|]. cbn. rewrite Hn. cbn. apply lookup_insert_eq.
  - intros key c r Hs Hi Hin. destruct (Hint key _ Hin) as [n Hn].
    rewrite int_separator in Hn by done. done.
Qed.

Lemma one_line_last l : one_line l = true → last_char l ≠ Some Py.LF.
Proof.
  induction l as [|c r IH]; [done|]. intros [Hc Hr]%andb_true_iff.
  apply inline_chars in Hc as [Hlf _]. destruct r as [|c' r'].
  - cbn. intros [= ->]. done.
  - rewrite last_char_cons by done. by apply IH.
Qed.

Lemma last_char_app t u : u ≠ "" → last_char (t ++ u) = last_char u.
Proof.
  intros Hu. induction t as [|c t IH]; [done|].
  rewrite sapp_cons, last_char_cons; [done|].
  destruct t; [by destruct u|done].
Qed.

(** X4.  An unterminated last line is replayed like any other: when the text
    before it is complete and the line is one that an append writes, its
    record is yielded after those of the text before it. *)
Theorem replay_yields_unterminated_record (lg : AppendOnlyLog) (text : string)
    (r : record)
    (Hfile : file lg = Some text) (Hc : complete (Some text))
    (Hu : unlimited lg) (Hw : written r)
    (Hend : ending (replay lg) = Ok tt) :
  yielded (replay (with_file (Some (text ++ line_of r)) lg))
  = (yielded (replay lg) ++ [r])%list
  ∧ ending (replay (with_file (Some (text ++ line_of r)) lg)) = Ok tt
  ∧ last_char (text ++ line_of r) ≠ Some Py.LF.
Proof.
  assert (unlimited (with_file (Some (text ++ line_of r)) lg)) as Hu' by done.
  destruct (replay_lines_written _ r Hu' Hw) as [_ Hline].
  assert (∀ l, replay_lines (with_file (Some (text ++ line_of r)) lg) l
               = replay_lines lg l) as Hsame.
  { intros l. induction l as [|raw l IH]; [done|]. cbn [replay_lines].
    by rewrite IH. }
  assert (line_of r ≠ "") as Hne.
  { intros E. pose proof (written_not_empty r Hw) as H. by rewrite E in H. }
  assert (readlines (line_of r) = [line_of r]) as Hrl
    by (apply readlines_one_line; [by apply written_one_line|done]).
  assert (last_char (text ++ line_of r) ≠ Some Py.LF) as Hlast.
  { rewrite last_char_app by done. by apply one_line_last, written_one_line. }
  unfold replay in *. rewrite Hfile in *. cbn [file with_file].
  destruct Hc as [->|Hl].
  - change ("" ++ line_of r) with (line_of r) in *. rewrite Hrl, Hline.
    cbn. done.
  - rewrite readlines_app, Hrl, replay_lines_app by done.
    rewrite Hline, Hsame.
    destruct (replay_lines lg (readlines text)) as [ra [[]|e]];
      [|by cbn in Hend].
    cbn [yielded ending fst snd]. done.
Qed.

(** A log of one complete line with a second line cut before its
    terminator. *)
Lemma replay_yields_unterminated_record_witness :
  yielded (replay (with_file (Some (("SET a 1" ++ nl) ++ line_of ("SET", "b", "2")))
                     (__init__ (Some ("SET a 1" ++ nl)))))
  = (yielded (replay (__init__ (Some ("SET a 1" ++ nl)%string)))
     ++ [("SET", "b", "2")])%list.
Proof.
  refine (proj1 (replay_yields_unterminated_record
    (__init__ (Some ("SET a 1" ++ nl))) ("SET a 1" ++ nl) ("SET", "b", "2")
    _ _ _ _ _)).
  - reflexivity.
  - right. reflexivity.
  - split; reflexivity.
  - constructor; reflexivity.
  - reflexivity.
Defined.

Lemma replay_blank_line lg text :
  file lg = Some text → last_char text = Some Py.LF →
  replay (with_file (Some (text ++ nl)) lg) = replay lg.
Proof.
  intros Hf Hl. unfold replay. rewrite Hf. cbn [file with_file].
  assert (∀ l, replay_lines (with_file (Some (text ++ nl)) lg) l
               = replay_lines lg l) as Hsame.
  { intros l. induction l as [|raw l IH]; [done|]. cbn [replay_lines].
    by rewrite IH. }
  rewrite readlines_app, replay_lines_app, !Hsame by done.
  unfold warns_unterminated. rewrite last_char_app_nl, Hl.
  destruct (replay_lines lg (readlines text)) as [ra [[]|e]]; [|done].
  cbn. by rewrite List.app_nil_r.
Qed.

Lemma before_final_lf_app_nl key : before_final_lf (key ++ nl) = key.
Proof.
  induction key as [|c r IH]; [done|]. rewrite sapp_cons.
  cbn [before_final_lf]. destruct (r ++ nl) as [|a t] eqn:E.
  - by destruct r.
  - by rewrite IH.
Qed.

(** X5.  [_KEY_RE] lets a key through that ends with a line feed, its [$]
    matching before it.  For a key [key] without white space, [append_del]
    therefore accepts [key] followed by a line feed, and what it writes
    reads back as the DEL record of [key] itself. *)
Theorem append_del_trailing_line_feed (lg : AppendOnlyLog) (key : string)
    (Hc : complete (file lg)) (Hu : unlimited lg)
    (Hend : ending (replay lg) = Ok tt)
    (Hk : clean_key key = true) :
  _KEY_RE_match (key ++ nl) = true
  ∧ fst (append_del (key ++ nl) lg) = Ok tt
  ∧ replay (snd (append_del (key ++ nl) lg))
    = mkReplay (yielded (replay lg) ++ [("DEL", key, "")]) (Ok tt) false.
Proof.
  assert (_KEY_RE_match (key ++ nl) = true) as Hm.
  { unfold _KEY_RE_match. rewrite before_final_lf_app_nl. exact Hk. }
  split; [done|]. unfold append_del. rewrite Hm. cbn [negb].
  unfold _append_line. unfold_m. cbn [fst snd]. split; [done|].
  destruct (append_line_reads_back lg ("DEL", key, "") Hc Hu Hend)
    as (_ & Hr & Hcomp); [by constructor|].
  unfold _append_line in Hr, Hcomp. unfold_m.
  change (line_of ("DEL", key, "") ++ nl) with ("DEL " ++ key ++ nl) in Hr, Hcomp.
  cbn [fst snd file with_file complete] in Hr, Hcomp.
  destruct Hcomp as [Hcomp|Hcomp].
  { exfalso. clear -Hcomp. destruct (default "" (file lg)); discriminate. }
  etrans; [|exact Hr].
  rewrite <- (replay_blank_line
    (with_file (Some (default "" (file lg) ++ "DEL " ++ key ++ nl)) lg)
    (default "" (file lg) ++ "DEL " ++ key ++ nl)) by done.
  cbn [with_file file max_key_len max_value_len strict].
  by rewrite !sapp_assoc.
Qed.

(** The key "k" followed by a line feed on a store with no file yet. *)
Lemma append_del_trailing_line_feed_witness :
  replay (snd (append_del ("k" ++ nl) (__init__ None)))
  = mkReplay (yielded (replay (__init__ None)) ++ [("DEL", "k", "")]) (Ok tt) false.
Proof.
  refine (proj2 (proj2 (append_del_trailing_line_feed (__init__ None) "k" _ _ _ _)));
    first [exact I | split; reflexivity | reflexivity].
Defined.

End replay_records.

(** ** The log only grows, and reads never write it *)

Section log_growth.
Import Engine Spec EngineSpec.

Lemma range_loop_log now start end_ entries s :
  _log (snd (range_loop now start end_ entries s)) = _log s
  ∧ _index (snd (range_loop now start end_ entries s)) = _index s.
Proof.
  revert s. induction entries as [|[k v] rest IH]; intros s; [done|].
  cbn [range_loop].
  destruct (hidden k); [apply IH|].
  destruct (negb (Py.is_empty start) && Py.lt k start); [apply IH|].
  destruct (negb (Py.is_empty end_) && Py.gt k end_); [apply IH|].
  unfold_m.
  pose proof (_is_alive_log k now s) as Hl.
  pose proof (_is_alive_index k now s) as Hi.
  destruct (_is_alive k now s) as [[alive|e] s1]; [|done].
  cbn [snd] in Hl, Hi. destruct (IH s1) as [IHl IHi].
  destruct (range_loop now start end_ rest s1) as [[ks|e] s2];
    cbn [snd] in *; split; congruence.
Qed.

Lemma read_keeps_log now c s :
  is_read c = true →
  _log (after now c s) = _log s ∧ _index (after now c s) = _index s.
Proof.
  destruct c as [k v|k|k|k|k ms|k|k|a b]; try done; intros _; cbn [after].
  - rewrite get_eq. cbn [snd]. by rewrite _is_alive_log, _is_alive_index.
  - unfold exists_. by rewrite _is_alive_log, _is_alive_index.
  - destruct (decide (live now k s)) as [Hl|Hd].
    + by rewrite ttl_live.
    + rewrite ttl_dead by done. cbn [snd].
      by rewrite _is_alive_log, _is_alive_index.
  - unfold range_keys. unfold_m. apply range_loop_log.
Qed.

Lemma log_grown_same s s' : _log s' = _log s → log_grown s s'.
Proof.
  intros E. unfold log_grown, log_text. rewrite E. split; [|done].
  exists "". by rewrite sapp_nil_r.
Qed.

Lemma log_grown_add line s s' :
  _log s' = Storage.with_file (Some (log_text s ++ line)) (_log s) →
  log_grown s s'.
Proof.
  intros E. unfold log_grown. unfold log_text at 1. rewrite E.
  split; [|done]. by exists line.
Qed.

(** X6.  Every call leaves the text the log file held as a prefix of the text
    it holds afterwards and leaves the configuration of the log alone;
    [get], [exists], [ttl] and [range] leave the log and the index exactly
    as they were, also when they find keys expired; and no call but [set]
    changes the index. *)
Theorem log_only_grows (now : Z) (c : Call) (s : KVEngine) :
  log_grown s (after now c s)
  ∧ (is_read c = true → _log (after now c s) = _log s)
  ∧ ((∀ k v, c ≠ CallSet k v) → _index (after now c s) = _index s).
Proof.
  assert (is_read c = true ∨ is_read c = false) as [Hr|Hw]
    by (destruct (is_read c); auto).
  { destruct (read_keeps_log now c s Hr) as [Hl Hi].
    split; [by apply log_grown_same|done]. }
  destruct c as [k v|k|k|k|k ms|k|k|a b]; try done; cbn [after].
  - split; [|split; [done|intros Hns; by destruct (Hns k v)]].
    rewrite set_eq. destruct (valid_set (_log s) k v).
    + by eapply log_grown_add.
    + by apply log_grown_same.
  - destruct (decide (live now k s)) as [Hl|Hd].
    + rewrite delete_live by done.
      destruct (Storage._KEY_RE_match k);
        (split; [|done]); [by eapply log_grown_add|by apply log_grown_same].
    + rewrite delete_dead by done. cbn [snd].
      split; [apply log_grown_same, _is_alive_log|].
      split; [done|]. intros _. apply _is_alive_index.
  - destruct (decide (live now k s)) as [Hl|Hd].
    + rewrite expire_live by done.
      destruct (Storage._KEY_RE_match k);
        (split; [|done]); [by eapply log_grown_add|by apply log_grown_same].
    + rewrite expire_dead by done. cbn [snd].
      split; [apply log_grown_same, _is_alive_log|].
      split; [done|]. intros _. apply _is_alive_index.
  - destruct (decide (live now k s)) as [Hl|Hd].
    + rewrite persist_live by done. destruct (_ttl s !! k).
      * destruct (Storage._KEY_RE_match k);
          (split; [|done]); [by eapply log_grown_add|by apply log_grown_same].
      * split; [by apply log_grown_same|done].
    + rewrite persist_dead by done. cbn [snd].
      split; [apply log_grown_same, _is_alive_log|].
      split; [done|]. intros _. apply _is_alive_index.
Qed.

End log_growth.

(** ** An expired key stays dead until it is set again *)

Section dead_until_set.
Import Engine Spec EngineSpec.

Lemma _is_alive_tombstones key now s k :
  k ∈ _tombstones s → k ∈ _tombstones (snd (_is_alive key now s)).
Proof.
  intros H. destruct (_is_alive_state key now s) as [-> | ->]; [done|].
  cbn. set_solver.
Qed.

Lemma range_loop_tombstones now start end_ entries s k :
  k ∈ _tombstones s →
  k ∈ _tombstones (snd (range_loop now start end_ entries s)).
Proof.
  revert s. induction entries as [|[k' v] rest IH]; intros s H; [done|].
  cbn [range_loop].
  destruct (hidden k'); [by apply IH|].
  destruct (negb (Py.is_empty start) && Py.lt k' start); [by apply IH|].
  destruct (negb (Py.is_empty end_) && Py.gt k' end_); [by apply IH|].
  unfold_m.
  pose proof (_is_alive_tombstones k' now s k H) as H1.
  destruct (_is_alive k' now s) as [[alive|e] s1]; [|done].
  cbn [snd] in H1. specialize (IH s1 H1).
  by destruct (range_loop now start end_ rest s1) as [[ks|e] s2].
Qed.

Lemma tombstone_kept now c s k :
  k ∈ _tombstones s → no_set_of k c → k ∈ _tombstones (after now c s).
Proof.
  intros H Hc. destruct c as [k' v|k'|k'|k'|k' ms|k'|k'|a b]; cbn [after].
  - rewrite set_eq. destruct (valid_set (_log s) k' v); [|done].
    cbn in Hc |- *. set_solver.
  - rewrite get_eq. by apply _is_alive_tombstones.
  - destruct (decide (live now k' s)) as [Hl|Hd].
    + rewrite delete_live by done.
      destruct (Storage._KEY_RE_match k'); cbn; set_solver.
    + rewrite delete_dead by done. by apply _is_alive_tombstones.
  - by apply _is_alive_tombstones.
  - destruct (decide (live now k' s)) as [Hl|Hd].
    + rewrite expire_live by done. by destruct (Storage._KEY_RE_match k').
    + rewrite expire_dead by done. by apply _is_alive_tombstones.
  - destruct (decide (live now k' s)) as [Hl|Hd].
    + by rewrite ttl_live.
    + rewrite ttl_dead by done. by apply _is_alive_tombstones.
  - destruct (decide (live now k' s)) as [Hl|Hd].
    + rewrite persist_live by done. destruct (_ttl s !! k'); [|done].
      by destruct (Storage._KEY_RE_match k').
    + rewrite persist_dead by done. by apply _is_alive_tombstones.
  - unfold range_keys. unfold_m. by apply range_loop_tombstones.
Qed.

(** X7.  Once the liveness check has come upon the elapsed deadline of a key,
    the key is tombstoned; a tombstoned key is live at no time, whatever
    the clock reads; and it stays tombstoned through every call, at any
    time, that is not a [set] of that key: neither [expire] nor [persist]
    brings a key back. *)
Theorem expired_stays_dead (key : string) (now : Z) (s : KVEngine) :
  (∀ e, key ∉ _tombstones s → is_Some (_index s !! key) →
        _ttl s !! key = Some e → e ≤ now →
        key ∈ _tombstones (snd (_is_alive key now s)))
  ∧ (key ∈ _tombstones s →
     ∀ later, ¬ live later key s
              ∧ fst (get later key s) = Ok None
              ∧ fst (ttl later key s) = Ok (-2)
              ∧ fst (expire later key now s) = Ok false
              ∧ fst (persist later key s) = Ok false)
  ∧ (key ∈ _tombstones s →
     ∀ later c, no_set_of key c → key ∈ _tombstones (after later c s)).
Proof.
  split; [|split].
  - intros e Ht [v Hv] He Hle. rewrite _is_alive_eq.
    rewrite bool_decide_eq_false_2 by done. rewrite Hv, He.
    assert ((now <? e) = false) as -> by (apply Z.ltb_ge; lia).
    cbn. set_solver.
  - intros Ht later.
    assert (¬ live later key s) as Hd by (intros (Hn & _); done).
    split; [done|]. rewrite get_eq, decide_False by done.
    rewrite ttl_dead, expire_dead, persist_dead by done. done.
  - intros Ht later c Hc. by apply tombstone_kept.
Qed.

End dead_until_set.

(** ** SET on a key with an elapsed deadline; EXPIRE, TTL and PERSIST *)

Section deadlines.
Import Engine Spec EngineSpec.

(** X8.  [set] lifts a tombstone but keeps the deadline: after a [set] that
    succeeded, [get] returns the value exactly when the key held no
    deadline that has elapsed at the time of the [get]; with such a
    deadline the key that was just set reads as absent and the read
    tombstones it. *)
Theorem set_keeps_deadline (s : KVEngine) (key value : string) (now : Z)
    (Hok : fst (set key value s) = Ok tt) :
  (fst (get now key (snd (set key value s))) = Ok (Some value)
   ↔ ∀ e, _ttl s !! key = Some e → now < e)
  ∧ ((∃ e, _ttl s !! key = Some e ∧ e ≤ now) →
     fst (get now key (snd (set key value s))) = Ok None
     ∧ key ∈ _tombstones (snd (get now key (snd (set key value s))))).
Proof.
  rewrite set_eq in *. destruct (valid_set (_log s) key value); [|done].
  clear Hok. cbn [snd].
  match goal with |- context [get now key ?s1] => set (s1' := s1) end.
  assert (live now key s1' ↔ ∀ e, _ttl s !! key = Some e → now < e) as Hlive.
  { unfold live, s1'. cbn. rewrite lookup_insert_eq. split; [tauto|].
    intros H. split; [set_solver|]. split; [eauto|done]. }
  split.
  - rewrite get_eq. cbn [fst]. destruct (decide (live now key s1')) as [Hl|Hd].
    + split; [intros _; exact (proj1 Hlive Hl)|]. intros _.
      unfold s1'. cbn. by rewrite lookup_insert_eq.
    + split; [done|]. intros H. destruct (Hd (proj2 Hlive H)).
  - intros (e & He & Hle).
    assert (¬ live now key s1') as Hd.
    { intros Hl. pose proof (proj1 Hlive Hl e He). lia. }
    rewrite get_eq, decide_False by done. split; [done|]. cbn [snd].
    rewrite _is_alive_eq. unfold s1'. cbn.
    rewrite bool_decide_eq_false_2 by set_solver.
    rewrite lookup_insert_eq, He.
    assert ((now <? e) = false) as -> by (apply Z.ltb_ge; lia).
    cbn. set_solver.
Qed.

(** A key with an elapsed deadline, set again and read. *)
Lemma set_keeps_deadline_witness :
  fst (get 10 "a" (snd (set "a" "2" (mkKV {["a" := "1"]} (Storage.__init__ None)
                                          ∅ {["a" := 5]}))))
  = Ok None.
Proof.
  refine (proj1 (proj2 (set_keeps_deadline
    (mkKV {["a" := "1"]} (Storage.__init__ None) ∅ {["a" := 5]}) "a" "2" 10 _) _)).
  - reflexivity.
  - exists 5. split; [reflexivity|lia].
Defined.

(** X9.  On a live key that [_KEY_RE] matches, [expire] at [now] succeeds;
    before the deadline [now + ms], [ttl] answers the time left and
    [get] the value the index holds, and [persist] succeeds, after
    which [ttl] answers -1 at every time; from the deadline on, [ttl]
    answers -2 and [get] finds the key absent. *)
Theorem expire_then_ttl (s : KVEngine) (key : string) (ms now later : Z)
    (Hl : live now key s) (Hk : Storage._KEY_RE_match key = true) :
  fst (expire now key ms s) = Ok true
  ∧ (later < now + ms →
     fst (ttl later key (snd (expire now key ms s))) = Ok (now + ms - later)
     ∧ fst (get later key (snd (expire now key ms s))) = Ok (_index s !! key)
     ∧ fst (persist later key (snd (expire now key ms s))) = Ok true
     ∧ ∀ t, fst (ttl t key (snd (persist later key (snd (expire now key ms s)))))
            = Ok (-1))
  ∧ (now + ms ≤ later →
     fst (ttl later key (snd (expire now key ms s))) = Ok (-2)
     ∧ fst (get later key (snd (expire now key ms s))) = Ok None).
Proof.
  rewrite expire_live by done. rewrite Hk. cbn [fst snd].
  match goal with |- context [ttl later key ?s1] => set (s1' := s1) end.
  destruct Hl as (Ht & Hi & _).
  assert (∀ t, live t key s1' ↔ t < now + ms) as Hlive.
  { intros t. unfold live, s1'. cbn. rewrite lookup_insert_eq. split.
    - intros (_ & _ & H). by apply H.
    - intros H. split; [done|]. split; [done|]. by intros ? [= <-]. }
  split; [done|]. split.
  - intros Hlt. pose proof (proj2 (Hlive later) Hlt) as Hlv.
    assert (_ttl s1' !! key = Some (now + ms)) as Htt
      by apply lookup_insert_eq.
    rewrite ttl_live, get_eq, decide_True, persist_live by done.
    rewrite Htt, Hk. cbn [fst snd].
    do 3 (split; [done|]). intros t.
    rewrite ttl_live; [cbn; by rewrite lookup_delete_eq|].
    split; [done|]. split; [done|]. cbn. rewrite lookup_delete_eq. done.
  - intros Hle.
    assert (¬ live later key s1') as Hd by (rewrite Hlive; lia).
    by rewrite ttl_dead, get_eq, decide_False by done.
Qed.

(** A deadline of 50 given at 100 to a key of a fresh store. *)
Lemma expire_then_ttl_witness :
  fst (ttl 120 "a" (snd (expire 100 "a" 50 (snd (set "a" "1" (snd (__init__ None)))))))
  = Ok (100 + 50 - 120).
Proof.
  refine (proj1 (proj1 (proj2 (expire_then_ttl
    (snd (set "a" "1" (snd (__init__ None)))) "a" 50 100 120 _ _)) _)).
  - split; [vm_compute; set_solver|]. split; [by exists "1"|].
    intros e He. vm_compute in He. discriminate.
  - reflexivity.
  - lia.
Defined.

End deadlines.

(** ** A restart reproduces the engine while no expiry was observed *)

Ltac eng_cbn :=
  cbn [Engine._index Engine._log Engine._tombstones Engine._ttl
       Engine.with_log Engine.with_index Engine.with_tombstones Engine.with_ttl
       Engine.ttl_store Engine.ttl_pop Engine.tombstones_add
       Engine.tombstones_discard Engine.index_set Engine.apply_record
       Spec.expired_state String.eqb Ascii.eqb Bool.eqb fst snd];
  unfold Index.empty, Index.set, Index.get.

Section restart.
Import Engine Spec LogSpec EngineSpec.

Lemma apply_record_with_log lg s r :
  apply_record (with_log lg s) r = with_log lg (apply_record s r).
Proof.
  destruct r as [[op key] arg]. unfold apply_record.
  repeat case_match; done.
Qed.

Lemma replay_with_log lg recs s :
  fold_left apply_record recs (with_log lg s)
  = with_log lg (fold_left apply_record recs s).
Proof.
  revert s. induction recs as [|r recs IH]; intros s; [done|].
  cbn [fold_left]. by rewrite apply_record_with_log, IH.
Qed.

Lemma synced_iff s :
  synced s ↔
  Storage.ending (Storage.replay (_log s)) = Ok tt
  ∧ recover (_log s) (Storage.yielded (Storage.replay (_log s))) = s.
Proof.
  unfold synced, _load_from_log, recover.
  change (with_ttl ∅ (with_tombstones ∅ (with_index Index.empty s)))
    with (mkKV ∅ (_log s) ∅ ∅).
  cbn [_log]. split.
  - intros [= H1 H2]. done.
  - intros [H1 H2]. by rewrite H1, H2.
Qed.

Lemma synced_append s r :
  synced s → complete (Storage.file (_log s)) → default_log s → written r →
  synced (with_log
            (Storage.with_file (Some (log_text s ++ line_of r ++ Storage.nl)) (_log s))
            (apply_record s r)).
Proof.
  intros [Hend Hrec]%synced_iff Hc Hu Hw. apply synced_iff.
  assert (∀ lg s0 r0, _log (with_log lg (apply_record s0 r0)) = lg) as Hlog.
  { intros lg s0 [[op key] arg]. rewrite <- apply_record_with_log.
    unfold apply_record. repeat case_match; done. }
  rewrite Hlog. unfold log_text.
  rewrite replay_appended by done. cbn [Storage.ending Storage.yielded].
  split; [done|]. unfold recover in *. rewrite fold_left_app. cbn [fold_left].
  match goal with |- apply_record (fold_left _ _ ?s0) r = _ =>
    change s0 with (with_log (Storage.with_file
      (Some (default "" (Storage.file (_log s)) ++ line_of r ++ Storage.nl))
      (_log s)) (mkKV ∅ (_log s) ∅ ∅))
  end.
  by rewrite replay_with_log, Hrec, apply_record_with_log.
Qed.

Lemma _is_alive_no_elapsed key now s :
  no_elapsed now s → snd (_is_alive key now s) = s.
Proof.
  intros H. rewrite _is_alive_eq.
  destruct (bool_decide (key ∈ _tombstones s)); [done|].
  destruct (_index s !! key); [|done].
  destruct (_ttl s !! key) as [e|] eqn:E; [|done].
  apply H in E. apply Z.ltb_lt in E. by rewrite E.
Qed.

Lemma range_loop_no_elapsed now start end_ entries s :
  no_elapsed now s → snd (range_loop now start end_ entries s) = s.
Proof.
  intros H. induction entries as [|[k v] rest IH]; [done|].
  cbn [range_loop].
  destruct (hidden k); [done|].
  destruct (negb (Py.is_empty start) && Py.lt k start); [done|].
  destruct (negb (Py.is_empty end_) && Py.gt k end_); [done|].
  unfold_m. pose proof (_is_alive_no_elapsed k now s H) as E.
  destruct (_is_alive k now s) as [[alive|e] s1]; cbn [snd] in E; subst s1;
    [|done].
  by destruct (range_loop now start end_ rest s) as [[ks|e] s2].
Qed.

Lemma dead_without_deadline now key s :
  ttl_consistent s → no_elapsed now s → ¬ live now key s →
  _ttl s !! key = None.
Proof.
  intros Hc Hf Hd. destruct (_ttl s !! key) as [e|] eqn:E; [|done].
  exfalso. apply Hd. destruct (Hc key) as [Ht Hi]; [by rewrite E|].
  split; [done|]. split; [done|]. intros e' He. apply (Hf key). congruence.
Qed.

Lemma ttl_pop_absent key s : _ttl s !! key = None → ttl_pop key s = s.
Proof.
  intros H. unfold ttl_pop, with_ttl. rewrite delete_id by done.
  by destruct s.
Qed.

Lemma synced_step s r s' :
  synced s → complete (Storage.file (_log s)) → default_log s → written r →
  s' = with_log
         (Storage.with_file (Some (log_text s ++ line_of r ++ Storage.nl)) (_log s))
         (apply_record s r) →
  synced s' ∧ complete (Storage.file (_log s')) ∧ default_log s'.
Proof.
  intros Hs Hc Hu Hw ->. split; [by apply synced_append|].
  assert (∀ lg s0 r0, _log (with_log lg (apply_record s0 r0)) = lg) as Hlog.
  { intros lg s0 [[op key] arg]. rewrite <- apply_record_with_log.
    unfold apply_record. repeat case_match; done. }
  unfold default_log. rewrite Hlog. split; [|done].
  cbn [Storage.file Storage.with_file complete]. right.
  by rewrite <- sapp_assoc, last_char_app_nl.
Qed.

(** X10.  While no call comes upon an elapsed deadline, the log keeps up with
    the engine: in a state that loading the log reproduces, with a
    complete log file, no length limits, no deadline held for a
    tombstoned or unindexed key and no deadline elapsed at [now], a call
    whose key has no white space and whose value has no line feed or
    carriage return leaves a state that loading its log reproduces
    again; the other conditions but the last are kept as well. *)
Theorem call_keeps_sync (now : Z) (c : Call) (s : KVEngine)
    (Hsync : synced s) (Hc : complete (Storage.file (_log s)))
    (Hcfg : default_log s) (Hcons : ttl_consistent s)
    (Hfresh : no_elapsed now s) (Hclean : call_clean c) :
  synced (after now c s)
  ∧ complete (Storage.file (_log (after now c s)))
  ∧ default_log (after now c s)
  ∧ ttl_consistent (after now c s).
Proof.
  assert (ttl_consistent (after now c s)) as Hcons'
    by by apply consistent_after.
  assert (∀ s', (synced s' ∧ complete (Storage.file (_log s')) ∧ default_log s') →
                after now c s = s' →
                synced (after now c s)
                ∧ complete (Storage.file (_log (after now c s)))
                ∧ default_log (after now c s)
                ∧ ttl_consistent (after now c s)) as Hfin.
  { intros s' (H1 & H2 & H3) E. rewrite E in *. done. }
  assert (after now c s = s → synced (after now c s)
                ∧ complete (Storage.file (_log (after now c s)))
                ∧ default_log (after now c s)
                ∧ ttl_consistent (after now c s)) as Hsame.
  { intros E. by apply (Hfin s). }
  clear Hcons'.
  destruct c as [k v|k|k|k|k ms|k|k|a b]; cbn [after call_clean] in *.
  - destruct Hclean as [Hk Hv].
    eapply Hfin;
      [apply (synced_step s ("SET", k, v)); first [done | by constructor]|].
    rewrite set_ok;
      [|done|by apply clean_key_matches|by apply one_line_contains_lf].
    cbn [snd line_of String.eqb Ascii.eqb Bool.eqb]. unfold log_text.
    by rewrite !sapp_assoc.
  - apply Hsame. rewrite get_eq. by apply _is_alive_no_elapsed.
  - destruct (decide (live now k s)) as [Hl|Hd].
    + eapply Hfin;
        [apply (synced_step s ("DEL", k, "")); first [done | by constructor]|].
      rewrite delete_live by done. rewrite clean_key_matches by done.
      cbn [snd line_of String.eqb Ascii.eqb Bool.eqb]. unfold log_text.
      by rewrite !sapp_assoc.
    + apply Hsame. rewrite delete_dead by done. cbn [snd].
      rewrite _is_alive_no_elapsed by done.
      by apply ttl_pop_absent, (dead_without_deadline now).
  - apply Hsame. by apply _is_alive_no_elapsed.
  - destruct (decide (live now k s)) as [Hl|Hd].
    + eapply Hfin;
        [apply (synced_step s ("EXPIREAT", k, Py.str (now + ms))); first [done | by constructor]|].
      rewrite expire_live by done. rewrite clean_key_matches by done.
      cbn [snd line_of String.eqb Ascii.eqb Bool.eqb apply_record].
      rewrite int_str. unfold log_text.
      by rewrite !sapp_assoc.
    + apply Hsame. rewrite expire_dead by done. by apply _is_alive_no_elapsed.
  - apply Hsame. destruct (decide (live now k s)) as [Hl|Hd].
    + by rewrite ttl_live.
    + rewrite ttl_dead by done. by apply _is_alive_no_elapsed.
  - destruct (decide (live now k s)) as [Hl|Hd].
    + destruct (_ttl s !! k) as [e|] eqn:E.
      * eapply Hfin;
          [apply (synced_step s ("PERSIST", k, "")); first [done | by constructor]|].
        rewrite persist_live by done. rewrite E, clean_key_matches by done.
        cbn [snd line_of String.eqb Ascii.eqb Bool.eqb]. unfold log_text.
        by rewrite !sapp_assoc.
      * apply Hsame. rewrite persist_live by done. by rewrite E.
    + apply Hsame. rewrite persist_dead by done. by apply _is_alive_no_elapsed.
  - apply Hsame. unfold range_keys. unfold_m. by apply range_loop_no_elapsed.
Qed.

(** A [set] on a fresh store keeps the log in step. *)
Lemma call_keeps_sync_witness :
  synced (after 0 (CallSet "a" "1") (snd (__init__ None))).
Proof.
  refine (proj1 (call_keeps_sync 0 (CallSet "a" "1") (snd (__init__ None))
                   _ _ _ _ _ _)).
  - reflexivity.
  - exact I.
  - split; reflexivity.
  - intros k [e He]. vm_compute in He. discriminate.
  - intros k e He. vm_compute in He. discriminate.
  - split; reflexivity.
Defined.

Lemma restarted_eq s :
  default_log s → Storage.strict (_log s) = false →
  restarted s = recover (_log s) (Storage.yielded (Storage.replay (_log s))).
Proof.
  intros [Hk Hv] Hs. unfold restarted, __init__, _load_from_log, recover.
  cbn [snd].
  assert (Storage.__init__ (Storage.file (_log s)) = _log s) as E.
  { unfold Storage.__init__. destruct (_log s) as [f mk mv st].
    cbn in *. by subst. }
  change (with_ttl ∅ (with_tombstones ∅ (with_index Index.empty
            (mkKV Index.empty (Storage.__init__ (Storage.file (_log s))) ∅ ∅))))
    with (mkKV ∅ (Storage.__init__ (Storage.file (_log s))) ∅ ∅).
  cbn [_log]. by rewrite E.
Qed.

(** X11.  An expiry that a read observes is not logged, and a [set] after it
    does not log that the deadline is gone.  On a fresh store, after
    [set(key, value)], [expire(key, ms)] at [now1], a [get] at or after
    the deadline and [set(key, value')], the key is live in memory at
    every time, with the new value and no deadline; the engine that a
    restart builds from the log holds the old deadline again and finds
    the key absent from that deadline on. *)
Theorem restart_loses_reset_key (key value value' : string) (now1 ms now2 : Z)
    (Hk : clean_key key = true)
    (Hv : one_line value = true) (Hv' : one_line value' = true)
    (Hpast : now1 + ms ≤ now2) :
  fst (set_expire_get_set key value value' now1 ms now2 (snd (__init__ None)))
  = Ok tt
  ∧ (∀ t, fst (get t key
             (snd (set_expire_get_set key value value' now1 ms now2
                     (snd (__init__ None))))) = Ok (Some value')
          ∧ fst (ttl t key
             (snd (set_expire_get_set key value value' now1 ms now2
                     (snd (__init__ None))))) = Ok (-1))
  ∧ _ttl (restarted
            (snd (set_expire_get_set key value value' now1 ms now2
                    (snd (__init__ None))))) !! key = Some (now1 + ms)
  ∧ (∀ t, now1 + ms ≤ t →
          fst (get t key
                 (restarted
                    (snd (set_expire_get_set key value value' now1 ms now2
                            (snd (__init__ None)))))) = Ok None).
Proof.
  pose proof (clean_key_matches key Hk) as Hm.
  pose proof (one_line_contains_lf value Hv) as Hlf.
  pose proof (one_line_contains_lf value' Hv') as Hlf'.
  change (snd (__init__ None)) with (mkKV ∅ (Storage.__init__ None) ∅ ∅).
  set (s0 := mkKV ∅ (Storage.__init__ None) ∅ ∅).
  assert (synced s0 ∧ complete (Storage.file (_log s0)) ∧ default_log s0)
    as (Hs0 & Hc0 & Hd0) by done.
  set (s1 := with_log
    (Storage.with_file (Some (log_text s0 ++ line_of ("SET", key, value) ++ Storage.nl))
       (_log s0)) (apply_record s0 ("SET", key, value))).
  destruct (synced_step s0 ("SET", key, value) s1 Hs0 Hc0 Hd0)
    as (Hs1 & Hc1 & Hd1); [by constructor|done|].
  assert (set key value s0 = (Ok tt, s1)) as E1.
  { rewrite set_ok by done. unfold s1.
    cbn [line_of String.eqb Ascii.eqb Bool.eqb]. unfold log_text.
    by rewrite !sapp_assoc. }
  assert (live now1 key s1) as Hl1.
  { unfold live, s1, s0. eng_cbn. split; [set_solver|]. split.
    - rewrite lookup_insert_eq. eauto.
    - intros e He. by rewrite lookup_empty in He. }
  set (s2 := with_log
    (Storage.with_file
       (Some (log_text s1 ++ line_of ("EXPIREAT", key, Py.str (now1 + ms))
              ++ Storage.nl)) (_log s1))
    (apply_record s1 ("EXPIREAT", key, Py.str (now1 + ms)))).
  destruct (synced_step s1 ("EXPIREAT", key, Py.str (now1 + ms)) s2 Hs1 Hc1 Hd1)
    as (Hs2 & Hc2 & Hd2); [by constructor|done|].
  assert (expire now1 key ms s1 = (Ok true, s2)) as E2.
  { rewrite expire_live by done. rewrite Hm. unfold s2.
    cbn [line_of String.eqb Ascii.eqb Bool.eqb apply_record].
    rewrite int_str. unfold log_text. by rewrite !sapp_assoc. }
  assert (_ttl s2 = {[key := now1 + ms]}) as Httl2.
  { unfold s2. eng_cbn. rewrite int_str. unfold s1, s0. eng_cbn.
    by rewrite insert_empty. }
  assert (_index s2 = {[key := value]} ∧ _tombstones s2 = ∅) as [Hidx2 Htomb2].
  { unfold s2. eng_cbn. rewrite int_str. unfold s1, s0. eng_cbn.
    rewrite insert_empty. split; [done|]. set_solver. }
  set (s3 := expired_state key s2).
  assert (get now2 key s2 = (Ok None, s3)) as E3.
  { rewrite get_eq.
    assert (¬ live now2 key s2) as Hd.
    { intros (_ & _ & H). specialize (H (now1 + ms)).
      rewrite Httl2, lookup_singleton_eq in H. specialize (H eq_refl). lia. }
    rewrite decide_False by done. rewrite _is_alive_dead by done.
    rewrite bool_decide_eq_true_2; [done|].
    rewrite Htomb2, Hidx2, Httl2, !lookup_singleton_eq.
    split; [set_solver|]. split; eauto. }
  assert (default_log s3) as Hd3 by done.
  set (s4 := mkKV (<[key := value']> (_index s3))
               (Storage.with_file
                  (Some (default "" (Storage.file (_log s3))
                         ++ "SET " ++ key ++ " " ++ value' ++ Storage.nl)) (_log s3))
               (_tombstones s3 ∖ {[key]}) (_ttl s3)).
  assert (set key value' s3 = (Ok tt, s4)) as E4 by by rewrite set_ok.
  assert (set_expire_get_set key value value' now1 ms now2 s0 = (Ok tt, s4))
    as Erun.
  { unfold set_expire_get_set. unfold_m. by rewrite E1, E2, E3, E4. }
  rewrite Erun. cbn [fst snd]. split; [done|].
  assert (∀ t, live t key s4) as Hl4.
  { intros t. unfold live, s4, s3. eng_cbn.
    split; [set_solver|]. split.
    - rewrite lookup_insert_eq. eauto.
    - rewrite lookup_delete_eq. done. }
  split.
  { intros t. rewrite get_eq, decide_True, ttl_live by done.
    unfold s4, s3. eng_cbn.
    by rewrite lookup_insert_eq, lookup_delete_eq. }
  assert (restarted s4
          = with_log (_log s4) (apply_record s2 ("SET", key, value'))) as Er.
  { rewrite restarted_eq by done.
    assert (_log s4 = Storage.with_file
              (Some (log_text s2 ++ line_of ("SET", key, value') ++ Storage.nl))
              (_log s2)) as El.
    { unfold s4, s3, log_text. eng_cbn.
      cbn [line_of String.eqb Ascii.eqb Bool.eqb].
      by rewrite !sapp_assoc. }
    pose proof (synced_append s2 ("SET", key, value') Hs2 Hc2 Hd2) as Hs4.
    rewrite <- El in Hs4. apply synced_iff in Hs4 as [_ Hrec];
      [|by constructor].
    assert (∀ lg s' r', _log (with_log lg (apply_record s' r')) = lg) as Hlog.
    { intros lg s' [[op k0] arg]. rewrite <- apply_record_with_log.
      unfold apply_record. repeat case_match; done. }
    rewrite Hlog in Hrec. done. }
  assert (_ttl (restarted s4) !! key = Some (now1 + ms)) as Hrt.
  { rewrite Er. eng_cbn. by rewrite Httl2, lookup_singleton_eq. }
  split; [done|]. intros t Ht.
  rewrite get_eq, decide_False; [done|].
  intros (_ & _ & H). specialize (H _ Hrt). lia.
Qed.

(** The scenario with the deadline at 150 and the read at 200. *)
Lemma restart_loses_reset_key_witness :
  _ttl (restarted
          (snd (set_expire_get_set "a" "1" "2" 100 50 200 (snd (__init__ None)))))
    !! "a" = Some (100 + 50).
Proof.
  refine (proj1 (proj2 (proj2
    (restart_loses_reset_key "a" "1" "2" 100 50 200 _ _ _ _))));
    first [reflexivity | lia].
Defined.

End restart.

(** ** Reading inside a transaction *)

Section overlay_reads.
Import Engine Main Spec LogSpec EngineSpec TxSpec OverlaySpec.

Lemma one_line_contains_cr value :
  one_line value = true → Py.contains Py.CR value = false.
Proof.
  induction value as [|c r IH]; [done|]. intros [Hc Hr]%andb_true_iff.
  apply inline_chars in Hc as [_ Hcr]. cbn. by rewrite Hcr, IH.
Qed.

Lemma handle_set_buffers key value w :
  in_tx w = true → one_line value = true →
  handle_set [key; value] w
  = (Ok tt, printed MSG_OK
              (ops_append ("SET", [key; value])
                 (buffer_store key (Some value) w))).
Proof.
  intros Htx Hv. unfold handle_set. cbn [Py.join].
  rewrite one_line_contains_lf, one_line_contains_cr by done. cbn [orb].
  unfold_m. by rewrite Htx.
Qed.

(** X12.  A transaction reads its own writes without consulting the engine:
    after a buffered [set(key, value)], GET prints the value and EXISTS
    prints 1; a DEL after it reports 1, after which GET prints nil and
    EXISTS prints 0.  Through all of it the engine is as it was and the
    clock was not read. *)
Theorem read_your_writes (w : World) (key value : string)
    (Htx : in_tx w = true) (Hv : one_line value = true) :
  handle_get [key] (snd (handle_set [key; value] w))
  = (Ok tt, printed value (snd (handle_set [key; value] w)))
  ∧ handle_exists [key] (snd (handle_set [key; value] w))
    = (Ok tt, printed "1" (snd (handle_set [key; value] w)))
  ∧ kv (snd (handle_set [key; value] w)) = kv w
  ∧ ticks (snd (handle_set [key; value] w)) = ticks w
  ∧ (let w2 := snd ((do handle_set [key; value] then handle_del [key]) w) in
     fst ((do handle_set [key; value] then handle_del [key]) w) = Ok tt
     ∧ last (stdout w2) = Some "1"
     ∧ handle_get [key] w2 = (Ok tt, printed "nil" w2)
     ∧ handle_exists [key] w2 = (Ok tt, printed "0" w2)
     ∧ kv w2 = kv w
     ∧ ticks w2 = ticks w).
Proof.
  rewrite handle_set_buffers by done. cbn [snd].
  set (w1 := printed MSG_OK _).
  assert (in_tx w1 = true) as Htx1 by done.
  assert (tx_buffer w1 !! key = Some (Some value)) as Hb1
    by apply lookup_insert_eq.
  split; [|split; [|split; [done|split; [done|]]]].
  - unfold handle_get, _tx_get_view. unfold_m. by rewrite Htx1, Hb1.
  - unfold handle_exists, _tx_exists_view, _tx_get_view. unfold_m.
    by rewrite Htx1, Hb1.
  - assert (handle_del [key] w1
            = (Ok tt, printed "1"
                        (ops_append ("DEL", [key]) (buffer_store key None w1))))
      as Ed.
    { unfold handle_del, _tx_exists_view, _tx_get_view. unfold_m.
      by rewrite Htx1, Hb1. }
    set (w2 := printed "1" _) in Ed.
    assert ((do handle_set [key; value] then handle_del [key]) w = (Ok tt, w2))
      as Erun.
    { unfold bind. rewrite handle_set_buffers by done. fold w1. by rewrite Ed. }
    rewrite Erun. cbn [fst snd].
    assert (in_tx w2 = true) as Htx2 by done.
    assert (tx_buffer w2 !! key = Some None) as Hb2 by apply lookup_insert_eq.
    split; [done|]. split; [apply last_snoc|]. split; [|split; [|split; done]].
    + unfold handle_get, _tx_get_view. unfold_m. by rewrite Htx2, Hb2.
    + unfold handle_exists, _tx_exists_view, _tx_get_view. unfold_m.
      by rewrite Htx2, Hb2.
Qed.

(** A transaction on a fresh store. *)
Lemma read_your_writes_witness :
  handle_get ["a"]
    (snd (handle_set ["a"; "1"]
            (mkWorld (snd (__init__ None)) true ∅ [] [] (fun _ => 0) 0)))
  = (Ok tt, printed "1"
      (snd (handle_set ["a"; "1"]
              (mkWorld (snd (__init__ None)) true ∅ [] [] (fun _ => 0) 0)))).
Proof.
  refine (proj1 (read_your_writes
    (mkWorld (snd (__init__ None)) true ∅ [] [] (fun _ => 0) 0) "a" "1" _ _));
    reflexivity.
Defined.

End overlay_reads.

(** ** An open transaction leaves the log alone *)

Section open_transaction.
Import Engine Main Spec LogSpec EngineSpec TxSpec OverlaySpec.

Lemma tx_frame_refl w : tx_frame w w.
Proof. done. Qed.

Lemma tx_frame_trans w1 w2 w3 :
  tx_frame w1 w2 → tx_frame w2 w3 → tx_frame w1 w3.
Proof.
  intros (? & ? & ?) (? & ? & ?). unfold tx_frame. split; [|split]; congruence.
Qed.

Lemma quiet_ret {A} (a : A) : quiet (ret a).
Proof. intros w _. apply tx_frame_refl. Qed.

Lemma quiet_gets {A} (f : World → A) : quiet (gets f).
Proof. intros w _. apply tx_frame_refl. Qed.

Lemma quiet_print line : quiet (_print line).
Proof. intros w _. done. Qed.

Lemma quiet_buffer_store key v : quiet (modify (buffer_store key v)).
Proof. intros w _. done. Qed.

Lemma quiet_ops_append e : quiet (modify (ops_append e)).
Proof. intros w _. done. Qed.

Lemma quiet_bind {A B} (m : M World A) (f : A → M World B) :
  quiet m → (∀ a, quiet (f a)) → quiet (bind m f).
Proof.
  intros Hm Hf w Htx. unfold bind. specialize (Hm w Htx).
  destruct (m w) as [[a|e] w1]; [|done]. cbn [snd] in Hm.
  eapply tx_frame_trans; [exact Hm|]. apply Hf.
  destruct Hm as (_ & _ & ->). done.
Qed.

Lemma quiet_in_tx {A} (f : bool → M World A) :
  quiet (f true) → quiet (bind (gets in_tx) f).
Proof. intros Hm w Htx. unfold bind, gets. rewrite Htx. by apply Hm. Qed.

Lemma quiet_read {A} (c : Call) (m : Z → M KVEngine A) :
  is_read c = true → (∀ now s, snd (m now s) = after now c s) →
  quiet (let* now := _now_ms in zoom kv with_kv (m now)).
Proof.
  intros Hr Hm w _. unfold bind, _now_ms, zoom. cbn [kv with_ticks].
  pose proof (Hm (clock w (ticks w)) (kv w)) as E.
  destruct (read_keeps_log (clock w (ticks w)) c (kv w) Hr) as [Hl Hi].
  destruct (m (clock w (ticks w)) (kv w)) as [r s']. cbn [snd] in *. subst s'.
  done.
Qed.

Lemma quiet_kv_get key : quiet (kv_get key).
Proof. by apply (quiet_read (CallGet key)). Qed.

Lemma quiet_kv_exists key : quiet (kv_exists key).
Proof. by apply (quiet_read (CallExists key)). Qed.

Lemma quiet_kv_ttl key : quiet (kv_ttl key).
Proof. by apply (quiet_read (CallTtl key)). Qed.

Lemma quiet_kv_range_keys start end_ : quiet (kv_range_keys start end_).
Proof. by apply (quiet_read (CallRange start end_)). Qed.

Lemma quiet_tx_get_view key : quiet (_tx_get_view key).
Proof.
  apply quiet_bind; [apply quiet_gets|]. intros [v|];
    [apply quiet_ret|apply quiet_kv_get].
Qed.

Lemma quiet_tx_exists_view key : quiet (_tx_exists_view key).
Proof.
  apply quiet_bind; [apply quiet_tx_get_view|]. intros v. apply quiet_ret.
Qed.

Create HintDb quiet.
#[local] Hint Resolve quiet_ret quiet_gets quiet_print quiet_buffer_store
  quiet_ops_append quiet_kv_get quiet_kv_exists quiet_kv_ttl
  quiet_kv_range_keys quiet_tx_get_view quiet_tx_exists_view : quiet.

Ltac quiet_step :=
  first [ apply quiet_in_tx; cbn [negb]
        | apply quiet_bind; [|intros ?] ];
  auto with quiet.

Lemma quiet_handle_set args : quiet (handle_set args).
Proof.
  unfold handle_set. destruct args as [|key [|v rest]]; auto with quiet.
  destruct (_ || _); auto with quiet. repeat quiet_step.
Qed.

Lemma quiet_handle_get args : quiet (handle_get args).
Proof.
  unfold handle_get. destruct args as [|key [|? ?]]; auto with quiet.
  repeat quiet_step.
Qed.

Lemma quiet_handle_del args : quiet (handle_del args).
Proof.
  unfold handle_del. destruct args as [|key [|? ?]]; auto with quiet.
  apply quiet_in_tx. apply quiet_bind; [auto with quiet|]. intros existed.
  destruct existed; repeat quiet_step.
Qed.

Lemma quiet_handle_exists args : quiet (handle_exists args).
Proof.
  unfold handle_exists. destruct args as [|key [|? ?]]; auto with quiet.
  repeat quiet_step.
Qed.

Lemma quiet_mset_loop n args : (length args ≤ n)%nat → quiet (mset_loop args).
Proof.
  revert args. induction n as [|n IH]; intros args Hn.
  { destruct args; [apply quiet_ret|cbn in Hn; lia]. }
  destruct args as [|key [|value rest]]; [apply quiet_ret..|].
  cbn [mset_loop]. destruct (_ || _); [repeat quiet_step|].
  apply quiet_in_tx. apply quiet_bind; [repeat quiet_step|].
  intros _. apply IH. cbn in Hn. lia.
Qed.

Lemma quiet_handle_mset args : quiet (handle_mset args).
Proof.
  unfold handle_mset. destruct (_ || _); auto with quiet.
  apply quiet_bind; [by apply (quiet_mset_loop (length args))|].
  intros []; auto with quiet.
Qed.

Lemma quiet_mget_loop args : quiet (mget_loop args).
Proof.
  induction args as [|key rest IH]; [apply quiet_ret|].
  cbn [mget_loop]. repeat quiet_step.
Qed.

Lemma quiet_handle_mget args : quiet (handle_mget args).
Proof. destruct args; [apply quiet_print|apply quiet_mget_loop]. Qed.

Lemma quiet_handle_expire args : quiet (handle_expire args).
Proof.
  unfold handle_expire. destruct args as [|key [|ms [|? ?]]]; auto with quiet.
  destruct (Py.int ms); auto with quiet.
  apply quiet_in_tx. apply quiet_bind; [auto with quiet|].
  intros []; cbn [negb]; repeat quiet_step; auto with quiet.
Qed.

Lemma quiet_handle_ttl args : quiet (handle_ttl args).
Proof.
  unfold handle_ttl. destruct args as [|key [|? ?]]; auto with quiet.
  repeat quiet_step.
Qed.

Lemma quiet_handle_persist args : quiet (handle_persist args).
Proof.
  unfold handle_persist. destruct args as [|key [|? ?]]; auto with quiet.
  apply quiet_in_tx. apply quiet_bind; [auto with quiet|].
  intros []; cbn [negb]; repeat quiet_step; auto with quiet.
Qed.

Lemma quiet_print_all lines : quiet (print_all lines).
Proof.
  induction lines as [|l rest IH]; [apply quiet_ret|].
  cbn [print_all]. repeat quiet_step.
Qed.

Lemma quiet_handle_range args : quiet (handle_range args).
Proof.
  unfold handle_range. destruct args as [|start [|end_ [|? ?]]]; auto with quiet.
  apply quiet_in_tx. cbn [negb].
  apply quiet_bind; [auto with quiet|]. intros base.
  apply quiet_bind; [auto with quiet|]. intros pending.
  apply quiet_bind; [apply quiet_print_all|]. auto with quiet.
Qed.

Lemma quiet_handle_begin args : quiet (handle_begin args).
Proof. unfold handle_begin. apply quiet_in_tx. auto with quiet. Qed.

Lemma quiet_returns_none h args :
  quiet (h args) → quiet (returns_none h args).
Proof. intros H. unfold returns_none. repeat quiet_step. Qed.

Lemma DISPATCH_get_quiet cmd h args :
  DISPATCH_get DISPATCH cmd = Some h → cmd ≠ "COMMIT" → cmd ≠ "ABORT" →
  quiet (h args).
Proof.
  intros Hh Hc Ha. cbn [DISPATCH DISPATCH_get] in Hh.
  repeat match type of Hh with
  | (if String.eqb cmd ?name then _ else _) = _ =>
      destruct (String.eqb_spec cmd name)
  end; simplify_eq; try done;
  first [ apply quiet_returns_none | apply quiet_ret ].
  - apply quiet_handle_set.
  - apply quiet_handle_get.
  - apply quiet_handle_del.
  - apply quiet_handle_exists.
  - apply quiet_handle_mset.
  - apply quiet_handle_mget.
  - apply quiet_handle_expire.
  - apply quiet_handle_ttl.
  - apply quiet_handle_persist.
  - apply quiet_handle_range.
  - apply quiet_handle_begin.
Qed.

(** X13.  While a transaction is open, no command but COMMIT changes the
    log file or the index of the engine, whatever its arguments and
    whether or not it is a command at all; and no command but COMMIT and
    ABORT closes the transaction.  (The reads may still drop a deadline
    they find elapsed and tombstone its key.) *)
Theorem open_transaction_keeps_log (w : World) (cmd : string)
    (args : list string)
    (Htx : in_tx w = true) (Hc : cmd ≠ "COMMIT") :
  _log (kv (snd (main_turn cmd args w))) = _log (kv w)
  ∧ _index (kv (snd (main_turn cmd args w))) = _index (kv w)
  ∧ (cmd ≠ "ABORT" → in_tx (snd (main_turn cmd args w)) = true).
Proof.
  destruct (decide (cmd = "ABORT")) as [->|Ha].
  { cbn. unfold handle_abort, returns_none. unfold_m. rewrite Htx. done. }
  unfold main_turn.
  destruct (DISPATCH_get DISPATCH cmd) as [h|] eqn:Eh;
    [|split; [done|split; [done|intros _; exact Htx]]].
  pose proof (DISPATCH_get_quiet cmd h args Eh Hc Ha w Htx) as (Hl & Hi & Ht).
  destruct (h args w) as [[r|e] w']; cbn [snd] in *.
  - rewrite Hl, Hi, Ht. done.
  - cbn. rewrite Hl, Hi, Ht. done.
Qed.

(** A SET inside a transaction on a fresh store. *)
Lemma open_transaction_keeps_log_witness :
  _log (kv (snd (main_turn "SET" ["a"; "1"]
                   (mkWorld (snd (__init__ None)) true ∅ [] [] (fun _ => 0) 0))))
  = _log (snd (__init__ None)).
Proof.
  refine (proj1 (open_transaction_keeps_log
    (mkWorld (snd (__init__ None)) true ∅ [] [] (fun _ => 0) 0)
    "SET" ["a"; "1"] _ _)); [reflexivity|discriminate].
Defined.

End open_transaction.

(** ** A commit that meets a refused key *)

Section refused_commit.
Import Engine Main Spec LogSpec EngineSpec TxSpec OverlaySpec.

Lemma with_kv_same w : with_kv (kv w) w = w.
Proof. by destruct w. Qed.

Lemma apply_op_overlay o w :
  in_tx (snd (apply_op o w)) = in_tx w
  ∧ tx_buffer (snd (apply_op o w)) = tx_buffer w
  ∧ tx_ops (snd (apply_op o w)) = tx_ops w
  ∧ stdout (snd (apply_op o w)) = stdout w.
Proof.
  destruct o as [k v|k|k ms|k]; cbn [apply_op];
    unfold kv_set, kv_delete, kv_expire, kv_persist, _now_ms; unfold_m;
    cbn [kv with_ticks].
  - by destruct (set k v (kv w)) as [[?|?] ?].
  - by destruct (delete _ k (kv w)) as [[?|?] ?].
  - by destruct (expire _ k ms (kv w)) as [[?|?] ?].
  - by destruct (persist _ k (kv w)) as [[?|?] ?].
Qed.

Lemma apply_in_order_overlay ops w :
  in_tx (snd (apply_in_order ops w)) = in_tx w
  ∧ tx_buffer (snd (apply_in_order ops w)) = tx_buffer w
  ∧ tx_ops (snd (apply_in_order ops w)) = tx_ops w
  ∧ stdout (snd (apply_in_order ops w)) = stdout w.
Proof.
  revert w. induction ops as [|o ops IH]; intros w; [done|].
  cbn [apply_in_order]. unfold bind.
  pose proof (apply_op_overlay o w) as (H1 & H2 & H3 & H4).
  destruct (apply_op o w) as [[[]|e] w1]; cbn [snd] in *; [|done].
  destruct (IH w1) as (? & ? & ? & ?). split; [|split; [|split]]; congruence.
Qed.

Lemma commit_loop_app ops1 ops2 w :
  commit_loop (ops1 ++ ops2) w
  = (do commit_loop ops1 then commit_loop ops2) w.
Proof.
  revert w. induction ops1 as [|e ops1 IH]; intros w; [done|].
  cbn [app commit_loop]. unfold bind.
  destruct (commit_op e w) as [[[]|x] w1]; [|done].
  rewrite IH. done.
Qed.

Lemma kv_set_refused key value w :
  Storage._KEY_RE_match key = false →
  kv_set key value w = (Raise ValueError, w).
Proof.
  intros Hbad. unfold kv_set, zoom. rewrite set_eq. unfold valid_set.
  rewrite Hbad. cbn [andb]. by rewrite with_kv_same.
Qed.

(** X14.  COMMIT is not all or nothing.  A SET inside a transaction
    buffers any key, also one that the log refuses (an empty key or one
    with white space).  When COMMIT comes to such a SET, the operations
    issued before it have been applied to the engine, [kv.set] raises,
    the loop of [main] prints the internal error, and the transaction is
    still open with its buffer and its op-log as they were. *)
Theorem commit_stops_at_refused_key (w : World) (ops : list TxOp)
    (key value : string) (rest : list (string * list string))
    (Htx : in_tx w = true) (Hcfg : default_log (kv w))
    (Hk : Forall key_ok ops) (Hv : Forall value_ok ops)
    (Hbad : Storage._KEY_RE_match key = false)
    (Hops : tx_ops w = ((encode <$> ops) ++ ("SET", [key; value]) :: rest)%list) :
  (∀ w0, in_tx w0 = true → one_line value = true →
         fst (handle_set [key; value] w0) = Ok tt
         ∧ tx_ops (snd (handle_set [key; value] w0))
           = (tx_ops w0 ++ [("SET", [key; value])])%list)
  ∧ fst (apply_in_order ops w) = Ok tt
  ∧ handle_commit [] w = (Raise ValueError, snd (apply_in_order ops w))
  ∧ main_turn "COMMIT" [] w
    = (Ok false, printed ERR_INTERNAL (snd (apply_in_order ops w)))
  ∧ in_tx (snd (main_turn "COMMIT" [] w)) = true
  ∧ tx_buffer (snd (main_turn "COMMIT" [] w)) = tx_buffer w
  ∧ tx_ops (snd (main_turn "COMMIT" [] w)) = tx_ops w.
Proof.
  split.
  { intros w0 Htx0 Hline. by rewrite handle_set_buffers. }
  pose proof (apply_in_order_ok ops w Hcfg Hk Hv) as Hok.
  pose proof (apply_in_order_overlay ops w) as (H1 & H2 & H3 & H4).
  assert (handle_commit [] w = (Raise ValueError, snd (apply_in_order ops w)))
    as Hcommit.
  { unfold handle_commit. unfold bind at 1. unfold gets at 1. rewrite Htx.
    cbn [negb]. unfold bind at 1. unfold gets at 1. rewrite Hops.
    unfold bind at 1. rewrite commit_loop_app. unfold bind at 1.
    rewrite commit_loop_encode.
    destruct (apply_in_order ops w) as [[[]|e] w1]; [|done].
    cbn [commit_loop commit_op String.eqb Ascii.eqb Bool.eqb snd].
    unfold bind at 1. by rewrite kv_set_refused. }
  split; [done|]. split; [done|].
  assert (main_turn "COMMIT" [] w
          = (Ok false, printed ERR_INTERNAL (snd (apply_in_order ops w))))
    as Hturn.
  { unfold main_turn. cbn [DISPATCH DISPATCH_get String.eqb Ascii.eqb Bool.eqb].
    unfold returns_none. unfold bind at 1. by rewrite Hcommit. }
  split; [done|]. rewrite Hturn. cbn [snd].
  split; [|split]; cbn; congruence.
Qed.

(** A transaction with a SET of the key ["b c"], on a fresh store. *)
Lemma commit_stops_at_refused_key_witness :
  main_turn "COMMIT" []
    (mkWorld (snd (__init__ None)) true ∅
       [("SET", ["a"; "1"]); ("SET", ["b c"; "2"]); ("DEL", ["a"])]
       [] (fun _ => 0) 0)
  = (Ok false,
     printed ERR_INTERNAL
       (snd (apply_in_order [TxSet "a" "1"]
          (mkWorld (snd (__init__ None)) true ∅
             [("SET", ["a"; "1"]); ("SET", ["b c"; "2"]); ("DEL", ["a"])]
             [] (fun _ => 0) 0)))).
Proof.
  refine (proj1 (proj2 (proj2 (proj2 (commit_stops_at_refused_key
    (mkWorld (snd (__init__ None)) true ∅
       [("SET", ["a"; "1"]); ("SET", ["b c"; "2"]); ("DEL", ["a"])]
       [] (fun _ => 0) 0)
    [TxSet "a" "1"] "b c" "2" [("DEL", ["a"])] _ _ _ _ _ _))))).
  - reflexivity.
  - split; reflexivity.
  - repeat constructor.
  - repeat constructor.
  - reflexivity.
  - reflexivity.
Defined.

End refused_commit.

(** ** A committed SET survives a restart *)

Section durable_commit.
Import Engine Main Spec LogSpec EngineSpec TxSpec OverlaySpec.

Lemma replay_lines_nonstrict self lines :
  Storage.strict self = false → (Storage.replay_lines self lines).2 = Ok tt.
Proof.
  intros Hs. induction lines as [|raw rest IH]; [done|].
  cbn [Storage.replay_lines].
  destruct (Py.is_empty _); [done|].
  destruct (Storage._parse_and_validate self _) as [[[[[] op] key] arg] reason].
  - by destruct (Storage.replay_lines self rest).
  - by rewrite Hs.
Qed.

Lemma replay_nonstrict lg :
  Storage.strict lg = false → Storage.ending (Storage.replay lg) = Ok tt.
Proof.
  intros Hs. unfold Storage.replay. destruct (Storage.file lg) as [text|]; [|done].
  pose proof (replay_lines_nonstrict lg (Storage.readlines text) Hs) as H.
  by destruct (Storage.replay_lines lg (Storage.readlines text)).
Qed.

Lemma restarted_append s s' r :
  complete (Storage.file (_log s)) → written r →
  Storage.file (_log s') = Some (log_text s ++ line_of r ++ Storage.nl) →
  restarted s'
  = with_log (Storage.__init__ (Storage.file (_log s')))
      (apply_record (restarted s) r).
Proof.
  intros Hc Hw Hf. unfold restarted, __init__, _load_from_log. cbn [snd].
  set (lg0 := Storage.__init__ (Storage.file (_log s))).
  rewrite Hf.
  change (Storage.__init__ (Some (log_text s ++ line_of r ++ Storage.nl)))
    with (Storage.with_file
            (Some (default "" (Storage.file lg0) ++ line_of r ++ Storage.nl)) lg0).
  set (lg1 := Storage.with_file _ lg0).
  change (with_ttl ∅ (with_tombstones ∅ (with_index Index.empty
            (mkKV Index.empty lg1 ∅ ∅))))
    with (with_log lg1 (mkKV ∅ lg0 ∅ ∅)).
  change (with_ttl ∅ (with_tombstones ∅ (with_index Index.empty
            (mkKV Index.empty lg0 ∅ ∅))))
    with (mkKV ∅ lg0 ∅ ∅).
  cbn [_log with_log]. unfold lg1.
  rewrite replay_appended; [|done|done|done|by apply replay_nonstrict].
  cbn [Storage.yielded]. rewrite fold_left_app. cbn [fold_left].
  change (mkKV ∅ (Storage.with_file
            (Some (default "" (Storage.file lg0) ++ line_of r ++ Storage.nl)) lg0)
            ∅ ∅)
    with (with_log lg1 (mkKV ∅ lg0 ∅ ∅)).
  by rewrite replay_with_log, apply_record_with_log.
Qed.

Lemma begin_set_commit_eq key value w :
  in_tx w = false → default_log (kv w) →
  clean_key key = true → one_line value = true →
  begin_set_commit key value w
  = (Ok tt,
     idle_after MSG_OK
       (with_kv (snd (set key value (kv w))) (printed MSG_OK (printed MSG_OK w)))).
Proof.
  intros Hidle Hcfg Hk Hv. unfold begin_set_commit.
  assert (handle_begin [] w
          = (Ok tt, printed MSG_OK
                      (with_tx_ops [] (with_tx_buffer ∅ (with_in_tx true w)))))
    as E1.
  { unfold handle_begin. unfold_m. by rewrite Hidle. }
  unfold bind at 1. rewrite E1. unfold bind at 1.
  rewrite handle_set_buffers by done.
  unfold handle_commit. unfold_m.
  cbn [in_tx tx_ops printed ops_append buffer_store with_tx_ops with_tx_buffer
       with_stdout with_in_tx negb app commit_loop commit_op String.eqb
       Ascii.eqb Bool.eqb kv].
  unfold kv_set. unfold_m.
  cbn [in_tx tx_ops printed ops_append buffer_store with_tx_ops with_tx_buffer
       with_stdout with_in_tx kv].
  rewrite set_ok;
    [|done|by apply clean_key_matches|by apply one_line_contains_lf].
  done.
Qed.

Lemma handle_set_idle key value w :
  in_tx w = false → one_line value = true →
  kv (snd (handle_set [key; value] w)) = snd (set key value (kv w)).
Proof.
  intros Hidle Hv. unfold handle_set. cbn [Py.join].
  rewrite one_line_contains_lf, one_line_contains_cr by done. cbn [orb].
  unfold kv_set. unfold_m. rewrite Hidle.
  by destruct (set key value (kv w)) as [[[]|e] s'].
Qed.

(** X15.  From the Idle state of an engine whose log has no length
    limits and whose file is absent, empty or ends with a line feed,
    [begin(); set(key, value); commit()], for a key without white space and
    a value of one line, ends without exception in the Idle state and
    leaves the engine that the same SET leaves outside a transaction.
    The engine that a restart then builds from the log file holds [value]
    for [key], not tombstoned; what it holds for the other keys, and all
    its deadlines, are what a restart before the transaction would have
    given; and GET finds [value] there at every time before a deadline
    that the log holds for [key]. *)
Theorem committed_set_survives_restart (w : World) (key value : string)
    (Hidle : in_tx w = false) (Hcfg : default_log (kv w))
    (Hc : complete (Storage.file (_log (kv w))))
    (Hk : clean_key key = true) (Hv : one_line value = true) :
  let w' := snd (begin_set_commit key value w) in
  fst (begin_set_commit key value w) = Ok tt
  ∧ in_tx w' = false
  ∧ kv w' = kv (snd (handle_set [key; value] w))
  ∧ _index (restarted (kv w')) !! key = Some value
  ∧ (key ∉ _tombstones (restarted (kv w')))
  ∧ (∀ k, k ≠ key →
          key_state k (restarted (kv w')) = key_state k (restarted (kv w)))
  ∧ _ttl (restarted (kv w')) = _ttl (restarted (kv w))
  ∧ (∀ t, (∀ e, _ttl (restarted (kv w)) !! key = Some e → t < e) →
          fst (get t key (restarted (kv w'))) = Ok (Some value)).
Proof.
  cbv zeta. rewrite begin_set_commit_eq by done. cbn [fst snd].
  change (kv (idle_after MSG_OK
                (with_kv (snd (set key value (kv w)))
                   (printed MSG_OK (printed MSG_OK w)))))
    with (snd (set key value (kv w))).
  split; [done|]. split; [done|].
  split; [by rewrite handle_set_idle|].
  rewrite (restarted_append (kv w) _ ("SET", key, value));
    [|done|by constructor|].
  2:{ rewrite set_ok;
        [|done|by apply clean_key_matches|by apply one_line_contains_lf].
      cbn [snd _log Storage.file Storage.with_file line_of String.eqb
           Ascii.eqb Bool.eqb].
      unfold log_text. by rewrite !sapp_assoc. }
  set (lg := Storage.__init__ _). set (s0 := restarted (kv w)).
  assert (_index (with_log lg (apply_record s0 ("SET", key, value))) !! key
          = Some value) as Hi.
  { eng_cbn. apply lookup_insert_eq. }
  assert (key ∉ _tombstones (with_log lg (apply_record s0 ("SET", key, value))))
    as Ht.
  { eng_cbn. set_solver. }
  assert (_ttl (with_log lg (apply_record s0 ("SET", key, value))) = _ttl s0)
    as Hd by done.
  split; [done|]. split; [done|]. split; [|split; [done|]].
  - intros k Hne. unfold key_state. eng_cbn.
    rewrite lookup_insert_ne by done. f_equal. f_equal.
    apply bool_decide_ext. set_solver.
  - intros t Hlive. rewrite get_eq. cbn [fst].
    rewrite decide_True; [by rewrite Hi|].
    split; [done|]. split; [by rewrite Hi|]. by rewrite Hd.
Qed.

(** The transaction on a fresh store. *)
Lemma committed_set_survives_restart_witness :
  _index (restarted
            (kv (snd (begin_set_commit "a" "1"
                        (mkWorld (snd (__init__ None)) false ∅ [] []
                                 (fun _ => 0) 0)))))
    !! "a" = Some "1".
Proof.
  refine (proj1 (proj2 (proj2 (proj2 (committed_set_survives_restart
    (mkWorld (snd (__init__ None)) false ∅ [] [] (fun _ => 0) 0) "a" "1"
    _ _ _ _ _))))).
  - reflexivity.
  - split; reflexivity.
  - exact I.
  - reflexivity.
  - reflexivity.
Defined.

End durable_commit.

(** ** MSET *)

Section mset.
Import Engine Main Spec LogSpec EngineSpec TxSpec OverlaySpec.

Lemma not_one_line value :
  one_line value = false →
  Py.contains Py.LF value || Py.contains Py.CR value = true.
Proof.
  induction value as [|c r IH]; [done|]. cbn [one_line Py.all_chars].
  fold (one_line r). unfold inline at 1. cbn [Py.contains].
  destruct (Py.is_char c Py.LF); [done|].
  destruct (Py.is_char c Py.CR); [by rewrite orb_true_r|].
  cbn [negb andb orb]. done.
Qed.

Lemma mset_args_length pairs :
  length (mset_args pairs) = (2 * length pairs)%nat.
Proof.
  induction pairs as [|[k v] rest IH]; [done|]. cbn [mset_args length].
  rewrite IH. lia.
Qed.

Lemma mset_args_accepted pairs :
  pairs ≠ [] →
  (length (mset_args pairs) <? 2)%nat
  || negb (Nat.even (length (mset_args pairs))) = false.
Proof.
  intros Hne. rewrite mset_args_length.
  destruct pairs as [|p rest]; [done|]. cbn [length].
  apply orb_false_iff. split.
  - apply Nat.ltb_ge. lia.
  - apply negb_false_iff, Nat.even_spec. by exists (S (length rest)).
Qed.

Lemma kv_set_in_tx key value w :
  in_tx (snd (kv_set key value w)) = in_tx w.
Proof.
  unfold kv_set, zoom. by destruct (set key value (kv w)).
Qed.

Lemma bind_assoc_run {S A B C} (m : M S A) (f : A → M S B) (g : B → M S C) s :
  bind (bind m f) g s = bind m (fun a => bind (f a) g) s.
Proof. unfold bind. by destruct (m s) as [[a|e] s1]. Qed.

Lemma bind_ext_run {S A B} (m : M S A) (f g : A → M S B) s :
  (∀ a s1, m s = (Ok a, s1) → f a s1 = g a s1) → bind m f s = bind m g s.
Proof. intros H. unfold bind. destruct (m s) as [[a|e] s1]; [by apply H|done]. Qed.

Lemma idle_branch {A} (m m' : M World unit) (k : M World A) w :
  in_tx w = false →
  (let* tx := gets in_tx in do (if tx then m else m') then k) w
  = (do m' then k) w.
Proof. intros Hidle. unfold bind at 1. unfold gets. by rewrite Hidle. Qed.

Lemma mset_loop_stops pairs key bad more w :
  in_tx w = false →
  Forall (λ p, one_line p.2 = true) pairs → one_line bad = false →
  mset_loop (mset_args (pairs ++ (key, bad) :: more)) w
  = (do set_each pairs then do _print ERR_VALUE_SINGLELINE then ret false) w.
Proof.
  intros Hidle Hlines Hbad. revert w Hidle.
  induction Hlines as [|[k v] rest Hv Hrest IH]; intros w Hidle.
  - cbn [app mset_args mset_loop set_each]. by rewrite not_one_line.
  - cbn [app mset_args mset_loop set_each]. cbn [snd] in Hv.
    rewrite one_line_contains_lf, one_line_contains_cr by done. cbn [orb].
    rewrite idle_branch by done. rewrite bind_assoc_run.
    apply bind_ext_run. intros [] w1 E. apply IH.
    pose proof (kv_set_in_tx k v w) as Htx. rewrite E in Htx. cbn [snd] in Htx.
    congruence.
Qed.

Lemma mset_loop_all pairs w :
  in_tx w = false →
  Forall (λ p, one_line p.2 = true) pairs →
  mset_loop (mset_args pairs) w = (do set_each pairs then ret true) w.
Proof.
  intros Hidle Hlines. revert w Hidle.
  induction Hlines as [|[k v] rest Hv Hrest IH]; intros w Hidle; [done|].
  cbn [app mset_args mset_loop set_each]. cbn [snd] in Hv.
  rewrite one_line_contains_lf, one_line_contains_cr by done. cbn [orb].
  rewrite idle_branch by done. rewrite bind_assoc_run.
  apply bind_ext_run. intros [] w1 E. apply IH.
  pose proof (kv_set_in_tx k v w) as Htx. rewrite E in Htx. cbn [snd] in Htx.
  congruence.
Qed.

Lemma set_each_ok pairs w :
  default_log (kv w) → Forall pair_ok pairs →
  fst (set_each pairs w) = Ok tt
  ∧ stdout (snd (set_each pairs w)) = stdout w
  ∧ default_log (kv (snd (set_each pairs w))).
Proof.
  intros Hcfg Hok. revert w Hcfg.
  induction Hok as [|[k v] rest [Hk Hv] Hrest IH]; intros w Hcfg; [done|].
  cbn [set_each]. unfold bind. unfold kv_set, zoom. cbn [fst snd] in Hk, Hv.
  rewrite set_ok; [|done..|by apply one_line_contains_lf].
  match goal with |- context [set_each rest ?w0] =>
    destruct (IH w0) as (H1 & H2 & H3); [done|]
  end.
  split; [done|]. split; [exact H2|done].
Qed.

(** X16.  MSET outside a transaction is not all or nothing.  When the
    value of a pair holds a line feed or a carriage return and the values
    before it do not, MSET does what [kv.set] on each of the pairs before
    it does, in their order, and then prints the single-line error: those
    pairs stay set, the pairs from the refused one on are not, and no OK is
    printed.  With keys that [_KEY_RE] matches and a log without length
    limits none of these [kv.set] raises.  When no value holds a line
    break, MSET is [kv.set] on each pair and then OK. *)
Theorem mset_stops_at_line_break (w : World) (pairs : list (string * string))
    (key bad : string) (more : list (string * string))
    (Hidle : in_tx w = false)
    (Hlines : Forall (λ p, one_line p.2 = true) pairs)
    (Hbad : one_line bad = false) :
  handle_mset (mset_args (pairs ++ (key, bad) :: more)) w
  = (do set_each pairs then _print ERR_VALUE_SINGLELINE) w
  ∧ (default_log (kv w) → Forall pair_ok pairs →
     fst (handle_mset (mset_args (pairs ++ (key, bad) :: more)) w) = Ok tt
     ∧ stdout (snd (handle_mset (mset_args (pairs ++ (key, bad) :: more)) w))
       = (stdout w ++ [ERR_VALUE_SINGLELINE])%list
     ∧ kv (snd (handle_mset (mset_args (pairs ++ (key, bad) :: more)) w))
       = kv (snd (set_each pairs w)))
  ∧ (pairs ≠ [] →
     handle_mset (mset_args pairs) w = (do set_each pairs then _print MSG_OK) w).
Proof.
  assert (handle_mset (mset_args (pairs ++ (key, bad) :: more)) w
          = (do set_each pairs then _print ERR_VALUE_SINGLELINE) w) as E.
  { unfold handle_mset. rewrite mset_args_accepted by by destruct pairs.
    unfold bind at 1. rewrite mset_loop_stops by done.
    unfold bind. by destruct (set_each pairs w) as [[[]|e] w1]. }
  split; [done|]. split.
  - intros Hcfg Hok. rewrite E. unfold bind.
    destruct (set_each_ok pairs w Hcfg Hok) as (H1 & H2 & _).
    destruct (set_each pairs w) as [[[]|e] w1]; [|done].
    cbn [fst snd] in *. cbn. by rewrite H2.
  - intros Hne. unfold handle_mset. rewrite mset_args_accepted by done.
    unfold bind at 1. rewrite mset_loop_all by done.
    unfold bind. by destruct (set_each pairs w) as [[[]|e] w1].
Qed.

(** MSET a 1 b, with a line feed in the value of b, on a fresh store. *)
Lemma mset_stops_at_line_break_witness :
  handle_mset (mset_args ([("a", "1")] ++ ("b", String Py.LF "") :: []))
    (mkWorld (snd (__init__ None)) false ∅ [] [] (fun _ => 0) 0)
  = (do set_each [("a", "1")] then _print ERR_VALUE_SINGLELINE)
      (mkWorld (snd (__init__ None)) false ∅ [] [] (fun _ => 0) 0).
Proof.
  refine (proj1 (mset_stops_at_line_break
    (mkWorld (snd (__init__ None)) false ∅ [] [] (fun _ => 0) 0)
    [("a", "1")] "b" (String Py.LF "") [] _ _ _)).
  - reflexivity.
  - repeat constructor.
  - reflexivity.
Defined.

End mset.

(** ** RANGE inside a transaction *)

Section range_overlay.
Import Engine Main Spec LogSpec EngineSpec TxSpec OverlaySpec.

Lemma in_range_spec start end_ k :
  in_range start end_ k = true ↔ in_bounds start end_ k.
Proof.
  unfold in_range, in_bounds, Py.lt, Py.gt.
  destruct (Py.is_empty start) eqn:Es; destruct (Py.is_empty end_) eqn:Ee;
    cbn [negb andb];
    repeat match goal with
    | H : Py.is_empty _ = true |- _ => apply is_empty_eq in H
    | H : Py.is_empty ?s = false |- _ =>
        assert (s ≠ "") by (intros ->; done); clear H
    end.
  - tauto.
  - destruct (String.ltb end_ k) eqn:E.
    + split; [done|]. intros [_ [?|Hle]]; [done|].
      apply ltb_false_le in Hle. congruence.
    + apply ltb_false_le in E. tauto.
  - destruct (String.ltb k start) eqn:E.
    + split; [done|]. intros [[?|Hle] _]; [done|].
      apply ltb_false_le in Hle. congruence.
    + apply ltb_false_le in E. tauto.
  - destruct (String.ltb k start) eqn:E.
    + split; [done|]. intros [[?|Hle] _]; [done|].
      apply ltb_false_le in Hle. congruence.
    + apply ltb_false_le in E. destruct (String.ltb end_ k) eqn:E2.
      * split; [done|]. intros [_ [?|Hle]]; [done|].
        apply ltb_false_le in Hle. congruence.
      * apply ltb_false_le in E2. tauto.
Qed.

Lemma fold_overlay start end_ (pending : list (string * option string))
    (X : gset string) k :
  NoDup pending.*1 →
  k ∈ fold_left (overlay_entry start end_) pending X
  ↔ (∃ v, (k, Some v) ∈ pending ∧ in_range start end_ k = true)
    ∨ (k ∈ X ∧ (k, None) ∉ pending).
Proof.
  revert X. induction pending as [|[k0 [v0|]] rest IH]; intros X Hnd.
  - cbn. split; [intros ?; right; split; [done|]; apply not_elem_of_nil|].
    intros [(v & Hv & _)|[? _]]; [by apply elem_of_nil in Hv|done].
  - rewrite fmap_cons in Hnd. apply NoDup_cons in Hnd as [Hk0 Hrest].
    cbn [fold_left]. unfold overlay_entry at 2. cbn [fst snd].
    assert ((k0, None) ∉ rest) as Hnone.
    { intros Hin. apply Hk0. apply list_elem_of_fmap. by exists (k0, None). }
    destruct (in_range start end_ k0) eqn:Er; rewrite IH by done; split.
    + intros [(v & Hv & Hr)|[Hx Hn]].
      * left. exists v. split; [by right|done].
      * apply elem_of_union in Hx as [->%elem_of_singleton|Hx].
        -- left. exists v0. split; [by left|done].
        -- right. split; [done|]. rewrite not_elem_of_cons. split; [done|done].
    + intros [(v & Hv & Hr)|[Hx Hn]].
      * apply elem_of_cons in Hv as [E|Hv].
        -- simplify_eq. right. split; [set_solver|done].
        -- left. by exists v.
      * right. apply not_elem_of_cons in Hn as [_ Hn]. split; [set_solver|done].
    + intros [(v & Hv & Hr)|[Hx Hn]].
      * left. exists v. split; [by right|done].
      * right. split; [done|]. rewrite not_elem_of_cons. split; [done|done].
    + intros [(v & Hv & Hr)|[Hx Hn]].
      * apply elem_of_cons in Hv as [E|Hv]; [simplify_eq; congruence|].
        left. by exists v.
      * right. apply not_elem_of_cons in Hn as [_ Hn]. done.
  - rewrite fmap_cons in Hnd. apply NoDup_cons in Hnd as [Hk0 Hrest].
    cbn [fold_left]. unfold overlay_entry at 2. cbn [fst snd].
    rewrite IH by done. split.
    + intros [(v & Hv & Hr)|[Hx Hn]].
      * left. exists v. split; [by right|done].
      * apply elem_of_difference in Hx as [Hx Hne].
        right. split; [done|]. rewrite not_elem_of_cons. split; [|done].
        intros E. simplify_eq. set_solver.
    + intros [(v & Hv & Hr)|[Hx Hn]].
      * apply elem_of_cons in Hv as [E|Hv]; [done|]. left. by exists v.
      * apply not_elem_of_cons in Hn as [Hne Hn]. right. split; [|done].
        apply elem_of_difference. split; [done|].
        intros ->%elem_of_singleton. done.
Qed.

Lemma print_all_eq lines w :
  print_all lines w = (Ok tt, with_stdout (stdout w ++ lines) w).
Proof.
  revert w. induction lines as [|l rest IH]; intros w.
  - cbn. rewrite List.app_nil_r. by destruct w.
  - cbn [print_all]. unfold bind, _print, modify. rewrite IH.
    cbn. by rewrite <- app_assoc.
Qed.

Lemma string_le_trans : Transitive String.le.
Proof. apply _. Qed.

Lemma string_le_total : Total String.le.
Proof. apply _. Qed.

Lemma sorted_spec (X : gset string) :
  StronglySorted String.le (sorted X)
  ∧ NoDup (sorted X)
  ∧ ∀ k, k ∈ sorted X ↔ k ∈ X.
Proof.
  unfold sorted. split; [|split].
  - pose proof string_le_trans. pose proof string_le_total.
    apply StronglySorted_merge_sort; apply _.
  - rewrite merge_sort_Permutation. apply NoDup_elements.
  - intros k. rewrite merge_sort_Permutation. apply elem_of_elements.
Qed.

Lemma kv_range_keys_eq start end_ w :
  ∃ s', kv_range_keys start end_ w
        = (Ok (filter (λ k, shown start end_ k = true
                            ∧ live (clock w (ticks w)) k (kv w))
                 (Index.items (_index (kv w))).*1),
           with_kv s' (with_ticks (S (ticks w)) w)).
Proof.
  unfold kv_range_keys, _now_ms, range_keys. unfold_m. cbn [kv with_ticks].
  destruct (range_loop_yield (clock w (ticks w)) start end_
              (Index.items (_index (kv w))) (kv w) (items_keys_NoDup _))
    as [s' ->].
  by exists s'.
Qed.

Lemma handle_range_in_tx start end_ w :
  in_tx w = true →
  ∃ w1, tx_buffer w1 = tx_buffer w ∧ stdout w1 = stdout w
    ∧ handle_range [start; end_] w
      = (Ok tt,
         printed "END"
           (with_stdout
              (stdout w1
               ++ sorted
                    (fold_left (overlay_entry start end_)
                       (map_to_list (tx_buffer w1))
                       (list_to_set
                          (filter (λ k, shown start end_ k = true
                                        ∧ live (clock w (ticks w)) k (kv w))
                             (Index.items (_index (kv w))).*1))))
              w1)).
Proof.
  intros Htx. destruct (kv_range_keys_eq start end_ w) as [s' E].
  exists (with_kv s' (with_ticks (S (ticks w)) w)).
  split; [done|]. split; [done|].
  unfold handle_range. unfold bind at 1. unfold gets at 1. rewrite Htx.
  cbn [negb]. unfold bind at 1. rewrite E.
  unfold bind at 1. unfold gets at 1.
  unfold bind. by rewrite print_all_eq.
Qed.

(** X17.  RANGE inside a transaction prints, in ascending order and none
    twice, the keys that have a pending value and lie within the bounds,
    and the keys that the engine lists (live at the time of the call,
    within the bounds, not hidden by the test on dashes and length) and
    that have no pending deletion; then END.  A key with a pending value
    is listed whether or not the engine would hide it. *)
Theorem range_in_transaction (w : World) (start end_ : string)
    (Htx : in_tx w = true) :
  ∃ ks,
    fst (handle_range [start; end_] w) = Ok tt
    ∧ stdout (snd (handle_range [start; end_] w))
      = (stdout w ++ ks ++ ["END"])%list
    ∧ StronglySorted String.le ks
    ∧ NoDup ks
    ∧ (∀ k, k ∈ ks ↔ listed_in_tx w start end_ k)
    ∧ (∀ k v, tx_buffer w !! k = Some (Some v) → in_bounds start end_ k →
              k ∈ ks).
Proof.
  destruct (handle_range_in_tx start end_ w Htx) as (w1 & Ebuf & Eout & ->).
  rewrite Ebuf, Eout. set (X := fold_left _ _ _). cbn [fst snd].
  exists (sorted X). split; [done|]. split; [by cbn; rewrite <- app_assoc|].
  destruct (sorted_spec X) as (Hs & Hn & Hm).
  split; [done|]. split; [done|].
  assert (∀ k, k ∈ sorted X ↔ listed_in_tx w start end_ k) as Hiff.
  { intros k. rewrite Hm. unfold X.
    rewrite fold_overlay by apply NoDup_fst_map_to_list.
    unfold listed_in_tx. rewrite elem_of_list_to_set.
    rewrite list_elem_of_filter, shown_spec.
    split.
    - intros [(v & Hv & Hr)|[(Hshown & Hin) Hnone]].
      + left. apply elem_of_map_to_list in Hv. apply in_range_spec in Hr.
        split; [by exists v|done].
      + right. split; [|tauto].
        intros E. apply Hnone. by apply elem_of_map_to_list.
    - intros [[[v Hv] Hb]|(Hnone & Hl & Hb & Hh)].
      + left. exists v. split; [by apply elem_of_map_to_list|].
        by apply in_range_spec.
      + right. split.
        * split; [tauto|]. destruct Hl as (_ & [v Hv] & _).
          apply list_elem_of_fmap. exists (k, v). split; [done|].
          by apply items_elem.
        * intros Hin. apply Hnone. by apply elem_of_map_to_list. }
  split; [done|].
  intros k v Hv Hb. apply Hiff. left. split; [by exists v|done].
Qed.

(** A fresh store, with a pending value for a key that RANGE hides
    outside a transaction. *)
Lemma range_in_transaction_witness :
  ∃ ks,
    fst (handle_range [""; ""]
           (mkWorld (snd (__init__ None)) true
                    {["user-profile-settings" := Some "x"]} [] []
                    (fun _ => 0) 0)) = Ok tt
    ∧ stdout (snd (handle_range [""; ""]
           (mkWorld (snd (__init__ None)) true
                    {["user-profile-settings" := Some "x"]} [] []
                    (fun _ => 0) 0)))
      = ([] ++ ks ++ ["END"])%list
    ∧ "user-profile-settings" ∈ ks.
Proof.
  destruct (range_in_transaction
    (mkWorld (snd (__init__ None)) true
             {["user-profile-settings" := Some "x"]} [] [] (fun _ => 0) 0)
    "" "" eq_refl) as (ks & H1 & H2 & _ & _ & _ & H3).
  exists ks. split; [exact H1|]. split; [exact H2|].
  apply (H3 _ "x"); [apply lookup_insert_eq|]. split; by left.
Defined.

End range_overlay.

(** ** Compaction *)

Section compaction.
Import Storage LogSpec.

Lemma compact_write_state items tmp lg :
  snd (compact_write items tmp lg) = lg.
Proof.
  revert tmp. induction items as [|[k v] rest IH]; intros tmp; [done|].
  cbn [compact_write]. unfold bind.
  destruct (_validate_key_value_or_raise k v lg) as [[[]|e] lg'] eqn:E.
  - assert (lg' = lg) as ->.
    { unfold _validate_key_value_or_raise in E. unfold_m.
      repeat case_match; by simplify_eq. }
    apply IH.
  - unfold _validate_key_value_or_raise in E. unfold_m.
    repeat case_match; by simplify_eq.
Qed.

Lemma validate_item_ok k v lg :
  unlimited lg → item_ok (k, v) →
  _validate_key_value_or_raise k v lg = (Ok tt, lg).
Proof.
  intros [Hmk Hmv] [Hk Hv]. unfold _validate_key_value_or_raise.
  cbn [fst snd] in Hk, Hv.
  rewrite clean_key_matches, one_line_contains_lf by done.
  by rewrite Hmk, Hmv.
Qed.

Lemma compact_write_snoc items p tmp lg :
  unlimited lg → Forall item_ok items → item_ok p →
  ∃ text, compact_write items tmp lg = (Ok text, lg)
    ∧ compact_write (items ++ [p]) tmp lg
      = (Ok (text ++ line_of ("SET", p.1, p.2) ++ nl), lg).
Proof.
  intros Hu Hok Hp. revert tmp.
  induction Hok as [|[k v] rest Hkv Hrest IH]; intros tmp.
  - exists tmp. split; [done|]. destruct p as [k v].
    cbn [app compact_write]. unfold bind.
    rewrite validate_item_ok by done.
    cbn [line_of String.eqb Ascii.eqb Bool.eqb fst snd ret].
    by rewrite !sapp_assoc.
  - cbn [app compact_write]. unfold bind.
    rewrite validate_item_ok by done. apply IH.
Qed.

Lemma compact_write_replay items lg lg' :
  unlimited lg → unlimited lg' → Forall item_ok items →
  ∃ text, compact_write items "" lg = (Ok text, lg)
    ∧ replay (with_file (Some text) lg')
      = mkReplay (set_records items) (Ok tt) false
    ∧ complete (Some text).
Proof.
  intros Hu Hu'. induction items as [|p items IH] using rev_ind; intros Hok.
  { exists "". split; [done|]. split; [done|]. by left. }
  apply Forall_app in Hok as [Hok Hp]. rewrite Forall_singleton in Hp.
  destruct (IH Hok) as (text & Hw & Hr & Hc).
  destruct (compact_write_snoc items p "" lg Hu Hok Hp) as (text' & Hw' & ->).
  rewrite Hw in Hw'. simplify_eq.
  eexists. split; [done|].
  assert (written ("SET", p.1, p.2)) as Hwr by (destruct Hp; by constructor).
  assert (replay (with_file (Some (text' ++ line_of ("SET", p.1, p.2) ++ nl)) lg')
          = mkReplay (yielded (replay (with_file (Some text') lg'))
                      ++ [("SET", p.1, p.2)]) (Ok tt) false) as ->.
  { refine (replay_appended (with_file (Some text') lg') ("SET", p.1, p.2)
              _ _ _ _); [done|done|done|by rewrite Hr]. }
  split.
  - rewrite Hr. cbn [yielded]. unfold set_records. by rewrite fmap_app.
  - right. by rewrite <- sapp_assoc, last_char_app_nl.
Qed.

Lemma set_records_fold items s :
  Engine._ttl (fold_left Engine.apply_record (set_records items) s)
  = Engine._ttl s
  ∧ Engine._tombstones (fold_left Engine.apply_record (set_records items) s)
    ⊆ Engine._tombstones s
  ∧ (∀ k v, Engine._index (fold_left Engine.apply_record (set_records items) s)
              !! k = Some v →
            (k, v) ∈ items ∨ Engine._index s !! k = Some v)
  ∧ (∀ k, k ∈ items.*1 ∨ is_Some (Engine._index s !! k) →
          is_Some (Engine._index
                     (fold_left Engine.apply_record (set_records items) s) !! k)).
Proof.
  revert s. induction items as [|[k0 v0] rest IH]; intros s.
  { cbn. split; [done|]. split; [done|]. split; [by right|].
    intros k [Hk|Hk]; [by apply elem_of_nil in Hk|done]. }
  cbn [set_records fmap list_fmap fold_left fst snd].
  fold (set_records rest).
  destruct (IH (Engine.apply_record s ("SET", k0, v0))) as (H1 & H2 & H3 & H4).
  split; [by rewrite H1|]. split; [|split].
  - etrans; [exact H2|]. eng_cbn. set_solver.
  - intros k v Hkv. destruct (H3 k v Hkv) as [Hin|Hs]; [left; by right|].
    revert Hs. eng_cbn. destruct (decide (k = k0)) as [->|Hne].
    + rewrite lookup_insert_eq. intros [= ->]. left. by left.
    + rewrite lookup_insert_ne by done. by right.
  - intros k Hk. apply H4.
    eng_cbn. destruct (decide (k = k0)) as [->|Hne].
    + right. by rewrite lookup_insert_eq.
    + rewrite lookup_insert_ne by done.
      destruct Hk as [Hk|Hk]; [|by right].
      apply elem_of_cons in Hk as [?|Hk]; [done|by left].
Qed.

(** X18.  Compaction.  On a log without length limits, [compact] of items
    whose keys are not empty and free of white space and whose values are
    free of line feed and carriage return ends without exception, and a
    replay of the log it leaves yields the SET record of each item, in
    the order of the items, and nothing else, without warning.  An engine
    built from the compacted file has no deadline and no tombstone, holds
    a value for every key of the items and no value that is not among the
    items: the deadlines that the log held are gone.  A [compact] that
    raises leaves the log as it was. *)
Theorem compact_then_replay (lg : AppendOnlyLog) (items : list (string * string))
    (Hu : unlimited lg) (Hok : Forall item_ok items) :
  fst (compact items lg) = Ok tt
  ∧ replay (snd (compact items lg)) = mkReplay (set_records items) (Ok tt) false
  ∧ Engine._ttl (snd (Engine.__init__ (file (snd (compact items lg))))) = ∅
  ∧ Engine._tombstones (snd (Engine.__init__ (file (snd (compact items lg))))) = ∅
  ∧ (∀ k v, Engine._index (snd (Engine.__init__ (file (snd (compact items lg)))))
              !! k = Some v → (k, v) ∈ items)
  ∧ (∀ k v, (k, v) ∈ items →
            is_Some (Engine._index
                       (snd (Engine.__init__ (file (snd (compact items lg)))))
                     !! k))
  ∧ (∀ items', fst (compact items' lg) ≠ Ok tt → snd (compact items' lg) = lg).
Proof.
  destruct (compact_write_replay items lg lg Hu Hu Hok) as (text & Hw & Hr & _).
  destruct (compact_write_replay items lg (__init__ None) Hu) as (text' & Hw' & Hr' & _);
    [done|done|].
  rewrite Hw in Hw'. simplify_eq.
  assert (compact items lg = (Ok tt, with_file (Some text') lg)) as ->.
  { unfold compact. unfold bind. by rewrite Hw. }
  cbn [fst snd file with_file].
  split; [done|]. split; [done|].
  unfold Engine.__init__, Engine._load_from_log. cbn [snd].
  change (Engine._log (Engine.with_ttl ∅ (Engine.with_tombstones ∅
            (Engine.with_index Index.empty
               (Engine.mkKV Index.empty (__init__ (Some text')) ∅ ∅)))))
    with (with_file (Some text') (__init__ None)).
  rewrite Hr'. cbn [yielded].
  match goal with |- context [fold_left _ _ ?s0] =>
    destruct (set_records_fold items s0) as (H1 & H2 & H3 & H4)
  end.
  split; [by rewrite H1|]. split; [|split; [|split]].
  - apply (anti_symm (⊆)); [exact H2|set_solver].
  - intros k v Hkv. by destruct (H3 k v Hkv) as [?|?].
  - intros k v Hkv. apply H4. left. apply list_elem_of_fmap. by exists (k, v).
  - intros items' Hfail. unfold compact, bind in *.
    pose proof (compact_write_state items' "" lg) as Hs.
    destruct (compact_write items' "" lg) as [[t|e] lg1]; [done|].
    exact Hs.
Qed.

(** Two items on a log that holds a deletion and a deadline. *)
Lemma compact_then_replay_witness :
  replay (snd (compact [("a", "1"); ("b", "x y")]
                 (__init__ (Some ("DEL a" ++ nl ++ "EXPIREAT b 5" ++ nl)))))
  = mkReplay (set_records [("a", "1"); ("b", "x y")]) (Ok tt) false.
Proof.
  refine (proj1 (proj2 (compact_then_replay
    (__init__ (Some ("DEL a" ++ nl ++ "EXPIREAT b 5" ++ nl)))
    [("a", "1"); ("b", "x y")] _ _))).
  - split; reflexivity.
  - repeat constructor.
Defined.

End compaction.

(** ** TTL inside a transaction *)

Section ttl_overlay.
Import Engine Main Spec LogSpec EngineSpec TxSpec OverlaySpec.


Lemma exists_pending key v w :
  in_tx w = true → tx_buffer w !! key = Some v →
  handle_exists [key] w = (Ok tt, printed (bit (bool_decide (is_Some v))) w)
  ∧ handle_get [key] w = (Ok tt, printed (shown_value v) w).
Proof.
  intros Htx Hb. unfold handle_exists, handle_get, _tx_exists_view, _tx_get_view.
  unfold_m. by rewrite Htx, Hb.
Qed.

(** X19.  TTL does not look at the transaction.  For a key that the
    open transaction has set and that is not live in the engine, EXISTS
    prints 1 and GET the pending value, while TTL prints -2; for a key
    that the transaction has deleted and that is live in the engine, EXISTS
    prints 0 and GET nil, while TTL prints the time left, or -1 when the
    key has no deadline. *)
Theorem ttl_ignores_transaction (w : World) (key : string)
    (Htx : in_tx w = true) :
  (∀ value, tx_buffer w !! key = Some (Some value) →
     ¬ live (clock w (ticks w)) key (kv w) →
     handle_exists [key] w = (Ok tt, printed "1" w)
     ∧ handle_get [key] w = (Ok tt, printed value w)
     ∧ fst (handle_ttl [key] w) = Ok tt
     ∧ stdout (snd (handle_ttl [key] w)) = (stdout w ++ ["-2"])%list)
  ∧ (tx_buffer w !! key = Some None →
     live (clock w (ticks w)) key (kv w) →
     handle_exists [key] w = (Ok tt, printed "0" w)
     ∧ handle_get [key] w = (Ok tt, printed "nil" w)
     ∧ fst (handle_ttl [key] w) = Ok tt
     ∧ stdout (snd (handle_ttl [key] w))
       = (stdout w
          ++ [Py.str (match _ttl (kv w) !! key with
                      | Some e => e - clock w (ticks w)
                      | None => -1
                      end)])%list).
Proof.
  split.
  - intros value Hb Hdead.
    destruct (exists_pending key (Some value) w Htx Hb) as [-> ->].
    split; [done|]. split; [done|].
    unfold handle_ttl, kv_ttl, _now_ms. unfold_m. cbn [kv with_ticks].
    rewrite ttl_dead by done. done.
  - intros Hb Hlive.
    destruct (exists_pending key None w Htx Hb) as [-> ->].
    split; [done|]. split; [done|].
    unfold handle_ttl, kv_ttl, _now_ms. unfold_m. cbn [kv with_ticks].
    rewrite ttl_live by done. done.
Qed.

(** A key set inside a transaction on a fresh store. *)
Lemma ttl_ignores_transaction_witness :
  stdout (snd (handle_ttl ["a"]
                 (mkWorld (snd (__init__ None)) true {["a" := Some "1"]}
                          [("SET", ["a"; "1"])] [] (fun _ => 0) 0)))
  = ([] ++ ["-2"])%list.
Proof.
  refine (proj2 (proj2 (proj2 (proj1 (ttl_ignores_transaction
    (mkWorld (snd (__init__ None)) true {["a" := Some "1"]}
             [("SET", ["a"; "1"])] [] (fun _ => 0) 0) "a" _) "1" _ _)))).
  - reflexivity.
  - apply lookup_insert_eq.
  - intros (_ & [v Hv] & _). done.
Defined.

End ttl_overlay.
